(** * TextGrid batch editors: case converter, final-dot spacing, word replacement

    A shallow embedding of the three command-line tools

      - [case_converter.py]
      - [space_final_dot.py]
      - [textgrid_word_replace.py]

    Every tool reads a file as one Python [str], rewrites it with [re.sub]
    and writes it back.  The development has four layers:

      - [Text]     Python strings as lists of code points, the character
                   classes [\s], [\w] and [.] of the [re] module;
      - [Re]       a backtracking matcher with the priorities of [re]
                   (greedy and lazy stars, leftmost match, groups), the
                   scan behind [re.findall], [re.finditer], [re.sub], and
                   the replacement templates of [re.sub];
      - [Os]       the file system, the console, the line ends of text
                   mode and a small exception monad in which a raised
                   exception keeps the effects that happened before it;
      - one module per source file, each function under its source name. *)

From Stdlib Require Import List Ascii String NArith Arith Bool Lia.
From stdpp Require Import gmap strings.
Import ListNotations.

#[local] Open Scope string_scope.
#[local] Open Scope list_scope.
#[local] Open Scope nat_scope.

(* ===================================================================== *)
(** * Python strings *)
(* ===================================================================== *)

Module Text.

(** A Python [str] is a sequence of Unicode code points. *)
Definition char : Type := N.
Definition text : Type := list char.

(** [str "..."] embeds an ASCII literal of the sources. *)
Definition str (s : string) : text :=
  List.map N_of_ascii (list_ascii_of_string s).

Definition ch (a : ascii) : char := N_of_ascii a.

Definition char_eqb (a b : char) : bool := N.eqb a b.

Fixpoint text_eqb (a b : text) : bool :=
  match a, b with
  | [], [] => true
  | x :: a', y :: b' => char_eqb x y && text_eqb a' b'
  | _, _ => false
  end.

Definition quote : char := 34%N.      (* the double quote *)
Definition newline : char := 10%N.
Definition space : char := 32%N.
Definition dot : char := 46%N.
Definition lparen : char := 40%N.
Definition rparen : char := 41%N.
Definition hyphen : char := 45%N.
Definition underscore : char := 95%N.
Definition backslash : char := 92%N.

(** [\s] of a [str] pattern, and the characters [str.strip] removes:
    the code points for which [str.isspace] holds. *)
Definition is_space (c : char) : bool :=
  ((9 <=? c) && (c <=? 13) || (28 <=? c) && (c <=? 32)
   || (c =? 133) || (c =? 160) || (c =? 5760)
   || (8192 <=? c) && (c <=? 8202)
   || (c =? 8232) || (c =? 8233) || (c =? 8239) || (c =? 8287)
   || (c =? 12288))%N.

Definition is_ascii_digit (c : char) : bool := ((48 <=? c) && (c <=? 57))%N.
Definition is_ascii_octdigit (c : char) : bool := ((48 <=? c) && (c <=? 55))%N.
Definition is_ascii_letter (c : char) : bool :=
  ((65 <=? c) && (c <=? 90) || (97 <=? c) && (c <=? 122))%N.

(** [\w] of a [str] pattern: the underscore and every character for which
    [str.isalnum] holds.  On ASCII this is [[a-zA-Z0-9_]]; beyond ASCII the
    answer is a table of the Unicode database, taken as [alnum_beyond]. *)
Definition is_word (alnum_beyond : char -> bool) (c : char) : bool :=
  (c =? underscore)%N
  || (if (c <? 128)%N then is_ascii_letter c || is_ascii_digit c
      else alnum_beyond c).

(** [.] without [re.DOTALL]: anything but a newline. *)
Definition is_dot (c : char) : bool := negb (c =? newline)%N.

Definition is_char (x : char) (c : char) : bool := (c =? x)%N.
Definition not_char (x : char) (c : char) : bool := negb (c =? x)%N.

(** [str.strip()] *)
Fixpoint lstrip (t : text) : text :=
  match t with
  | c :: t' => if is_space c then lstrip t' else t
  | [] => []
  end.

Definition strip (t : text) : text := rev (lstrip (rev (lstrip t))).

(** The lines a text file yields when iterated: the pieces between
    newlines, without the newline itself ([strip] removes it anyway);
    a final piece that is empty is not a line. *)
Fixpoint lines_from (cur : text) (t : text) : list text :=
  match t with
  | [] => match cur with [] => [] | _ => [rev cur] end
  | c :: t' =>
      if (c =? newline)%N then rev cur :: lines_from [] t'
      else lines_from (c :: cur) t'
  end.

Definition lines (t : text) : list text := lines_from [] t.

End Text.

Import Text.

(* ===================================================================== *)
(** * The [re] module *)
(* ===================================================================== *)

Module Re.

(** The patterns of the three tools use concatenation, single characters
    and character classes, greedy and lazy repetition of a class, and
    numbered groups. *)
Inductive regex : Type :=
| Eps
| Chr (p : char -> bool)
| Seq (r1 r2 : regex)
| Star (greedy : bool) (p : char -> bool)
| Group (n : nat) (r : regex).

(** A literal: what [re.escape] of a word compiles to. *)
Fixpoint Lit (t : text) : regex :=
  match t with
  | [] => Eps
  | c :: t' => Seq (Chr (is_char c)) (Lit t')
  end.

Definition Plus (p : char -> bool) : regex := Seq (Chr p) (Star true p).

Notation "a ⋅ b" := (Seq a b) (at level 41, right associativity).

(** Groups closed so far, most recent first. *)
Definition caps : Type := list (nat * text).

Fixpoint group (cs : caps) (n : nat) : text :=
  match cs with
  | [] => []
  | (m, t) :: cs' => if Nat.eqb m n then t else group cs' n
  end.

Section Matcher.
Context {R : Type}.

(** [p*]: the longest run first, then shorter ones. *)
Fixpoint star_greedy (p : char -> bool) (s : text) (k : text -> option R)
  : option R :=
  match s with
  | [] => k []
  | c :: s' =>
      if p c then
        match star_greedy p s' k with
        | Some r => Some r
        | None => k s
        end
      else k s
  end.

(** [p*?]: the empty run first, then longer ones. *)
Fixpoint star_lazy (p : char -> bool) (s : text) (k : text -> option R)
  : option R :=
  match k s with
  | Some r => Some r
  | None =>
      match s with
      | [] => None
      | c :: s' => if p c then star_lazy p s' k else None
      end
  end.

(** The backtracking matcher, in continuation-passing style: [k] is the
    rest of the pattern, and the first success in priority order wins. *)
Fixpoint rmatch (r : regex) (s : text) (cs : caps)
    (k : text -> caps -> option R) : option R :=
  match r with
  | Eps => k s cs
  | Chr p =>
      match s with
      | c :: s' => if p c then k s' cs else None
      | [] => None
      end
  | Seq a b => rmatch a s cs (fun s1 c1 => rmatch b s1 c1 k)
  | Star true p => star_greedy p s (fun s' => k s' cs)
  | Star false p => star_lazy p s (fun s' => k s' cs)
  | Group n a =>
      rmatch a s cs
        (fun s1 c1 => k s1 ((n, firstn (length s - length s1) s) :: c1))
  end.
End Matcher.

(** A match object: [group(0)] and the numbered groups. *)
Record rmatch_obj : Type := MatchObj { whole : text; groups : caps }.

(** [pattern.match(s)]: a match that starts at the first character. *)
Definition match_here (r : regex) (s : text) : option rmatch_obj :=
  rmatch r s []
    (fun s' cs => Some (MatchObj (firstn (length s - length s') s) cs)).

(** The scan shared by [findall], [finditer] and [sub]: the text cut into
    the non-overlapping leftmost matches and the characters between them.
    [skip] counts the characters still covered by the last match. *)
Inductive piece : Type :=
| Gap (c : char)
| Hit (m : rmatch_obj).

Fixpoint scan (r : regex) (s : text) (skip : nat) : list piece :=
  match s with
  | [] =>
      match skip with
      | 0 => match match_here r [] with
             | Some m => [Hit m]
             | None => []
             end
      | S _ => []
      end
  | c :: s' =>
      match skip with
      | S n => scan r s' n
      | 0 =>
          match match_here r s with
          | Some m =>
              match length (whole m) with
              | 0 => Hit m :: Gap c :: scan r s' 0
              | S n => Hit m :: scan r s' n
              end
          | None => Gap c :: scan r s' 0
          end
      end
  end.

Fixpoint hits (ps : list piece) : list rmatch_obj :=
  match ps with
  | [] => []
  | Gap _ :: ps' => hits ps'
  | Hit m :: ps' => m :: hits ps'
  end.

(** [re.finditer(pattern, s)] *)
Definition finditer (r : regex) (s : text) : list rmatch_obj :=
  hits (scan r s 0).

(** [len(re.findall(pattern, s))] *)
Definition findall_len (r : regex) (s : text) : nat :=
  length (finditer r s).

Fixpoint render (f : rmatch_obj -> text) (ps : list piece) : text :=
  match ps with
  | [] => []
  | Gap c :: ps' => c :: render f ps'
  | Hit m :: ps' => f m ++ render f ps'
  end.

(** [re.sub(pattern, f, s)] with a callable [f]. *)
Definition sub_fn (r : regex) (f : rmatch_obj -> text) (s : text) : text :=
  render f (scan r s 0).

(** ** Replacement templates

    [re.sub] with a string replacement first compiles the string into
    literal characters and group references ([parse_template] of the
    [re] module), and fails with [re.error] on a malformed one, whether or
    not the pattern occurs in the text. *)

Inductive titem : Type :=
| TChar (c : char)
| TGroup (n : nat).

Inductive re_error : Type :=
| BadEscapeEnd                 (* a lone backslash ends the template *)
| BadEscape (c : char)         (* backslash + ASCII letter that is no escape *)
| MissingGroupName             (* [\g] without [<name>] *)
| BadGroupName (name : text)   (* a name that is no number and no group *)
| InvalidGroupReference (n : nat)
| OctalOutOfRange (n : N).

(** The tokenizer state: what has been read of an escape so far. *)
Inductive tstate : Type :=
| TNormal
| TEsc
| TG
| TName (acc : text)
| TZero1
| TZero2 (d : char)
| TDig1 (c : char)
| TDig2 (c d : char).

Definition digit_val (c : char) : N := (c - 48)%N.

Definition decimal (t : text) : nat :=
  N.to_nat (fold_left (fun acc c => acc * 10 + digit_val c)%N t 0%N).

Definition addgroup (ngroups index : nat) : re_error + list titem :=
  if ngroups <? index then inl (InvalidGroupReference index)
  else inr [TGroup index].

(** A character read outside an escape. *)
Definition tnormal (x : char) : list titem * tstate :=
  if (x =? backslash)%N then ([], TEsc) else ([TChar x], TNormal).

(** The single-character escapes of the [re] module: [\a \b \f \n \r \t \v]
    and the doubled backslash. *)
Definition escape_of (x : char) : option char :=
  (if x =? 97 then Some 7 else if x =? 98 then Some 8
   else if x =? 102 then Some 12 else if x =? 110 then Some 10
   else if x =? 114 then Some 13 else if x =? 116 then Some 9
   else if x =? 118 then Some 11 else if x =? 92 then Some 92
   else None)%N.

Definition after (items : re_error + list titem) (x : char)
  : re_error + (list titem * tstate) :=
  match items with
  | inl e => inl e
  | inr its => let '(its', st) := tnormal x in inr (its ++ its', st)
  end.

Definition tstep (ngroups : nat) (st : tstate) (x : char)
  : re_error + (list titem * tstate) :=
  match st with
  | TNormal => inr (tnormal x)
  | TEsc =>
      if (x =? 103)%N then inr ([], TG)
      else if (x =? 48)%N then inr ([], TZero1)
      else if is_ascii_digit x then inr ([], TDig1 x)
      else match escape_of x with
           | Some c => inr ([TChar c], TNormal)
           | None =>
               if is_ascii_letter x then inl (BadEscape x)
               else inr ([TChar backslash; TChar x], TNormal)
           end
  | TG => if (x =? 60)%N then inr ([], TName []) else inl MissingGroupName
  | TName acc =>
      if (x =? 62)%N then
        match acc with
        | [] => inl MissingGroupName
        | _ =>
            if forallb is_ascii_digit acc then
              match addgroup ngroups (decimal acc) with
              | inl e => inl e
              | inr its => inr (its, TNormal)
              end
            else inl (BadGroupName acc)
        end
      else inr ([], TName (acc ++ [x]))
  | TZero1 =>
      if is_ascii_octdigit x then inr ([], TZero2 x)
      else after (inr [TChar 0%N]) x
  | TZero2 d =>
      if is_ascii_octdigit x
      then inr ([TChar (N.land (digit_val d * 8 + digit_val x) 255)], TNormal)
      else after (inr [TChar (digit_val d)]) x
  | TDig1 c =>
      if is_ascii_digit x then
        if is_ascii_octdigit c && is_ascii_octdigit x then inr ([], TDig2 c x)
        else match addgroup ngroups (decimal [c; x]) with
             | inl e => inl e
             | inr its => inr (its, TNormal)
             end
      else after (addgroup ngroups (decimal [c])) x
  | TDig2 c d =>
      if is_ascii_octdigit x then
        let v := (digit_val c * 64 + digit_val d * 8 + digit_val x)%N in
        if (255 <? v)%N then inl (OctalOutOfRange v)
        else inr ([TChar v], TNormal)
      else after (addgroup ngroups (decimal [c; d])) x
  end.

Definition tfinish (ngroups : nat) (st : tstate) : re_error + list titem :=
  match st with
  | TNormal => inr []
  | TEsc => inl BadEscapeEnd
  | TG => inl MissingGroupName
  | TName _ => inl MissingGroupName
  | TZero1 => inr [TChar 0%N]
  | TZero2 d => inr [TChar (digit_val d)]
  | TDig1 c => addgroup ngroups (decimal [c])
  | TDig2 c d => addgroup ngroups (decimal [c; d])
  end.

Fixpoint tparse (ngroups : nat) (st : tstate) (t : text)
  : re_error + list titem :=
  match t with
  | [] => tfinish ngroups st
  | x :: t' =>
      match tstep ngroups st x with
      | inl e => inl e
      | inr (its, st') =>
          match tparse ngroups st' t' with
          | inl e => inl e
          | inr rest => inr (its ++ rest)
          end
      end
  end.

(** [parse_template(repl, pattern)] for a pattern with [ngroups] groups. *)
Definition parse_template (ngroups : nat) (repl : text)
  : re_error + list titem :=
  tparse ngroups TNormal repl.

(** [match.expand]: group 0 is the whole match. *)
Fixpoint expand (its : list titem) (m : rmatch_obj) : text :=
  match its with
  | [] => []
  | TChar c :: its' => c :: expand its' m
  | TGroup 0 :: its' => whole m ++ expand its' m
  | TGroup n :: its' => group (groups m) n ++ expand its' m
  end.

(** [re.sub(pattern, repl, s)] with a string [repl]. *)
Definition sub (r : regex) (ngroups : nat) (repl : text) (s : text)
  : re_error + text :=
  match parse_template ngroups repl with
  | inl e => inl e
  | inr its => inr (sub_fn r (expand its) s)
  end.

End Re.

Import Re.

(* ===================================================================== *)
(** * Files, console and exceptions *)
(* ===================================================================== *)

Module Os.

(** The exceptions the tools can meet: those of [open], [read] and
    [write], the [ValueError] of [load_word_lists] and [re.error]. *)
Inductive exn : Type :=
| FileNotFoundError (path : string)
| UnicodeDecodeError (path : string)
| PermissionError (path : string)
| ValueError (reason : string)
| ReError (e : re_error).

(** What is stored under a path: text that decodes as UTF-8, or bytes
    that do not.  A file is identified with the [str] that [file.read()]
    returns and [file.write] takes. *)
Inductive fdata : Type :=
| Utf8 (t : text)
| NotUtf8.

(** Text mode.  A file opened without [newline=] translates line ends:
    [read] gives LF for CR LF and for a lone CR, [write] puts
    [os.linesep] for LF.  [Utf8 t] is the file as [read] returns it; the
    functions below relate it to the characters on the disk, those the
    UTF-8 decoder yields before the translation and the encoder takes
    after it. *)
Definition cr : char := 13%N.

Fixpoint universal_newlines_from (after_cr : bool) (raw : text) : text :=
  match raw with
  | [] => []
  | c :: raw' =>
      if (c =? cr)%N then newline :: universal_newlines_from true raw'
      else if (c =? newline)%N then
        if after_cr then universal_newlines_from false raw'
        else newline :: universal_newlines_from false raw'
      else c :: universal_newlines_from false raw'
  end.

(** What [file.read()] returns for a file with the characters [raw]. *)
Definition universal_newlines (raw : text) : text :=
  universal_newlines_from false raw.

(** What [file.write(t)] puts on the disk. *)
Definition written (linesep : text) (t : text) : text :=
  flat_map (fun c => if (c =? newline)%N then linesep else [c]) t.

(** One constructor per [print] of the three tools. *)
Inductive message : Type :=
| MsgFileError (filepath : string) (e : exn)
| MsgParenError (filepath : string) (e : exn)
| MsgHyphenError (filepath : string) (e : exn)
| MsgWordListError (e : exn)
| MsgCaseModified (to_lowercase : bool) (name : string) (count : nat)
| MsgDotModified (name : string) (total count1 count2 : nat)
| MsgWordsModified (name : string) (details : list (text * text * nat))
| MsgParenModified (name : string) (count : nat)
| MsgHyphenModified (name : string) (count : nat)
| MsgDebugAnalyse (filepath : string)
| MsgDebugFields (fields : list text)
| MsgDebugCounts (count1 count2 : nat)
| MsgDebugAfter
| MsgDebugNoChange (name : string)
| MsgNoTextGrid (directory : string)
| MsgProcessing (n : nat)
| MsgProcessingCase (n : nat) (to_lowercase : bool)
| MsgSummary (scanned modified : nat)
| MsgTotalCase (to_lowercase : bool) (total : nat)
| MsgTotalDots (total : nat)
| MsgTotalWords (total : nat) (details : list (text * text * nat))
| MsgTotalParens (total : nat)
| MsgTotalHyphens (total : nat)
| MsgCannotContinue
| MsgCorrespondences (pairs : list (text * text))
| MsgInvalidDirectory (directory : string)
| MsgWordFilesTogether
| MsgInvalidFile (path : string)
| MsgNoAction.

(** The system calls, in the order they are made. *)
Inductive event : Type :=
| EvOpenRead (path : string)
| EvOpenWrite (path : string)
| EvExists (path : string)
| EvIsDir (path : string)
| EvIsFile (path : string)
| EvListDir (directory : string) (recursive : bool).

(** The world a tool runs in.  [locked] are the paths [open(.., 'w')]
    refuses; [listing recursive d] is what [os.walk] ([recursive]) or
    [glob.glob] on [d/*.TextGrid] reports. *)
Record world : Type := World {
  files : gmap string fdata;
  locked : gset string;
  dirs : gset string;
  listing : bool -> string -> list string;
  console : list message;
  trace : list event
}.

Definition log (ev : event) (w : world) : world :=
  World (files w) (locked w) (dirs w) (listing w) (console w) (trace w ++ [ev]).

Definition put_line (m : message) (w : world) : world :=
  World (files w) (locked w) (dirs w) (listing w) (console w ++ [m]) (trace w).

Definition store (path : string) (t : text) (w : world) : world :=
  World (<[path := Utf8 t]> (files w)) (locked w) (dirs w) (listing w)
        (console w) (trace w).

(** How a computation ends: with a value, with an exception, or not at
    all (a [while True] that is out of fuel). *)
Inductive outcome (A : Type) : Type :=
| Val (a : A)
| Exc (e : exn)
| Div.
Arguments Val {A} a.
Arguments Exc {A} e.
Arguments Div {A}.

(** Effects made before an exception stay. *)
Definition io (A : Type) : Type := world -> outcome A * world.

Definition ret {A} (a : A) : io A := fun w => (Val a, w).

Definition bind {A B} (c : io A) (f : A -> io B) : io B :=
  fun w =>
    match c w with
    | (Val a, w') => f a w'
    | (Exc e, w') => (Exc e, w')
    | (Div, w') => (Div, w')
    end.

Definition raise {A} (e : exn) : io A := fun w => (Exc e, w).

Definition diverge {A} : io A := fun w => (Div, w).

(** [try: body except Exception as e: handler e] *)
Definition try_except {A} (body : io A) (handler : exn -> io A) : io A :=
  fun w =>
    match body w with
    | (Exc e, w') => handler e w'
    | r => r
    end.

Declare Scope io_scope.
Delimit Scope io_scope with io.
Notation "x <- c ;; k" := (bind c (fun x => k))
  (at level 100, c at next level, right associativity) : io_scope.
Notation "c ;; k" := (bind c (fun _ => k))
  (at level 100, right associativity) : io_scope.

#[local] Open Scope io_scope.

Definition when (b : bool) (c : io unit) : io unit :=
  if b then c else ret tt.

(** [re.sub] raising [re.error] *)
Definition lift_re {A} (r : re_error + A) : io A :=
  match r with
  | inl e => raise (ReError e)
  | inr a => ret a
  end.

(** [with open(path, 'r', encoding='utf-8') as file: file.read()] *)
Definition read_file (path : string) : io text :=
  fun w =>
    let w1 := log (EvOpenRead path) w in
    match files w !! path with
    | None => (Exc (FileNotFoundError path), w1)
    | Some NotUtf8 => (Exc (UnicodeDecodeError path), w1)
    | Some (Utf8 t) => (Val t, w1)
    end.

(** [with open(path, 'w', encoding='utf-8') as file: file.write(t)] *)
Definition write_file (path : string) (t : text) : io unit :=
  fun w =>
    let w1 := log (EvOpenWrite path) w in
    if bool_decide (path ∈ locked w) then (Exc (PermissionError path), w1)
    else (Val tt, store path t w1).

(** [os.path.exists(path)] *)
Definition path_exists (path : string) : io bool :=
  fun w =>
    (Val (bool_decide (is_Some (files w !! path)) || bool_decide (path ∈ dirs w)),
     log (EvExists path) w).

(** [os.path.isdir(path)] *)
Definition isdir (path : string) : io bool :=
  fun w => (Val (bool_decide (path ∈ dirs w)), log (EvIsDir path) w).

(** [os.path.isfile(path)] *)
Definition isfile (path : string) : io bool :=
  fun w => (Val (bool_decide (is_Some (files w !! path))), log (EvIsFile path) w).

Definition print (m : message) : io unit :=
  fun w => (Val tt, put_line m w).

(** The search for [*.TextGrid] files that opens every [process_directory]. *)
Definition find_textgrids (directory : string) (recursive : bool)
  : io (list string) :=
  fun w => (Val (listing w recursive directory), log (EvListDir directory recursive) w).

(** [os.path.basename] *)
Fixpoint basename_from (acc p : string) : string :=
  match p with
  | EmptyString => acc
  | String c p' =>
      if Ascii.eqb c "/" then basename_from EmptyString p'
      else basename_from (acc ++ String c EmptyString) p'
  end.

Definition basename (p : string) : string := basename_from EmptyString p.

(** [filepath + '.bak'] *)
Definition bak (filepath : string) : string := filepath ++ ".bak".

(** The backup step of [case_converter], [space_final_dot],
    [remove_parentheses_content] and [replace_hyphens_underscores]:
    [if backup and not os.path.exists(filepath + '.bak'): write it]. *)
Definition backup_if_absent (backup : bool) (filepath : string) (content : text)
  : io unit :=
  if backup then
    present <- path_exists (bak filepath) ;;
    when (negb present) (write_file (bak filepath) content)
  else ret tt.

End Os.

Import Os.
#[local] Open Scope io_scope.

(** The opening of a text field: [text], [\s*], [=], [\s*] and a double
    quote.  Every pattern of the three tools but the debugging one starts
    with it. *)
Definition field_open : regex :=
  Lit (str "text") ⋅ Star true is_space ⋅ Chr (is_char (ch "="))
  ⋅ Star true is_space ⋅ Chr (is_char quote).

(* ===================================================================== *)
(** * case_converter.py *)
(* ===================================================================== *)

Module CaseConverter.
Section WithCaseTables.
(** [str.lower] and [str.upper]: tables of the Unicode database. *)
Variables str_lower str_upper : text -> text.

(** The pattern of [convert_case_in_textgrid]: the field opening, the
    value as a lazy run of non-quotes, the closing quote. *)
Definition pattern : regex :=
  Group 1 field_open
  ⋅ Group 2 (Star false (not_char quote))
  ⋅ Group 3 (Chr (is_char quote)).

Definition recase (to_lowercase : bool) (t : text) : text :=
  if to_lowercase then str_lower t else str_upper t.

(** [new_text != text] for the value of a match *)
Definition changes (to_lowercase : bool) (m : rmatch_obj) : bool :=
  negb (text_eqb (recase to_lowercase (group (groups m) 2)) (group (groups m) 2)).

Definition case_replace (to_lowercase : bool) (m : rmatch_obj) : text :=
  let before := group (groups m) 1 in
  let text := group (groups m) 2 in
  let after := group (groups m) 3 in
  let new_text := recase to_lowercase text in
  if negb (text_eqb new_text text) then before ++ new_text ++ after
  else whole m.

(** The [for match in re.finditer(..)] loop that counts. *)
Definition count_changes (to_lowercase : bool) (content : text) : nat :=
  length (List.filter (changes to_lowercase) (finditer pattern content)).

(** The [try] block of [convert_case_in_textgrid]. *)
Definition convert_case_block (filepath : string) (to_lowercase backup : bool)
  : io nat :=
  content <- read_file filepath ;;
  backup_if_absent backup filepath content ;;
  let count := count_changes to_lowercase content in
  let modified_content := sub_fn pattern (case_replace to_lowercase) content in
  when (0 <? count)
    (write_file filepath modified_content ;;
     print (MsgCaseModified to_lowercase (basename filepath) count)) ;;
  ret count.

Definition convert_case_in_textgrid (filepath : string)
    (to_lowercase backup : bool) : io nat :=
  try_except (convert_case_block filepath to_lowercase backup)
    (fun e => print (MsgFileError filepath e) ;; ret 0).

(** The [for filepath in textgrid_files] loop of [process_directory]. *)
Fixpoint process_files (textgrid_files : list string)
    (to_lowercase backup : bool) (total_files total_replacements : nat)
  : io (nat * nat) :=
  match textgrid_files with
  | [] => ret (total_files, total_replacements)
  | filepath :: rest =>
      replacements <- convert_case_in_textgrid filepath to_lowercase backup ;;
      if 0 <? replacements
      then process_files rest to_lowercase backup
             (total_files + 1) (total_replacements + replacements)
      else process_files rest to_lowercase backup
             total_files total_replacements
  end.

Definition process_directory (directory_path : string)
    (to_lowercase recursive backup : bool) : io unit :=
  textgrid_files <- find_textgrids directory_path recursive ;;
  match textgrid_files with
  | [] => print (MsgNoTextGrid directory_path)
  | _ =>
      print (MsgProcessingCase (length textgrid_files) to_lowercase) ;;
      totals <- process_files textgrid_files to_lowercase backup 0 0 ;;
      print (MsgSummary (length textgrid_files) (fst totals)) ;;
      print (MsgTotalCase to_lowercase (snd totals))
  end.

Record args : Type := Args {
  directory : string;
  to_uppercase : bool;
  recursive : bool;
  no_backup : bool
}.

(** The [__main__] block from the line after [parser.parse_args()] on,
    for the arguments [a] that it returned; the value is the exit code.
    A command line that argparse refuses ends in [parse_args], with exit
    code 2, before any of this runs. *)
Definition main (a : args) : io nat :=
  ok <- isdir (directory a) ;;
  if negb ok then print (MsgInvalidDirectory (directory a)) ;; ret 1
  else
    process_directory (directory a) (negb (to_uppercase a)) (recursive a)
      (negb (no_backup a)) ;;
    ret 0.
End WithCaseTables.
End CaseConverter.

(* ===================================================================== *)
(** * space_final_dot.py *)
(* ===================================================================== *)

Module SpaceFinalDot.
Section WithAlnumTable.
(** [str.isalnum] beyond ASCII: a table of the Unicode database. *)
Variable alnum_beyond : char -> bool.

Definition word : char -> bool := is_word alnum_beyond.

(** The pattern of [debug_text_field]. *)
Definition pattern_debug : regex :=
  Lit (str "text") ⋅ Star true is_space ⋅ Chr (is_char (ch "="))
  ⋅ Star true is_space ⋅ Chr (is_char quote)
  ⋅ Group 1 (Star true (not_char quote)) ⋅ Chr (is_char quote).

Definition debug_text_field (content : text) : io (list text) :=
  let matches :=
    List.map (fun m => group (groups m) 1) (finditer pattern_debug content) in
  print (MsgDebugFields matches) ;;
  ret matches.

(** [pattern1]: a word character and a period right before the quote. *)
Definition pattern1 : regex :=
  Group 1 (field_open ⋅ Star true is_dot ⋅ Chr word)
  ⋅ Group 2 (Chr (is_char dot))
  ⋅ Group 3 (Chr (is_char quote)).

(** [pattern2]: a word character, a period and white space before the
    quote. *)
Definition pattern2 : regex :=
  Group 1 (field_open ⋅ Star true is_dot ⋅ Chr word)
  ⋅ Group 2 (Chr (is_char dot))
  ⋅ Plus is_space
  ⋅ Group 3 (Chr (is_char quote)).

Definition add_space_before_dot1 (m : rmatch_obj) : text :=
  group (groups m) 1 ++ str " ." ++ group (groups m) 3.

Definition add_space_before_dot2 (m : rmatch_obj) : text :=
  group (groups m) 1 ++ str " ." ++ group (groups m) 3.

(** The two [re.sub] in a row. *)
Definition fixed_content (content : text) : text :=
  sub_fn pattern2 add_space_before_dot2
    (sub_fn pattern1 add_space_before_dot1 content).

(** The [try] block of [fix_space_before_dot]. *)
Definition fix_space_block (filepath : string) (backup debug : bool) : io nat :=
  content <- read_file filepath ;;
  when debug
    (print (MsgDebugAnalyse filepath) ;;
     debug_text_field content ;; ret tt) ;;
  backup_if_absent backup filepath content ;;
  let count1 := findall_len pattern1 content in
  let count2 := findall_len pattern2 content in
  when debug (print (MsgDebugCounts count1 count2)) ;;
  let modified_content := fixed_content content in
  let total_count := count1 + count2 in
  (if negb (text_eqb modified_content content) then
     write_file filepath modified_content ;;
     print (MsgDotModified (basename filepath) total_count count1 count2) ;;
     when debug
       (print MsgDebugAfter ;; debug_text_field modified_content ;; ret tt)
   else
     when debug (print (MsgDebugNoChange (basename filepath)))) ;;
  ret total_count.

Definition fix_space_before_dot (filepath : string) (backup debug : bool)
  : io nat :=
  try_except (fix_space_block filepath backup debug)
    (fun e => print (MsgFileError filepath e) ;; ret 0).

Fixpoint process_files (textgrid_files : list string) (backup debug : bool)
    (total_files total_replacements : nat) : io (nat * nat) :=
  match textgrid_files with
  | [] => ret (total_files, total_replacements)
  | filepath :: rest =>
      replacements <- fix_space_before_dot filepath backup debug ;;
      if 0 <? replacements
      then process_files rest backup debug
             (total_files + 1) (total_replacements + replacements)
      else process_files rest backup debug total_files total_replacements
  end.

Definition process_directory (directory_path : string)
    (recursive backup debug : bool) : io unit :=
  textgrid_files <- find_textgrids directory_path recursive ;;
  match textgrid_files with
  | [] => print (MsgNoTextGrid directory_path)
  | _ =>
      print (MsgProcessing (length textgrid_files)) ;;
      totals <- process_files textgrid_files backup debug 0 0 ;;
      print (MsgSummary (length textgrid_files) (fst totals)) ;;
      print (MsgTotalDots (snd totals))
  end.

Record args : Type := Args {
  directory : string;
  recursive : bool;
  no_backup : bool;
  debug : bool
}.

(** The [__main__] block after [parser.parse_args()], as in
    [case_converter.py]. *)
Definition main (a : args) : io nat :=
  ok <- isdir (directory a) ;;
  if negb ok then print (MsgInvalidDirectory (directory a)) ;; ret 1
  else
    process_directory (directory a) (recursive a) (negb (no_backup a))
      (debug a) ;;
    ret 0.
End WithAlnumTable.
End SpaceFinalDot.

(* ===================================================================== *)
(** * textgrid_word_replace.py *)
(* ===================================================================== *)

Module WordReplace.

(** A Python [dict] with [str] keys: the keys in insertion order, each
    once. *)
Definition dict (V : Type) : Type := list (text * V).

(** [d[k] = v] *)
Fixpoint dict_set {V} (k : text) (v : V) (d : dict V) : dict V :=
  match d with
  | [] => [(k, v)]
  | (k', v') :: d' =>
      if text_eqb k' k then (k', v) :: d' else (k', v') :: dict_set k v d'
  end.

(** [dict(pairs)] *)
Definition dict_of {V} (pairs : list (text * V)) : dict V :=
  fold_left (fun d kv => dict_set (fst kv) (snd kv) d) pairs [].

(** [{word: 0 for word in word_map}] *)
Definition zero_stats (word_map : dict text) : dict nat :=
  List.map (fun kv => (fst kv, 0)) word_map.

(** [sum(d.values())] *)
Definition sum_values (d : dict nat) : nat :=
  fold_right (fun kv acc => snd kv + acc) 0 d.

(** [d[k] += n] for a key that is present *)
Fixpoint dict_add (k : text) (n : nat) (d : dict nat) : dict nat :=
  match d with
  | [] => []
  | (k', v') :: d' =>
      if text_eqb k' k then (k', v' + n) :: d' else (k', v') :: dict_add k n d'
  end.

(** [[line.strip() for line in file if line.strip()]] *)
Definition stripped_lines (content : text) : list text :=
  List.filter (fun l => negb (text_eqb l [])) (List.map strip (lines content)).

(** The [ValueError] of [load_word_lists]. *)
Definition length_mismatch : exn :=
  ValueError
    "Les fichiers de mots incorrects et corrects doivent contenir le même nombre de lignes".

Definition load_word_lists (wrong_words_file correct_words_file : string)
  : io (dict text) :=
  try_except
    (wrong_content <- read_file wrong_words_file ;;
     let wrong_words := stripped_lines wrong_content in
     correct_content <- read_file correct_words_file ;;
     let correct_words := stripped_lines correct_content in
     if negb (length wrong_words =? length correct_words) then
       raise length_mismatch
     else
       ret (dict_of (combine wrong_words correct_words)))
    (fun e => print (MsgWordListError e) ;; ret []).

(** The pattern built for one wrong word: the field opening, the escaped
    word, the closing quote. *)
Definition word_pattern (wrong_word : text) : regex :=
  Group 1 field_open ⋅ Lit wrong_word ⋅ Group 2 (Chr (is_char quote)).

(** [r'\1' + correct_word + r'\2'] *)
Definition replacement (correct_word : text) : text :=
  str "\1" ++ correct_word ++ str "\2".

(** The [for wrong_word, correct_word in word_map.items()] loop. *)
Fixpoint replace_words (items : list (text * text)) (replacements_stats : dict nat)
    (modified_content : text) : re_error + (dict nat * text) :=
  match items with
  | [] => inr (replacements_stats, modified_content)
  | (wrong_word, correct_word) :: rest =>
      let pattern := word_pattern wrong_word in
      let count := findall_len pattern modified_content in
      let replacements_stats := dict_set wrong_word count replacements_stats in
      match sub pattern 2 (replacement correct_word) modified_content with
      | inl e => inl e
      | inr modified_content => replace_words rest replacements_stats modified_content
      end
  end.

(** The lines printed under [Modifié: name]: the words replaced at least
    once. *)
Definition details (word_map : dict text) (stats : dict nat)
  : list (text * text * nat) :=
  flat_map
    (fun wc =>
       if 0 <? snd wc
       then [(fst wc,
              match find (fun kv => text_eqb (fst kv) (fst wc)) word_map with
              | Some kv => snd kv
              | None => []
              end,
              snd wc)]
       else [])
    stats.

(** The [try] block of [correct_words_in_textgrid]. *)
Definition correct_words_block (filepath : string) (word_map : dict text)
    (backup : bool) : io (dict nat) :=
  content <- read_file filepath ;;
  when backup (write_file (bak filepath) content) ;;
  let replacements_stats := zero_stats word_map in
  result <- lift_re (replace_words word_map replacements_stats content) ;;
  let replacements_stats := fst result in
  let modified_content := snd result in
  let total_replacements := sum_values replacements_stats in
  when (0 <? total_replacements)
    (write_file filepath modified_content ;;
     print (MsgWordsModified (basename filepath) (details word_map replacements_stats))) ;;
  ret replacements_stats.

Definition correct_words_in_textgrid (filepath : string) (word_map : dict text)
    (backup : bool) : io (dict nat) :=
  try_except (correct_words_block filepath word_map backup)
    (fun e => print (MsgFileError filepath e) ;; ret (zero_stats word_map)).

(** The pattern of [remove_parentheses_content]. *)
Definition paren_pattern : regex :=
  Group 1 (field_open
           ⋅ Star true (fun c => not_char quote c && not_char lparen c))
  ⋅ Chr (is_char lparen)
  ⋅ Star true (not_char rparen)
  ⋅ Chr (is_char rparen)
  ⋅ Group 2 (Star true (not_char quote) ⋅ Chr (is_char quote)).

Definition remove_parentheses_block (filepath : string) (backup : bool) : io nat :=
  content <- read_file filepath ;;
  backup_if_absent backup filepath content ;;
  let count := findall_len paren_pattern content in
  modified_content <- lift_re (sub paren_pattern 2 (str "\1\2") content) ;;
  when (0 <? count)
    (write_file filepath modified_content ;;
     print (MsgParenModified (basename filepath) count)) ;;
  ret count.

Definition remove_parentheses_content (filepath : string) (backup : bool) : io nat :=
  try_except (remove_parentheses_block filepath backup)
    (fun e => print (MsgParenError filepath e) ;; ret 0).

(** [pattern_hyphen], also the pattern of the two counting [findall]. *)
Definition pattern_hyphen : regex :=
  Group 1 (field_open ⋅ Star true (not_char quote))
  ⋅ Chr (fun c => is_char underscore c || is_char hyphen c)
  ⋅ Group 2 (Star true (not_char quote) ⋅ Chr (is_char quote)).

(** The [while True] loop of [replace_hyphens_underscores]; it diverges
    when [fuel] passes are not enough. *)
Fixpoint fold_hyphens (fuel : nat) (modified_content : text) : io text :=
  match fuel with
  | 0 => diverge
  | S fuel' =>
      temp_content <- lift_re (sub pattern_hyphen 2 (str "\1 \2") modified_content) ;;
      if text_eqb temp_content modified_content then ret modified_content
      else fold_hyphens fuel' temp_content
  end.

(** The [try] block of [replace_hyphens_underscores].  The loop is given
    one pass more than the text has characters. *)
Definition replace_hyphens_block (filepath : string) (backup : bool) : io Z :=
  content <- read_file filepath ;;
  backup_if_absent backup filepath content ;;
  let occurrences := findall_len pattern_hyphen content in
  modified_content <- fold_hyphens (S (length content)) content ;;
  let remaining := findall_len pattern_hyphen modified_content in
  let count := (Z.of_nat occurrences - Z.of_nat remaining)%Z in
  when (0 <? count)%Z
    (write_file filepath modified_content ;;
     print (MsgHyphenModified (basename filepath) (Z.to_nat count))) ;;
  ret count.

Definition replace_hyphens_underscores (filepath : string) (backup : bool) : io Z :=
  try_except (replace_hyphens_block filepath backup)
    (fun e => print (MsgHyphenError filepath e) ;; ret 0%Z).

(** The accumulators of [process_directory]. *)
Record totals : Type := Totals {
  total_files : nat;
  total_replacements : nat;
  total_parentheses_removed : nat;
  total_hyphens_replaced : Z;
  word_totals : dict nat
}.

(** [for word, count in replacements_stats.items(): word_totals[word] += count] *)
Definition add_stats (stats : dict nat) (word_totals : dict nat) : dict nat :=
  fold_left (fun wt kv => dict_add (fst kv) (snd kv) wt) stats word_totals.

(** One turn of the [for filepath in textgrid_files] loop. *)
Definition process_file (filepath : string) (word_map : dict text)
    (backup remove_parentheses replace_hyphens : bool) (t : totals) : io totals :=
  let file_modified := false in
  r1 <- match word_map with
        | [] => ret (file_modified, t)
        | _ =>
            replacements_stats <- correct_words_in_textgrid filepath word_map backup ;;
            let file_total := sum_values replacements_stats in
            if 0 <? file_total then
              ret (true,
                   Totals (total_files t) (total_replacements t + file_total)
                     (total_parentheses_removed t) (total_hyphens_replaced t)
                     (add_stats replacements_stats (word_totals t)))
            else ret (file_modified, t)
        end ;;
  r2 <- (let '(file_modified, t) := r1 in
         if remove_parentheses then
           parentheses_removed <- remove_parentheses_content filepath backup ;;
           if 0 <? parentheses_removed then
             ret (true,
                  Totals (total_files t) (total_replacements t)
                    (total_parentheses_removed t + parentheses_removed)
                    (total_hyphens_replaced t) (word_totals t))
           else ret (file_modified, t)
         else ret (file_modified, t)) ;;
  r3 <- (let '(file_modified, t) := r2 in
         if replace_hyphens then
           hyphens_replaced <- replace_hyphens_underscores filepath backup ;;
           if (0 <? hyphens_replaced)%Z then
             ret (true,
                  Totals (total_files t) (total_replacements t)
                    (total_parentheses_removed t)
                    (total_hyphens_replaced t + hyphens_replaced)%Z (word_totals t))
           else ret (file_modified, t)
         else ret (file_modified, t)) ;;
  let '(file_modified, t) := r3 in
  if file_modified : bool then
    ret (Totals (total_files t + 1) (total_replacements t)
           (total_parentheses_removed t) (total_hyphens_replaced t) (word_totals t))
  else ret t.

Fixpoint process_files (textgrid_files : list string) (word_map : dict text)
    (backup remove_parentheses replace_hyphens : bool) (t : totals) : io totals :=
  match textgrid_files with
  | [] => ret t
  | filepath :: rest =>
      t' <- process_file filepath word_map backup remove_parentheses replace_hyphens t ;;
      process_files rest word_map backup remove_parentheses replace_hyphens t'
  end.

(** The truth value of an optional command-line string. *)
Definition given (o : option string) : bool :=
  match o with
  | Some s => negb (String.eqb s EmptyString)
  | None => false
  end.

Definition path_of (o : option string) : string :=
  match o with
  | Some s => s
  | None => EmptyString
  end.

Definition is_empty {V} (d : dict V) : bool :=
  match d with
  | [] => true
  | _ => false
  end.

(** The first part of [process_directory]: the word lists.  [None] is the
    early [return]. *)
Definition load_step (wrong_words_file correct_words_file : option string)
    (remove_parentheses replace_hyphens : bool) : io (option (dict text)) :=
  if given wrong_words_file && given correct_words_file then
    word_map <- load_word_lists (path_of wrong_words_file) (path_of correct_words_file) ;;
    if is_empty word_map && negb remove_parentheses && negb replace_hyphens then
      print MsgCannotContinue ;; ret None
    else
      print (MsgCorrespondences word_map) ;; ret (Some word_map)
  else ret (Some []).

(** The second part of [process_directory]: the search for the files,
    the loop and the summary. *)
Definition process_loaded (directory_path : string) (word_map : dict text)
    (recursive backup remove_parentheses replace_hyphens : bool) : io unit :=
  textgrid_files <- find_textgrids directory_path recursive ;;
  match textgrid_files with
  | [] => print (MsgNoTextGrid directory_path)
  | _ =>
      print (MsgProcessing (length textgrid_files)) ;;
      t <- process_files textgrid_files word_map backup remove_parentheses
             replace_hyphens (Totals 0 0 0 0%Z (zero_stats word_map)) ;;
      print (MsgSummary (length textgrid_files) (total_files t)) ;;
      when (negb (is_empty word_map))
        (print (MsgTotalWords (total_replacements t)
                  (if 0 <? total_replacements t
                   then details word_map (word_totals t) else []))) ;;
      when remove_parentheses
        (print (MsgTotalParens (total_parentheses_removed t))) ;;
      when replace_hyphens
        (print (MsgTotalHyphens (Z.to_nat (total_hyphens_replaced t))))
  end.

Definition process_directory (directory_path : string)
    (wrong_words_file correct_words_file : option string)
    (recursive backup remove_parentheses replace_hyphens : bool) : io unit :=
  loaded <- load_step wrong_words_file correct_words_file
              remove_parentheses replace_hyphens ;;
  match loaded with
  | None => ret tt
  | Some word_map =>
      process_loaded directory_path word_map recursive backup
        remove_parentheses replace_hyphens
  end.

Record args : Type := Args {
  directory : string;
  wrong_words : option string;
  correct_words : option string;
  recursive : bool;
  no_backup : bool;
  remove_parentheses : bool;
  replace_hyphens : bool
}.

(** The [__main__] block after [parser.parse_args()]; the value is the
    exit code, 0 when the block runs to its end. *)
Definition main (a : args) : io nat :=
  ok <- isdir (directory a) ;;
  if negb ok then print (MsgInvalidDirectory (directory a)) ;; ret 1
  else if given (wrong_words a) && negb (given (correct_words a))
          || negb (given (wrong_words a)) && given (correct_words a)
  then print MsgWordFilesTogether ;; ret 1
  else
    wrong_ok <- (if given (wrong_words a) then isfile (path_of (wrong_words a))
                 else ret true) ;;
    if negb wrong_ok then print (MsgInvalidFile (path_of (wrong_words a))) ;; ret 1
    else
      correct_ok <- (if given (correct_words a) then isfile (path_of (correct_words a))
                     else ret true) ;;
      if negb correct_ok then print (MsgInvalidFile (path_of (correct_words a))) ;; ret 1
      else if negb (given (wrong_words a)) && negb (remove_parentheses a)
              && negb (replace_hyphens a)
      then print MsgNoAction ;; ret 1
      else
        process_directory (directory a) (wrong_words a) (correct_words a)
          (recursive a) (negb (no_backup a)) (remove_parentheses a)
          (replace_hyphens a) ;;
        ret 0.

End WordReplace.

(* ===================================================================== *)
(** * The vocabulary of the statements *)
(* ===================================================================== *)

(** What a pattern denotes: the strings it matches, with the groups it
    closes on the way. *)
Inductive den : regex -> text -> caps -> caps -> Prop :=
| den_eps cs : den Eps [] cs cs
| den_chr p c cs : p c = true -> den (Chr p) [c] cs cs
| den_seq a b w1 w2 c0 c1 c2 :
    den a w1 c0 c1 -> den b w2 c1 c2 -> den (Seq a b) (w1 ++ w2) c0 c2
| den_star g p w cs : forallb p w = true -> den (Star g p) w cs cs
| den_group n a w c0 c1 :
    den a w c0 c1 -> den (Group n a) w c0 ((n, w) :: c1).

Create HintDb re.

#[local] Hint Constructors den : re.

(** The same without groups. *)
Fixpoint lang (r : regex) (w : text) : Prop :=
  match r with
  | Eps => w = []
  | Chr p => exists c, w = [c] /\ p c = true
  | Seq a b => exists w1 w2, w = w1 ++ w2 /\ lang a w1 /\ lang b w2
  | Star _ p => forallb p w = true
  | Group _ a => lang a w
  end.

(** The least length of a match. *)
Fixpoint min_len (r : regex) : nat :=
  match r with
  | Eps => 0
  | Chr _ => 1
  | Seq a b => min_len a + min_len b
  | Star _ _ => 0
  | Group _ a => min_len a
  end.

(** The cut of a text into gaps and hits that [scan] computes. *)
Inductive tiling (r : regex) : text -> list piece -> Prop :=
| tiling_nil : tiling r [] []
| tiling_gap c s ps :
    match_here r (c :: s) = None ->
    tiling r s ps -> tiling r (c :: s) (Gap c :: ps)
| tiling_hit m s ps :
    match_here r (whole m ++ s) = Some m -> whole m <> [] ->
    tiling r s ps -> tiling r (whole m ++ s) (Hit m :: ps).

(** The opening of a text field, as a property of strings. *)
Definition is_field_open (o : text) : Prop :=
  exists ws1 ws2,
    o = str "text" ++ ws1 ++ [ch "="] ++ ws2 ++ [quote]
    /\ forallb is_space ws1 = true /\ forallb is_space ws2 = true.

Definition is_hu (c : char) : bool := is_char underscore c || is_char hyphen c.

Definition count_hu (s : text) : nat := length (List.filter is_hu s).

(** [b] is [a] with some hyphens and underscores turned into spaces. *)
Definition folded (a b : text) : Prop :=
  Forall2 (fun x y => x = y \/ (is_hu x = true /\ y = space)) a b.

(** What [\1 \2] expands to. *)
Definition hyphen_repl (m : rmatch_obj) : text :=
  group (groups m) 1 ++ space :: group (groups m) 2.

(** [v] is the value of a text field of [content]: it stands between a
    field opening and the next double quote. *)
Definition field_value (content v : text) : Prop :=
  exists pre o post,
    content = pre ++ o ++ v ++ quote :: post
    /\ is_field_open o /\ forallb (not_char quote) v = true.

Definition terminates {A} (c : io A) : Prop := forall w, fst (c w) <> Div.

(** [c] always ends with a value: no exception leaves it. *)
Definition returns {A} (c : io A) : Prop := forall w, exists a w', c w = (Val a, w').

(** A field as the TextGrid files write it. *)
Definition text_field (v : text) : text := str "text = " ++ quote :: v ++ [quote].

(** A world with one TextGrid file and nothing else. *)
Definition one_file (fp : string) (content : text) : world :=
  World {[ fp := Utf8 content ]} ∅ ∅ (fun _ _ => [fp]) [] [].

(** After [op], the backup of [fp] is what it was before, or it holds the
    content [op] found in [fp]. *)
Definition backup_is_copy {A} (op : io A) (fp : string) : Prop :=
  forall w,
    files (snd (op w)) !! bak fp = files w !! bak fp
    \/ exists content,
         files w !! fp = Some (Utf8 content)
         /\ files (snd (op w)) !! bak fp = Some (Utf8 content).

(** [op] on [fp], with backups on and no backup there yet: the backup is
    written right after the file is read, whatever [op] does next. *)
Definition creates_backup {A} (op : io A) (fp : string) : Prop :=
  forall w content,
    files w !! fp = Some (Utf8 content) ->
    files w !! bak fp = None -> bak fp ∉ dirs w -> bak fp ∉ locked w ->
    files (snd (op w)) !! bak fp = Some (Utf8 content)
    /\ exists rest,
         trace (snd (op w))
         = trace w ++ [EvOpenRead fp; EvExists (bak fp); EvOpenWrite (bak fp)] ++ rest.

(** [op] on [fp], with backups on: the backup is written right after the
    file is read, over whatever was there. *)
Definition overwrites_backup {A} (op : io A) (fp : string) : Prop :=
  forall w content,
    files w !! fp = Some (Utf8 content) -> bak fp ∉ locked w ->
    files (snd (op w)) !! bak fp = Some (Utf8 content)
    /\ exists rest,
         trace (snd (op w)) = trace w ++ [EvOpenRead fp; EvOpenWrite (bak fp)] ++ rest.

(** A TextGrid file with a backup from an earlier run. *)
Definition file_with_backup (fp : string) (content old : text) : world :=
  World {[ fp := Utf8 content; bak fp := Utf8 old ]} ∅ ∅ (fun _ _ => [fp]) [] [].

(** [op] is [try: block except Exception as e: print(report e); return zero]:
    it always returns, and when [block] raises it reports and returns
    [zero], keeping the effects made before the exception. *)
Definition caught_locally {A} (op block : io A) (zero : A)
    (report : exn -> message) : Prop :=
  returns op
  /\ forall w e w1,
       block w = (Exc e, w1) -> op w = (Val zero, put_line (report e) w1).

(** A file that cannot be read: missing, or not UTF-8. *)
Definition unreadable (w : world) (fp : string) : Prop :=
  forall content, files w !! fp <> Some (Utf8 content).

(** A correct word that [re.sub] takes literally after [\1]: no
    backslash in it, and no digit at its start. *)
Definition plain_word (c : text) : bool :=
  forallb (not_char backslash) c
  && match c with
     | x :: _ => negb (is_ascii_digit x)
     | [] => true
     end.

(** [b] is [a] with some fields whose whole value is [wrong] rewritten;
    every other character stays.  [wrong] holds no double quote, so that
    it is the value of such a field, from quote to quote.  When [correct]
    is a plain word, the field is rewritten to the same field with the
    value [correct]. *)
Inductive exact_rewrite (wrong correct : text) : text -> text -> Prop :=
| er_nil : exact_rewrite wrong correct [] []
| er_keep c s s' :
    exact_rewrite wrong correct s s' ->
    exact_rewrite wrong correct (c :: s) (c :: s')
| er_swap o new s s' :
    is_field_open o -> forallb (not_char quote) wrong = true ->
    (plain_word correct = true -> new = o ++ correct ++ [quote]) ->
    exact_rewrite wrong correct s s' ->
    exact_rewrite wrong correct (o ++ wrong ++ quote :: s) (new ++ s').

(** The rewriting of one pair after the other, in the order of the map. *)
Inductive rewrite_chain : list (text * text) -> text -> text -> Prop :=
| rc_nil s : rewrite_chain [] s s
| rc_cons wrong correct rest a b c :
    exact_rewrite wrong correct a b -> rewrite_chain rest b c ->
    rewrite_chain ((wrong, correct) :: rest) a c.

(** No wrong word of the map holds a double quote. *)
Definition quote_free_words (word_map : WordReplace.dict text) : bool :=
  forallb (fun kv => forallb (not_char quote) (fst kv)) word_map.

(** A wrong word with two double quotes in it: le, a quote, a space, the
    opening of a field, la. *)
Definition le_quote_la : text :=
  str "le" ++ quote :: str " text = " ++ quote :: str "la".

(** What [\1\2] expands to. *)
Definition paren_repl (m : rmatch_obj) : text :=
  group (groups m) 1 ++ group (groups m) 2.

(** [b] has a space where [a] has its first difference, a period. *)
Definition dot_to_space (a b : text) : Prop :=
  exists p t t', a = p ++ dot :: t /\ b = p ++ space :: t'.

(** The run of [op] from [w] returns [zero] and does not open [fp] for
    writing. *)
Definition leaves_unwritten {A} (op : io A) (fp : string) (zero : A) (w : world)
  : Prop :=
  fst (op w) = Val zero
  /\ files (snd (op w)) !! fp = files w !! fp
  /\ forall evs, trace (snd (op w)) = trace w ++ evs -> ~ In (EvOpenWrite fp) evs.

(** [str.lower] on ASCII, for examples. *)
Definition ascii_lower (t : text) : text :=
  List.map (fun c => if ((65 <=? c) && (c <=? 90))%N then (c + 32)%N else c) t.

Definition ascii_upper (t : text) : text :=
  List.map (fun c => if ((97 <=? c) && (c <=? 122))%N then (c - 32)%N else c) t.

(** The command line names two readable word lists whose numbers of
    non-empty lines differ, and a directory that exists. *)
Definition lists_mismatch (w : world) (a : WordReplace.args)
    (ww cw : string) : Prop :=
  WordReplace.directory a ∈ dirs w
  /\ WordReplace.wrong_words a = Some ww /\ WordReplace.correct_words a = Some cw
  /\ ww <> EmptyString /\ cw <> EmptyString
  /\ exists wrong_content correct_content,
       files w !! ww = Some (Utf8 wrong_content)
       /\ files w !! cw = Some (Utf8 correct_content)
       /\ length (WordReplace.stripped_lines wrong_content)
          <> length (WordReplace.stripped_lines correct_content).

(** The world after the checks of [__main__] and the failed load: the
    error is on the console, and the system calls are the three checks
    and the two reads of the word lists. *)
Definition after_failed_load (w : world) (a : WordReplace.args)
    (ww cw : string) : world :=
  put_line (MsgWordListError WordReplace.length_mismatch)
    (log (EvOpenRead cw) (log (EvOpenRead ww)
       (log (EvIsFile cw) (log (EvIsFile ww)
          (log (EvIsDir (WordReplace.directory a)) w))))).

(** A directory with one TextGrid file, and two word lists of two lines
    and of one. *)
Definition mismatch_world : world :=
  World {[ "w.txt" := Utf8 (str "a" ++ newline :: str "b");
           "c.txt" := Utf8 (str "x");
           "d/a.TextGrid" := Utf8 (text_field (str "id(le)")) ]}
        ∅ {[ "d" ]} (fun _ _ => ["d/a.TextGrid"]) [] [].

Definition mismatch_args (remove_parentheses : bool) : WordReplace.args :=
  WordReplace.Args "d" (Some "w.txt") (Some "c.txt") false true
    remove_parentheses false.

(** A text that starts with a field opening. *)
Definition opens_at (s : text) : Prop :=
  exists o r, is_field_open o /\ s = o ++ r.

(** [text], white space, [=], white space and the opening quote. *)
Definition field_opening (ws1 ws2 : text) : text :=
  str "text" ++ ws1 ++ [ch "="] ++ ws2 ++ [quote].

(** No character beyond ASCII counts as a word character: enough for
    examples in ASCII. *)
Definition ascii_only : char -> bool := fun _ => false.

(** ** Writes, exit codes, backups and word lists *)

(** [w'] comes from [w] by system calls that open for writing paths in
    [P] only: every other file is as it was, and so are the directories,
    the locks and the listings. *)
Definition writes_within (P : string -> Prop) (w w' : world) : Prop :=
  locked w' = locked w /\ dirs w' = dirs w /\ listing w' = listing w
  /\ (forall p, ~ P p -> files w' !! p = files w !! p)
  /\ exists evs, trace w' = trace w ++ evs
                 /\ forall p, In (EvOpenWrite p) evs -> P p.

(** Every run of [c] writes within [P]. *)
Definition confined {A} (c : io A) (P : string -> Prop) : Prop :=
  forall w, writes_within P w (snd (c w)).

(** The paths a per-file operation may write. *)
Definition file_and_backup (backup : bool) (fp : string) (p : string) : Prop :=
  p = fp \/ (backup = true /\ p = bak fp).

(** The paths a loop over [fps] may write. *)
Definition files_and_backups (backup : bool) (fps : list string) (p : string)
  : Prop :=
  exists f, In f fps /\ file_and_backup backup f p.

(** The paths a tool may write: the TextGrid files it finds in its
    directory and, with backups on, their backups. *)
Definition found_files (w : world) (recursive backup : bool) (directory : string)
  : string -> Prop :=
  files_and_backups backup (listing w recursive directory).



(** A backup of [fp] is there already: as a file, or as a directory of
    that name. *)
Definition has_backup (w : world) (fp : string) : Prop :=
  is_Some (files w !! bak fp) \/ bak fp ∈ dirs w.

(** The run of [op] from [w] does not open [p] for writing, and leaves
    it as it is. *)
Definition never_writes {A} (op : io A) (p : string) (w : world) : Prop :=
  files (snd (op w)) !! p = files w !! p
  /\ forall evs, trace (snd (op w)) = trace w ++ evs -> ~ In (EvOpenWrite p) evs.

(** When [block] ends with an exception, [fp] is as it was. *)
Definition fails_clean {A} (block : io A) (fp : string) : Prop :=
  forall w e w1, block w = (Exc e, w1) -> files w1 !! fp = files w !! fp.

(** After [op], [fp] is as it was or there is a backup of it. *)
Definition changes_with_backup {A} (op : io A) (fp : string) : Prop :=
  forall w,
    files (snd (op w)) !! fp = files w !! fp \/ has_backup (snd (op w)) fp.

(** The exceptions an operation on [fp] can end its [try] block with:
    [open] refuses the file or its backup, the file is not UTF-8, or
    [re.sub] refuses a replacement.  A failure of [write] or [close]
    after [open(.., 'w')] has emptied the file is not among them: the
    file system of this development has none. *)
Definition open_or_sub_error (fp : string) (e : exn) : Prop :=
  e = FileNotFoundError fp \/ e = UnicodeDecodeError fp
  \/ e = PermissionError fp \/ e = PermissionError (bak fp)
  \/ exists r, e = ReError r.

(** [block] ends with no other exception than these. *)
Definition fails_at_open_or_sub {A} (block : io A) (fp : string) : Prop :=
  forall w e w1, block w = (Exc e, w1) -> open_or_sub_error fp e.

(** [str.lower] and [str.upper] never make a double quote: a value
    without one has none after the conversion. *)
Definition keeps_quote_free (g : text -> text) : Prop :=
  forall v, forallb (not_char quote) v = true -> forallb (not_char quote) (g v) = true.

(** The value of a match of the case pattern: [match.group(2)]. *)
Definition value_of (m : rmatch_obj) : text := group (groups m) 2.

(** [op], the [try] around [block], leaves [fp] as it was whenever
    [block] ends with an exception. *)
Definition error_keeps_file {A} (op block : io A) (fp : string) : Prop :=
  forall w e w1,
    block w = (Exc e, w1) -> files (snd (op w)) !! fp = files w !! fp.

(** The number of double quotes of a text. *)
Definition count_quotes (s : text) : nat := length (List.filter (is_char quote) s).

(** A correction that starts with a digit and is read, after [\1], as
    the second digit of a group number: every digit but an octal digit
    followed by another octal digit. *)
Definition reads_as_group (correct_word : text) : bool :=
  match correct_word with
  | d :: rest =>
      is_ascii_digit d
      && negb (is_ascii_octdigit d
               && match rest with
                  | x :: _ => is_ascii_octdigit x
                  | [] => false
                  end)
  | [] => false
  end.

(** The group number that [\1] and the first digit of the correction
    make. *)
Definition group_read (correct_word : text) : nat :=
  match correct_word with
  | d :: _ => decimal [ch "1"; d]
  | [] => 1
  end.

(** The character that [\1] followed by the octal digits [d] and [x]
    stands for. *)
Definition octal_char (d x : char) : char :=
  (64 + digit_val d * 8 + digit_val x)%N.


(** The three counts of the word tool taken together. *)
Definition changes_counted (t : WordReplace.totals) : Z :=
  (Z.of_nat (WordReplace.total_replacements t)
   + Z.of_nat (WordReplace.total_parentheses_removed t)
   + WordReplace.total_hyphens_replaced t)%Z.

(** Two worlds that differ in nothing but the console. *)
Definition same_but_console (w1 w2 : world) : Prop :=
  files w1 = files w2 /\ locked w1 = locked w2 /\ dirs w1 = dirs w2
  /\ listing w1 = listing w2 /\ trace w1 = trace w2.

(** [c1] and [c2] do the same but for what they print. *)
Definition agree {A} (c1 c2 : io A) : Prop :=
  forall w1 w2,
    same_but_console w1 w2 ->
    fst (c1 w1) = fst (c2 w2) /\ same_but_console (snd (c1 w1)) (snd (c2 w2)).

(** [d.get(k)] *)
Definition dict_get {V} (k : text) (d : WordReplace.dict V) : option V :=
  option_map snd (find (fun kv => text_eqb (fst kv) k) d).

(** A word as [load_word_lists] keeps it: not empty, no white space at
    either end, no line break in it. *)
Definition clean_word (l : text) : Prop :=
  l <> []
  /\ (forall c rest, l = c :: rest -> is_space c = false)
  /\ (forall front c, l = front ++ [c] -> is_space c = false)
  /\ ~ In newline l.

(** The characters of a text that are no white space, in their order. *)
Definition ink (s : text) : text := List.filter (fun c => negb (is_space c)) s.

(** [b] is [a] with the values of some text fields converted by [g]:
    every character outside these values stays, field openings and
    closing quotes included. *)
Inductive values_converted (g : text -> text) : text -> text -> Prop :=
| vc_nil : values_converted g [] []
| vc_keep c s s' :
    values_converted g s s' -> values_converted g (c :: s) (c :: s')
| vc_field o v s s' :
    is_field_open o -> forallb (not_char quote) v = true ->
    values_converted g s s' ->
    values_converted g (o ++ v ++ quote :: s) (o ++ g v ++ quote :: s').



(** ** Line ends on the disk, the rest of a line, changed matches and
       the turns of the word tool *)

(** The file under [fp] has the characters [raw] on the disk. *)
Definition holds_on_disk (w : world) (fp : string) (raw : text) : Prop :=
  files w !! fp = Some (Utf8 (universal_newlines raw)).

(** The characters that the backup of [fp], written in this run, has on
    the disk of a system whose line end is [linesep]. *)
Definition backup_on_disk (linesep : text) (w : world) (fp : string) : option text :=
  match files w !! bak fp with
  | Some (Utf8 t) => Some (written linesep t)
  | _ => None
  end.

(** [op] on a file with the characters [raw], with backups on and the
    backup path free: the backup gets what [read] made of [raw], written
    with the line end of the system. *)
Definition backup_is_reencoded {A} (op : io A) (fp : string) : Prop :=
  forall linesep w raw,
    holds_on_disk w fp raw ->
    files w !! bak fp = None -> bak fp ∉ dirs w -> bak fp ∉ locked w ->
    backup_on_disk linesep (snd (op w)) fp
    = Some (written linesep (universal_newlines raw)).

(** A file of one line that ends in CR LF, and nothing else. *)
Definition crlf_file (fp : string) : world :=
  one_file fp (universal_newlines (str "A" ++ [cr; newline])).

(** White space or none, then a double quote. *)
Fixpoint quote_after_spaces (s : text) : bool :=
  match s with
  | [] => false
  | c :: s' => (c =? quote)%N || (is_space c && quote_after_spaces s')
  end.

(** Further on the line that [s] starts, a word character and a period
    stand before white space or none and a double quote: a place where
    [.*\w\.] of either pattern of the spacing fix can end as well. *)
Fixpoint ends_later (alnum_beyond : char -> bool) (s : text) : bool :=
  match s with
  | [] => false
  | c :: s' =>
      is_dot c
      && ((is_word alnum_beyond c
           && match s' with
              | d :: s'' => (d =? dot)%N && quote_after_spaces s''
              | [] => false
              end)
          || ends_later alnum_beyond s')
  end.




(** The totals after one turn of the loop of the word tool, from what
    the three operations returned for the file: [stats] from word
    replacement, [n] from parenthesis stripping, [h] from hyphen folding,
    each zero for an operation that was not asked for. *)
Definition turn_totals (t : WordReplace.totals) (stats : WordReplace.dict nat)
    (n : nat) (h : Z) : WordReplace.totals :=
  let file_total := WordReplace.sum_values stats in
  WordReplace.Totals
    (WordReplace.total_files t
     + (if (0 <? file_total) || (0 <? n) || (0 <? h)%Z then 1 else 0))
    (WordReplace.total_replacements t + file_total)
    (WordReplace.total_parentheses_removed t + n)
    (if (0 <? h)%Z then (WordReplace.total_hyphens_replaced t + h)%Z
     else WordReplace.total_hyphens_replaced t)
    (if 0 <? file_total
     then WordReplace.add_stats stats (WordReplace.word_totals t)
     else WordReplace.word_totals t).

(** One turn of the loop of the word tool on [fp], step by step: the
    three operations run one after the other, each in the world the one
    before left, and return [stats], [n] and [h]; the turn ends in [w3]
    with the totals [turn_totals t stats n h]. *)
Definition turn_of (fp : string) (word_map : WordReplace.dict text)
    (backup remove_parentheses replace_hyphens : bool)
    (t : WordReplace.totals) (w : world)
    (stats : WordReplace.dict nat) (n : nat) (h : Z) (w1 w2 w3 : world) : Prop :=
  (if WordReplace.is_empty word_map then stats = [] /\ w1 = w
   else WordReplace.correct_words_in_textgrid fp word_map backup w = (Val stats, w1))
  /\ (if remove_parentheses
      then WordReplace.remove_parentheses_content fp backup w1 = (Val n, w2)
      else n = 0 /\ w2 = w1)
  /\ (if replace_hyphens
      then WordReplace.replace_hyphens_underscores fp backup w2 = (Val h, w3)
      else h = 0%Z /\ w3 = w2)
  /\ WordReplace.process_file fp word_map backup remove_parentheses replace_hyphens t w
     = (Val (turn_totals t stats n h), w3).

(* ===================================================================== *)
(** * Facts: strings *)
(* ===================================================================== *)

Lemma text_eqb_eq (a b : text) : text_eqb a b = true <-> a = b.
Proof.
  revert b. induction a as [|x a IH]; intros [|y b]; simpl; split;
    try congruence; try reflexivity.
  - intros H. apply andb_prop in H as [Hx Hab].
    apply N.eqb_eq in Hx. apply IH in Hab. congruence.
  - intros H. inversion H; subst. apply andb_true_intro. split.
    + apply N.eqb_refl.
    + now apply IH.
Qed.

Lemma text_eqb_refl (a : text) : text_eqb a a = true.
Proof. now apply text_eqb_eq. Qed.

Lemma text_eqb_neq (a b : text) : text_eqb a b = false <-> a <> b.
Proof.
  split.
  - intros H E. apply text_eqb_eq in E. congruence.
  - intros H. destruct (text_eqb a b) eqn:E; [|reflexivity].
    apply text_eqb_eq in E. contradiction.
Qed.

Lemma firstn_split_length (w s : text) :
  firstn (length (w ++ s) - length s) (w ++ s) = w.
Proof.
  rewrite length_app. replace (length w + length s - length s) with (length w) by lia.
  rewrite firstn_app, Nat.sub_diag, firstn_all. simpl. apply app_nil_r.
Qed.

(* ===================================================================== *)
(** * Facts: the matcher *)
(* ===================================================================== *)

Lemma den_lang r w c0 c1 : den r w c0 c1 -> lang r w.
Proof.
  induction 1; simpl; eauto.
Qed.

Lemma lang_min_len r : forall w, lang r w -> min_len r <= length w.
Proof.
  induction r; simpl; intros w H.
  - lia.
  - destruct H as (c & -> & _). simpl. lia.
  - destruct H as (w1 & w2 & -> & H1 & H2).
    apply IHr1 in H1. apply IHr2 in H2. rewrite length_app. lia.
  - lia.
  - auto.
Qed.

Section MatcherFacts.
Context {R : Type}.
Implicit Types (k : text -> option R).

Lemma star_greedy_sound p s k res :
  star_greedy p s k = Some res ->
  exists w s', s = w ++ s' /\ forallb p w = true /\ k s' = Some res.
Proof.
  induction s as [|c s IH]; simpl; intros H.
  - exists [], []. auto.
  - destruct (p c) eqn:Hp.
    + destruct (star_greedy p s k) as [r|] eqn:Hs.
      * destruct (IH H) as (w & s' & -> & Hw & Hk).
        exists (c :: w), s'. simpl. rewrite Hp, Hw. auto.
      * exists [], (c :: s). auto.
    + exists [], (c :: s). auto.
Qed.

Lemma star_lazy_sound p s k res :
  star_lazy p s k = Some res ->
  exists w s', s = w ++ s' /\ forallb p w = true /\ k s' = Some res.
Proof.
  induction s as [|c s IH]; simpl; intros H.
  - destruct (k []) eqn:Hk; [|discriminate].
    exists [], []. repeat split; congruence.
  - destruct (k (c :: s)) eqn:Hk.
    + exists [], (c :: s). repeat split; congruence.
    + destruct (p c) eqn:Hp; [|discriminate].
      destruct (IH H) as (w & s' & -> & Hw & Hk').
      exists (c :: w), s'. simpl. rewrite Hp, Hw. auto.
Qed.

Lemma star_greedy_complete p w s' k :
  forallb p w = true -> is_Some (k s') -> is_Some (star_greedy p (w ++ s') k).
Proof.
  intros Hw Hk. induction w as [|c w IH]; simpl in *.
  - destruct s' as [|c s']; simpl; [assumption|].
    destruct (p c); [|assumption].
    destruct (star_greedy p s' k); [eauto|assumption].
  - apply andb_prop in Hw as [Hc Hw]. rewrite Hc.
    destruct (IH Hw) as [r Hr]. rewrite Hr. eauto.
Qed.

Lemma star_lazy_complete p w s' k :
  forallb p w = true -> is_Some (k s') -> is_Some (star_lazy p (w ++ s') k).
Proof.
  intros Hw Hk. induction w as [|c w IH]; simpl in *.
  - destruct s' as [|c s']; simpl.
    + destruct Hk as [r ->]. eauto.
    + destruct Hk as [r ->]. eauto.
  - apply andb_prop in Hw as [Hc Hw]. rewrite Hc.
    destruct (k (c :: w ++ s')); [eauto|]. auto.
Qed.
End MatcherFacts.

(** Soundness: a success of the matcher consumes a string the pattern
    denotes and hands the rest to the continuation. *)
Lemma rmatch_sound {R} r :
  forall s cs (k : text -> caps -> option R) res,
    rmatch r s cs k = Some res ->
    exists w s' cs', s = w ++ s' /\ den r w cs cs' /\ k s' cs' = Some res.
Proof.
  induction r as [|p|a IHa b IHb|g p|n a IHa]; simpl; intros s cs k res H.
  - exists [], s, cs. repeat split; auto with re.
  - destruct s as [|c s]; [discriminate|].
    destruct (p c) eqn:Hp; [|discriminate].
    exists [c], s, cs. repeat split; auto with re.
  - apply IHa in H as (w1 & s1 & c1 & -> & Ha & H).
    apply IHb in H as (w2 & s2 & c2 & -> & Hb & H).
    exists (w1 ++ w2), s2, c2. rewrite app_assoc. repeat split; eauto with re.
  - destruct g.
    + apply star_greedy_sound in H as (w & s' & -> & Hw & H).
      exists w, s', cs. repeat split; auto with re.
    + apply star_lazy_sound in H as (w & s' & -> & Hw & H).
      exists w, s', cs. repeat split; auto with re.
  - apply IHa in H as (w & s1 & c1 & -> & Ha & H).
    rewrite firstn_split_length in H.
    exists w, s1, ((n, w) :: c1). repeat split; auto with re.
Qed.

(** Completeness: where the pattern can match and the continuation
    accepts what follows, the matcher succeeds (maybe with another
    match of higher priority). *)
Lemma rmatch_complete {R} r :
  forall w s' cs (k : text -> caps -> option R),
    lang r w -> (forall c, is_Some (k s' c)) -> is_Some (rmatch r (w ++ s') cs k).
Proof.
  induction r as [|p|a IHa b IHb|g p|n a IHa]; simpl; intros w s' cs k Hw Hk.
  - subst. apply Hk.
  - destruct Hw as (c & -> & Hc). simpl. rewrite Hc. apply Hk.
  - destruct Hw as (w1 & w2 & -> & H1 & H2). rewrite <- app_assoc.
    apply IHa; [assumption|]. intros c. apply IHb; assumption.
  - destruct g.
    + apply star_greedy_complete; auto.
    + apply star_lazy_complete; auto.
  - apply IHa; [assumption|]. intros c. apply Hk.
Qed.

(** [match_here] returns a prefix of the text, denoted by the pattern. *)
Lemma match_here_sound r s m :
  match_here r s = Some m ->
  exists s', s = whole m ++ s' /\ den r (whole m) [] (groups m).
Proof.
  unfold match_here. intros H.
  apply rmatch_sound in H as (w & s' & cs' & -> & Hden & H).
  rewrite firstn_split_length in H. injection H as <-. simpl. eauto.
Qed.

Lemma match_here_complete r w s' :
  lang r w -> is_Some (match_here r (w ++ s')).
Proof.
  intros H. unfold match_here. apply rmatch_complete; eauto.
Qed.

(** ** The scan *)

Lemma scan_skip r : forall s skip,
  skip <= length s -> scan r s skip = scan r (skipn skip s) 0.
Proof.
  induction s as [|c s IH]; intros [|n] Hn; simpl in *; try reflexivity; try lia.
  apply IH. lia.
Qed.

Lemma match_here_nonempty r s m :
  0 < min_len r -> match_here r s = Some m -> whole m <> [].
Proof.
  intros Hr H. apply match_here_sound in H as (s' & _ & Hden).
  apply den_lang, lang_min_len in Hden. intros E. rewrite E in Hden.
  simpl in Hden. lia.
Qed.

Lemma scan_tiling r : 0 < min_len r -> forall s, tiling r s (scan r s 0).
Proof.
  intros Hr s. remember (length s) as n eqn:Hn. revert s Hn.
  induction n as [n IH] using lt_wf_ind. intros [|c s] Hn; simpl.
  - destruct (match_here r []) as [m|] eqn:Hm; [|constructor].
    pose proof (match_here_nonempty _ _ _ Hr Hm) as Hne.
    apply match_here_sound in Hm as (s' & Hs & _).
    symmetry in Hs. apply app_eq_nil in Hs as [Hw _]. contradiction.
  - destruct (match_here r (c :: s)) as [m|] eqn:Hm.
    + pose proof (match_here_nonempty _ _ _ Hr Hm) as Hne.
      pose proof Hm as Hm'.
      apply match_here_sound in Hm' as (s' & Hs & _).
      destruct (whole m) as [|c' w] eqn:Hw; [contradiction|].
      simpl in Hs. injection Hs as <- ->. simpl.
      rewrite scan_skip by (rewrite length_app; lia).
      rewrite skipn_app, skipn_all, Nat.sub_diag.
      change (skipn 0 s') with s'. simpl.
      change (c :: w ++ s') with ((c :: w) ++ s'). rewrite <- Hw.
      constructor.
      * rewrite Hw. exact Hm.
      * rewrite Hw. discriminate.
      * eapply IH; [|reflexivity]. simpl in Hn. rewrite length_app in Hn. lia.
    + constructor; [assumption|]. eapply IH; [|reflexivity]. simpl in Hn. lia.
Qed.

(** The pieces put together again give the text. *)
Lemma tiling_render_whole r s ps : tiling r s ps -> render whole ps = s.
Proof.
  induction 1; simpl; congruence.
Qed.

Lemma render_ext f g ps : (forall m, f m = g m) -> render f ps = render g ps.
Proof.
  intros Hfg. induction ps as [|[c|m] ps IH]; simpl; congruence.
Qed.

(** Without a hit, a substitution leaves the text as it is. *)
Lemma tiling_no_hit r s ps f : tiling r s ps -> hits ps = [] -> render f ps = s.
Proof.
  induction 1; simpl; intros Hh; try congruence.
  - rewrite IHtiling; auto.
Qed.

(** Two replacement functions that agree on the matches give the same
    substitution. *)
Lemma tiling_render_ext r s ps f g :
  tiling r s ps ->
  (forall m s', match_here r (whole m ++ s') = Some m -> f m = g m) ->
  render f ps = render g ps.
Proof.
  induction 1; simpl; intros Hfg; auto.
  - now rewrite IHtiling.
  - rewrite IHtiling by assumption. now rewrite (Hfg m s).
Qed.

(** Where the pattern occurs somewhere in the text, the scan has a hit. *)
Lemma scan_finds r w : lang r w ->
  forall pre post, hits (scan r (pre ++ w ++ post) 0) <> [].
Proof.
  intros Hw pre post. induction pre as [|c pre IH]; simpl.
  - destruct (match_here_complete r w post Hw) as [m Hm].
    destruct (w ++ post) as [|c s]; simpl; rewrite Hm.
    + discriminate.
    + destruct (length (whole m)); discriminate.
  - destruct (match_here r (c :: pre ++ w ++ post)) as [m|].
    + destruct (length (whole m)); discriminate.
    + exact IH.
Qed.

(** A hit of the scan is a match at its place in the text. *)
Lemma tiling_hit_inv r s ps m :
  tiling r s ps -> In m (hits ps) ->
  exists pre post,
    s = pre ++ whole m ++ post /\ match_here r (whole m ++ post) = Some m.
Proof.
  induction 1 as [|c s ps Hm Ht IH|m' s ps Hm Hne Ht IH]; cbn [hits]; intros Hin.
  - destruct Hin.
  - destruct (IH Hin) as (pre & post & -> & H). exists (c :: pre), post. auto.
  - destruct Hin as [<-|Hin].
    + exists [], s. auto.
    + destruct (IH Hin) as (pre & post & -> & H).
      exists (whole m' ++ pre), post. rewrite <- app_assoc. auto.
Qed.

(** ** Reading a denotation off a pattern *)

Lemma den_eps_inv w c0 c1 : den Eps w c0 c1 -> w = [] /\ c1 = c0.
Proof. inversion 1; auto. Qed.

Lemma den_chr_inv p w c0 c1 :
  den (Chr p) w c0 c1 -> exists c, w = [c] /\ p c = true /\ c1 = c0.
Proof. inversion 1; subst; eauto. Qed.

Lemma den_is_char_inv x w c0 c1 :
  den (Chr (is_char x)) w c0 c1 -> w = [x] /\ c1 = c0.
Proof.
  intros H. apply den_chr_inv in H as (c & -> & Hc & ->).
  apply N.eqb_eq in Hc. subst. auto.
Qed.

Lemma den_seq_inv a b w c0 c2 :
  den (a ⋅ b) w c0 c2 ->
  exists w1 w2 c1, w = w1 ++ w2 /\ den a w1 c0 c1 /\ den b w2 c1 c2.
Proof. inversion 1; subst; eauto 7. Qed.

Lemma den_star_inv g p w c0 c1 :
  den (Star g p) w c0 c1 -> forallb p w = true /\ c1 = c0.
Proof. inversion 1; auto. Qed.

Lemma den_group_inv n a w c0 c1 :
  den (Group n a) w c0 c1 -> exists c, den a w c0 c /\ c1 = (n, w) :: c.
Proof. inversion 1; subst; eauto. Qed.

Lemma den_lit_inv t : forall w c0 c1, den (Lit t) w c0 c1 -> w = t /\ c1 = c0.
Proof.
  induction t as [|x t IH]; simpl; intros w c0 c1 H.
  - now apply den_eps_inv.
  - apply den_seq_inv in H as (w1 & w2 & c & -> & H1 & H2).
    apply den_is_char_inv in H1 as [-> ->]. apply IH in H2 as [-> ->]. auto.
Qed.

Lemma den_lit t cs : den (Lit t) t cs cs.
Proof.
  induction t as [|x t IH]; simpl; [constructor|].
  change (x :: t) with ([x] ++ t). econstructor; [|exact IH].
  constructor. apply N.eqb_refl.
Qed.

(** Takes a hypothesis [den r w c0 c1] on a concrete pattern apart. *)
Ltac den_inv :=
  repeat match goal with
    | H : den (_ ⋅ _) _ _ _ |- _ =>
        let w1 := fresh "w" in let w2 := fresh "w" in let c := fresh "cs" in
        apply den_seq_inv in H as (w1 & w2 & c & -> & ? & H)
    | H : den (Lit _) _ _ _ |- _ => apply den_lit_inv in H as [-> ->]
    | H : den (Chr (is_char _)) _ _ _ |- _ => apply den_is_char_inv in H as [-> ->]
    | H : den (Chr _) _ _ _ |- _ =>
        let c := fresh "c" in apply den_chr_inv in H as (c & -> & H & ->)
    | H : den (Star _ _) _ _ _ |- _ => apply den_star_inv in H as [H ->]
    | H : den (Group _ _) _ _ _ |- _ =>
        let c := fresh "cs" in apply den_group_inv in H as (c & H & ->)
    | H : den Eps _ _ _ |- _ => apply den_eps_inv in H as [-> ->]
    end.

Lemma den_field_open o c0 c1 :
  den field_open o c0 c1 -> is_field_open o /\ c1 = c0.
Proof.
  unfold field_open. intros H. den_inv.
  split; [|reflexivity]. eexists _, _. split; [reflexivity|]. auto.
Qed.

Lemma field_open_den o cs : is_field_open o -> den field_open o cs cs.
Proof.
  intros (ws1 & ws2 & -> & H1 & H2). unfold field_open.
  repeat (econstructor; eauto using den_lit); apply N.eqb_refl.
Qed.

(** The same, keeping field openings whole. *)
Ltac den_fields :=
  repeat match goal with
    | H : den field_open _ _ _ |- _ => apply den_field_open in H as [H ->]
    | H : den (_ ⋅ _) _ _ _ |- _ =>
        let w1 := fresh "w" in let w2 := fresh "w" in let c := fresh "cs" in
        apply den_seq_inv in H as (w1 & w2 & c & -> & ? & H)
    | H : den (Lit _) _ _ _ |- _ => apply den_lit_inv in H as [-> ->]
    | H : den (Chr (is_char _)) _ _ _ |- _ => apply den_is_char_inv in H as [-> ->]
    | H : den (Chr _) _ _ _ |- _ =>
        let c := fresh "c" in apply den_chr_inv in H as (c & -> & H & ->)
    | H : den (Star _ _) _ _ _ |- _ => apply den_star_inv in H as [H ->]
    | H : den (Group _ _) _ _ _ |- _ =>
        let c := fresh "cs" in apply den_group_inv in H as (c & H & ->)
    | H : den Eps _ _ _ |- _ => apply den_eps_inv in H as [-> ->]
    end.

(* ===================================================================== *)
(** * Facts: hyphen and underscore folding *)
(* ===================================================================== *)

Lemma sub_hyphen s :
  sub WordReplace.pattern_hyphen 2 (str "\1 \2") s
  = inr (sub_fn WordReplace.pattern_hyphen hyphen_repl s).
Proof.
  unfold sub.
  replace (parse_template 2 (str "\1 \2"))
    with (@inr re_error _ [TGroup 1; TChar space; TGroup 2])
    by (vm_compute; reflexivity).
  f_equal. apply render_ext. intros m. unfold hyphen_repl. simpl.
  now rewrite app_nil_r.
Qed.

Lemma hyphen_hit_shape m s :
  match_here WordReplace.pattern_hyphen s = Some m ->
  exists o v1 h v2,
    whole m = o ++ v1 ++ h :: v2 ++ [quote]
    /\ hyphen_repl m = o ++ v1 ++ space :: v2 ++ [quote]
    /\ is_field_open o /\ is_hu h = true
    /\ forallb (not_char quote) v1 = true /\ forallb (not_char quote) v2 = true.
Proof.
  intros H. apply match_here_sound in H as (s' & _ & H).
  destruct m as [w cs]. simpl in *. unfold WordReplace.pattern_hyphen in H.
  den_fields. unfold hyphen_repl. cbn [groups group Nat.eqb whole].
  match goal with
  | |- context [(?o ++ ?v1) ++ [?h] ++ ?v2 ++ [quote]] => exists o, v1, h, v2
  end.
  rewrite <- !app_assoc. repeat split; auto.
Qed.

Lemma folded_refl s : folded s s.
Proof. induction s; constructor; auto. Qed.

Lemma folded_app a a' b b' : folded a a' -> folded b b' -> folded (a ++ b) (a' ++ b').
Proof. apply Forall2_app. Qed.

Lemma folded_trans a b c : folded a b -> folded b c -> folded a c.
Proof.
  intros Hab. revert c. induction Hab as [|x y a b Hxy Hab IH]; intros c Hbc.
  - inversion Hbc. constructor.
  - inversion Hbc as [|y' z b' c' Hyz Hbc']; subst. constructor; [|now apply IH].
    destruct Hxy as [->|[Hx ->]]; [assumption|].
    destruct Hyz as [<-|[Hy _]]; [right; auto|].
    vm_compute in Hy. discriminate.
Qed.

Lemma count_hu_app a b : count_hu (a ++ b) = count_hu a + count_hu b.
Proof. unfold count_hu. now rewrite List.filter_app, length_app. Qed.

Lemma count_hu_le s : count_hu s <= length s.
Proof. unfold count_hu. apply List.filter_length_le. Qed.

Lemma pattern_hyphen_min_len : 0 < min_len WordReplace.pattern_hyphen.
Proof. vm_compute. lia. Qed.

(** One pass of [re.sub]: every hit loses one hyphen or underscore. *)
Lemma hyphen_pass s ps :
  tiling WordReplace.pattern_hyphen s ps ->
  folded s (render hyphen_repl ps)
  /\ count_hu (render hyphen_repl ps) + length (hits ps) = count_hu s.
Proof.
  induction 1 as [|c s ps Hm Ht [IHf IHc]|m s ps Hm Hne Ht [IHf IHc]]; simpl.
  - split; [constructor|reflexivity].
  - split; [constructor; auto|].
    change (c :: render hyphen_repl ps) with ([c] ++ render hyphen_repl ps).
    change (c :: s) with ([c] ++ s). rewrite !count_hu_app. lia.
  - apply hyphen_hit_shape in Hm as (o & v1 & h & v2 & Hw & Hr & _ & Hh & _).
    rewrite Hw, Hr. split.
    + apply folded_app; [|assumption].
      repeat apply folded_app; try apply folded_refl.
      constructor; [right; auto|apply folded_refl].
    + change (h :: v2 ++ [quote]) with ([h] ++ v2 ++ [quote]).
      change (space :: v2 ++ [quote]) with ([space] ++ v2 ++ [quote]).
      rewrite !count_hu_app.
      replace (count_hu [h]) with 1 by (unfold count_hu; simpl; now rewrite Hh).
      replace (count_hu [space]) with 0 by reflexivity. lia.
Qed.

(** The loop ends as soon as it has as many passes as the text has
    hyphens and underscores, plus one; it ends on a text without a hit. *)
Lemma fold_hyphens_run : forall fuel s w,
  count_hu s < fuel ->
  exists final,
    WordReplace.fold_hyphens fuel s w = (Val final, w)
    /\ folded s final
    /\ finditer WordReplace.pattern_hyphen final = []
    /\ (finditer WordReplace.pattern_hyphen s = [] -> final = s).
Proof.
  induction fuel as [|fuel IH]; intros s w Hfuel; [lia|].
  pose proof (scan_tiling _ pattern_hyphen_min_len s) as Ht.
  destruct (hyphen_pass _ _ Ht) as [Hf Hc].
  cbn [WordReplace.fold_hyphens]. unfold bind, lift_re. rewrite sub_hyphen.
  unfold ret, sub_fn.
  destruct (text_eqb (render hyphen_repl (scan WordReplace.pattern_hyphen s 0)) s) eqn:E.
  - apply text_eqb_eq in E. rewrite E in Hc.
    exists s. repeat split; auto using folded_refl.
    unfold finditer. apply length_zero_iff_nil. lia.
  - apply text_eqb_neq in E.
    assert (Hh : hits (scan WordReplace.pattern_hyphen s 0) <> []).
    { intros Hh. apply E. eapply tiling_no_hit; eauto. }
    assert (0 < length (hits (scan WordReplace.pattern_hyphen s 0))).
    { destruct (hits _); [contradiction|simpl; lia]. }
    destruct (IH (render hyphen_repl (scan WordReplace.pattern_hyphen s 0)) w)
      as (final & Hrun & Hff & Hnone & _); [lia|].
    exists final. repeat split; auto.
    + eapply folded_trans; eauto.
    + intros Hs. contradiction.
Qed.

Lemma forallb_app_true {A} (p : A -> bool) a b :
  forallb p (a ++ b) = true -> forallb p a = true /\ forallb p b = true.
Proof. rewrite forallb_app. apply andb_prop. Qed.

(** A text in which [pattern_hyphen] has no hit has no hyphen and no
    underscore in a field value. *)
Lemma no_hit_no_hyphen final :
  finditer WordReplace.pattern_hyphen final = [] ->
  forall v, field_value final v -> forall c, In c v -> is_hu c = false.
Proof.
  intros Hnone v (pre & o & post & -> & Ho & Hv) c Hc.
  destruct (is_hu c) eqn:Hhu; [exfalso|reflexivity].
  apply in_split in Hc as (v1 & v2 & ->).
  apply forallb_app_true in Hv as [Hv1 Hv2]. simpl in Hv2.
  apply andb_prop in Hv2 as [_ Hv2].
  apply (scan_finds WordReplace.pattern_hyphen (o ++ v1 ++ c :: v2 ++ [quote]))
    with (pre := pre) (post := post).
  - unfold WordReplace.pattern_hyphen. cbn [lang].
    exists (o ++ v1), (c :: v2 ++ [quote]).
    split; [now rewrite <- app_assoc|]. split.
    + exists o, v1. split; [reflexivity|]. split; [|assumption].
      eapply den_lang. apply (field_open_den o []). assumption.
    + exists [c], (v2 ++ [quote]). split; [reflexivity|]. split; [eauto|].
      exists v2, [quote]. split; [reflexivity|]. split; [assumption|].
      exists quote. split; [reflexivity|]. apply N.eqb_refl.
  - unfold finditer in Hnone. rewrite <- Hnone. f_equal. f_equal.
    rewrite <- !app_assoc. simpl. now rewrite <- !app_assoc.
Qed.

(* ===================================================================== *)
(** * Facts: running a tool *)
(* ===================================================================== *)

Lemma bind_run {A B} (c : io A) (f : A -> io B) w :
  bind c f w =
  match c w with
  | (Val a, w') => f a w'
  | (Exc e, w') => (Exc e, w')
  | (Div, w') => (Div, w')
  end.
Proof. reflexivity. Qed.

Lemma try_except_run {A} (body : io A) handler w :
  try_except body handler w =
  match body w with
  | (Exc e, w') => handler e w'
  | r => r
  end.
Proof. reflexivity. Qed.

Lemma read_file_some fp t w :
  files w !! fp = Some (Utf8 t) ->
  read_file fp w = (Val t, log (EvOpenRead fp) w).
Proof. intros H. unfold read_file. now rewrite H. Qed.

Lemma write_file_free fp t w :
  fp ∉ locked w ->
  write_file fp t w = (Val tt, store fp t (log (EvOpenWrite fp) w)).
Proof.
  intros H. unfold write_file. now rewrite bool_decide_eq_false_2.
Qed.

Lemma write_file_locked fp t w :
  fp ∈ locked w ->
  write_file fp t w = (Exc (PermissionError fp), log (EvOpenWrite fp) w).
Proof.
  intros H. unfold write_file. now rewrite bool_decide_eq_true_2.
Qed.

Lemma string_app_length (a b : string) :
  String.length (a ++ b) = String.length a + String.length b.
Proof. induction a; simpl; auto. Qed.

(** The backup never has the name of the file it copies. *)
Lemma bak_neq fp : bak fp <> fp.
Proof.
  unfold bak. intros H. apply (f_equal String.length) in H.
  rewrite string_app_length in H. simpl in H. lia.
Qed.

(** What the guarded backup step does, case by case. *)
Lemma backup_if_absent_run backup fp content w :
  backup_if_absent backup fp content w =
  if backup then
    let w1 := log (EvExists (bak fp)) w in
    if bool_decide (is_Some (files w !! bak fp)) || bool_decide (bak fp ∈ dirs w)
    then (Val tt, w1)
    else write_file (bak fp) content w1
  else (Val tt, w).
Proof.
  unfold backup_if_absent. destruct backup; [|reflexivity].
  rewrite bind_run. unfold path_exists.
  destruct (bool_decide (is_Some (files w !! bak fp)) || bool_decide (bak fp ∈ dirs w));
    reflexivity.
Qed.

(** The guarded backup step leaves the file itself alone; it succeeds
    when the backup path can be written. *)
Lemma backup_if_absent_ok backup fp content w :
  bak fp ∉ locked w ->
  exists w1,
    backup_if_absent backup fp content w = (Val tt, w1)
    /\ locked w1 = locked w /\ files w1 !! fp = files w !! fp.
Proof.
  intros Hfree. rewrite backup_if_absent_run. destruct backup; [|eauto].
  cbv zeta.
  destruct (bool_decide (is_Some (files w !! bak fp)) || bool_decide (bak fp ∈ dirs w)).
  - eexists. split; [reflexivity|]. auto.
  - rewrite write_file_free by exact Hfree.
    eexists. split; [reflexivity|]. split; [reflexivity|].
    simpl. apply lookup_insert_ne, bak_neq.
Qed.

(** ** Computations that come to an end *)

Lemma terminates_ret {A} (a : A) : terminates (ret a).
Proof. intros w. discriminate. Qed.

Lemma terminates_raise {A} e : terminates (@raise A e).
Proof. intros w. discriminate. Qed.

Lemma terminates_bind {A B} (c : io A) (f : A -> io B) :
  terminates c -> (forall a, terminates (f a)) -> terminates (bind c f).
Proof.
  intros Hc Hf w. rewrite bind_run. specialize (Hc w).
  destruct (c w) as [[a|e|] w']; simpl in *; try discriminate; [apply Hf|contradiction].
Qed.

Lemma terminates_try {A} (body : io A) handler :
  terminates body -> (forall e, terminates (handler e)) ->
  terminates (try_except body handler).
Proof.
  intros Hb Hh w. rewrite try_except_run. specialize (Hb w).
  destruct (body w) as [[a|e|] w']; simpl in *; try discriminate; [apply Hh|contradiction].
Qed.

Lemma terminates_read fp : terminates (read_file fp).
Proof.
  intros w. unfold read_file. destruct (files w !! fp) as [[t|]|]; discriminate.
Qed.

Lemma terminates_write fp t : terminates (write_file fp t).
Proof.
  intros w. unfold write_file. destruct (bool_decide (fp ∈ locked w)); discriminate.
Qed.

Lemma terminates_exists fp : terminates (path_exists fp).
Proof. intros w. discriminate. Qed.

Lemma terminates_print m : terminates (print m).
Proof. intros w. discriminate. Qed.

Lemma terminates_when b c : terminates c -> terminates (when b c).
Proof. destruct b; simpl; auto using @terminates_ret. Qed.

Lemma terminates_lift_re {A} (r : re_error + A) : terminates (lift_re r).
Proof. destruct r; simpl; [apply terminates_raise|apply terminates_ret]. Qed.

Lemma terminates_if {A} (b : bool) (c1 c2 : io A) :
  terminates c1 -> terminates c2 -> terminates (if b then c1 else c2).
Proof. now destruct b. Qed.

Lemma terminates_backup backup fp content :
  terminates (backup_if_absent backup fp content).
Proof.
  unfold backup_if_absent. destruct backup; [|apply terminates_ret].
  apply terminates_bind; [apply terminates_exists|]. intros present.
  apply terminates_when, terminates_write.
Qed.

Lemma terminates_find d r : terminates (find_textgrids d r).
Proof. intros w. discriminate. Qed.

Lemma terminates_isdir p : terminates (isdir p).
Proof. intros w. discriminate. Qed.

Lemma terminates_isfile p : terminates (isfile p).
Proof. intros w. discriminate. Qed.

(** Steps through a computation built from the primitives. *)
Ltac io_terminates :=
  repeat first
    [ apply terminates_ret | apply terminates_raise | apply terminates_read
    | apply terminates_write | apply terminates_exists | apply terminates_print
    | apply terminates_lift_re | apply terminates_backup | apply terminates_find
    | apply terminates_isdir | apply terminates_isfile
    | apply terminates_when | apply terminates_if
    | apply terminates_bind | apply terminates_try | intro ].

(** [try: .. except Exception: return v] always returns. *)
Lemma try_returns {A} (body : io A) (handler : exn -> io A) :
  terminates body -> (forall e, returns (handler e)) ->
  returns (try_except body handler).
Proof.
  intros Hb Hh w. rewrite try_except_run. specialize (Hb w).
  destruct (body w) as [[a|e|] w']; simpl in *; [eauto|apply Hh|contradiction].
Qed.

Lemma print_then_ret_returns {A} m (a : A) : returns (bind (print m) (fun _ => ret a)).
Proof. intros w. eexists _, _. reflexivity. Qed.

Lemma terminates_fold_hyphens content :
  terminates (WordReplace.fold_hyphens (S (length content)) content).
Proof.
  intros w.
  destruct (fold_hyphens_run (S (length content)) content w) as (final & -> & _).
  - pose proof (count_hu_le content). lia.
  - discriminate.
Qed.

Lemma terminates_hyphens_block fp backup :
  terminates (WordReplace.replace_hyphens_block fp backup).
Proof.
  unfold WordReplace.replace_hyphens_block.
  apply terminates_bind; [apply terminates_read|]. intros content.
  apply terminates_bind; [apply terminates_backup|]. intros _.
  apply terminates_bind; [apply terminates_fold_hyphens|]. intros final.
  io_terminates.
Qed.

(* ===================================================================== *)
(** * Hyphen and underscore folding ends on fields without either *)
(* ===================================================================== *)

(** The run of [replace_hyphens_underscores] on a file that can be read
    and written. *)
Lemma replace_hyphens_run w fp backup content :
  files w !! fp = Some (Utf8 content) ->
  fp ∉ locked w -> bak fp ∉ locked w ->
  exists w' final,
    WordReplace.replace_hyphens_underscores fp backup w
    = (Val (Z.of_nat (findall_len WordReplace.pattern_hyphen content)), w')
    /\ files w' !! fp = Some (Utf8 final)
    /\ folded content final
    /\ finditer WordReplace.pattern_hyphen final = []
    /\ (finditer WordReplace.pattern_hyphen content = [] -> final = content).
Proof.
  intros Hfile Hfp Hbak.
  unfold WordReplace.replace_hyphens_underscores, WordReplace.replace_hyphens_block.
  rewrite try_except_run, bind_run, (read_file_some _ _ _ Hfile).
  destruct (backup_if_absent_ok backup fp content (log (EvOpenRead fp) w) Hbak)
    as (w1 & Hb & Hl1 & Hf1).
  rewrite bind_run, Hb.
  destruct (fold_hyphens_run (S (length content)) content w1)
    as (final & Hrun & Hfold & Hnone & Hsame).
  { pose proof (count_hu_le content). lia. }
  assert (Hrem : findall_len WordReplace.pattern_hyphen final = 0)
    by (unfold findall_len; now rewrite Hnone).
  rewrite bind_run, Hrun. cbv zeta. rewrite Hrem. change (Z.of_nat 0) with 0%Z.
  rewrite Z.sub_0_r.
  destruct (0 <? Z.of_nat (findall_len WordReplace.pattern_hyphen content))%Z eqn:Hc.
  - simpl when. rewrite !bind_run, write_file_free by (rewrite Hl1; exact Hfp).
    simpl. eexists _, final. split; [reflexivity|]. split; [|auto].
    simpl. apply lookup_insert_eq.
  - simpl. eexists _, final. split; [reflexivity|]. split; [|auto].
    rewrite Hsame.
    + rewrite Hf1. exact Hfile.
    + apply Z.ltb_ge in Hc. apply length_zero_iff_nil. unfold findall_len in Hc. lia.
Qed.

(** C5.  Hyphen/underscore folding terminates, for every file and every
    state of the file system; and when the file can be read and written,
    the file it leaves is the original with hyphens and underscores
    turned into single spaces, none of them left in any quoted text-field
    value.  On the field est_ce_que it leaves est ce que. *)
Theorem hyphen_folding_leaves_none :
  (forall fp backup, returns (WordReplace.replace_hyphens_underscores fp backup))
  /\ (forall w fp backup content,
        files w !! fp = Some (Utf8 content) ->
        fp ∉ locked w -> bak fp ∉ locked w ->
        exists n w' final,
          WordReplace.replace_hyphens_underscores fp backup w = (Val n, w')
          /\ files w' !! fp = Some (Utf8 final)
          /\ folded content final
          /\ forall v, field_value final v -> forall c, In c v -> is_hu c = false)
  /\ files (snd (WordReplace.replace_hyphens_underscores "a.TextGrid" true
                   (one_file "a.TextGrid" (text_field (str "est_ce_que")))))
       !! "a.TextGrid"
     = Some (Utf8 (text_field (str "est ce que"))).
Proof.
  split; [|split].
  - intros fp backup. apply try_returns.
    + apply terminates_hyphens_block.
    + intros e. apply print_then_ret_returns.
  - intros w fp backup content Hfile Hfp Hbak.
    destruct (replace_hyphens_run w fp backup content Hfile Hfp Hbak)
      as (w' & final & Hrun & Hf & Hfold & Hnone & _).
    eexists _, w', final. split; [exact Hrun|]. split; [exact Hf|].
    split; [exact Hfold|]. now apply no_hit_no_hyphen.
  - vm_compute. reflexivity.
Qed.

(* ===================================================================== *)
(** * Facts: the five per-file operations *)
(* ===================================================================== *)

(** Case analysis on a run: unfolds the primitives and splits on what
    decides each step, innermost first. *)
Ltac io_step :=
  first
    [ progress (rewrite ?try_except_run, ?bind_run, ?backup_if_absent_run)
    | progress (unfold when, ret, raise, lift_re, print, read_file, write_file,
                path_exists)
    | progress (cbn beta iota zeta)
    | match goal with
      | |- context [match ?x with _ => _ end] =>
          lazymatch x with
          | context [match _ with _ => _ end] => fail
          | _ => destruct x eqn:?
          end
      end ].

Ltac io_cases := repeat io_step.

Ltac world_simpl :=
  cbn [fst snd files locked dirs console trace listing log store put_line] in *.

Lemma fold_hyphens_total content w :
  exists final,
    WordReplace.fold_hyphens (S (length content)) content w = (Val final, w).
Proof.
  destruct (fold_hyphens_run (S (length content)) content w) as (final & H & _).
  - pose proof (count_hu_le content). lia.
  - eauto.
Qed.

Lemma terminates_case_block lower upper fp tl backup :
  terminates (CaseConverter.convert_case_block lower upper fp tl backup).
Proof. unfold CaseConverter.convert_case_block. io_terminates. Qed.

Lemma terminates_space_block alnum fp backup debug :
  terminates (SpaceFinalDot.fix_space_block alnum fp backup debug).
Proof.
  unfold SpaceFinalDot.fix_space_block, SpaceFinalDot.debug_text_field.
  io_terminates.
Qed.

Lemma terminates_words_block fp word_map backup :
  terminates (WordReplace.correct_words_block fp word_map backup).
Proof. unfold WordReplace.correct_words_block. io_terminates. Qed.

Lemma terminates_parens_block fp backup :
  terminates (WordReplace.remove_parentheses_block fp backup).
Proof. unfold WordReplace.remove_parentheses_block. io_terminates. Qed.

Lemma case_returns lower upper fp tl backup :
  returns (CaseConverter.convert_case_in_textgrid lower upper fp tl backup).
Proof.
  apply try_returns; [apply terminates_case_block|].
  intros e. apply print_then_ret_returns.
Qed.

Lemma space_returns alnum fp backup debug :
  returns (SpaceFinalDot.fix_space_before_dot alnum fp backup debug).
Proof.
  apply try_returns; [apply terminates_space_block|].
  intros e. apply print_then_ret_returns.
Qed.

Lemma words_returns fp word_map backup :
  returns (WordReplace.correct_words_in_textgrid fp word_map backup).
Proof.
  apply try_returns; [apply terminates_words_block|].
  intros e. apply print_then_ret_returns.
Qed.

Lemma parens_returns fp backup :
  returns (WordReplace.remove_parentheses_content fp backup).
Proof.
  apply try_returns; [apply terminates_parens_block|].
  intros e. apply print_then_ret_returns.
Qed.

Lemma hyphens_returns fp backup :
  returns (WordReplace.replace_hyphens_underscores fp backup).
Proof.
  apply try_returns; [apply terminates_hyphens_block|].
  intros e. apply print_then_ret_returns.
Qed.

(* ===================================================================== *)
(** * The backup is a copy of what was read *)
(* ===================================================================== *)

Lemma neq_bak fp : fp <> bak fp.
Proof. intros H. symmetry in H. now apply bak_neq in H. Qed.

Ltac copy_done :=
  world_simpl;
  first
    [ left; rewrite ?(lookup_insert_ne _ _ _ _ (neq_bak _)); reflexivity
    | right; eexists; split; [reflexivity|];
      rewrite ?(lookup_insert_ne _ _ _ _ (neq_bak _)); apply lookup_insert_eq ].

Lemma case_backup_is_copy lower upper fp tl backup :
  backup_is_copy (CaseConverter.convert_case_in_textgrid lower upper fp tl backup) fp.
Proof.
  intros w.
  unfold CaseConverter.convert_case_in_textgrid, CaseConverter.convert_case_block.
  io_cases; copy_done.
Qed.

Lemma space_backup_is_copy alnum fp backup debug :
  backup_is_copy (SpaceFinalDot.fix_space_before_dot alnum fp backup debug) fp.
Proof.
  intros w.
  unfold SpaceFinalDot.fix_space_before_dot, SpaceFinalDot.fix_space_block,
    SpaceFinalDot.debug_text_field.
  io_cases; copy_done.
Qed.

Lemma words_backup_is_copy fp word_map backup :
  backup_is_copy (WordReplace.correct_words_in_textgrid fp word_map backup) fp.
Proof.
  intros w.
  unfold WordReplace.correct_words_in_textgrid, WordReplace.correct_words_block.
  io_cases; copy_done.
Qed.

Lemma parens_backup_is_copy fp backup :
  backup_is_copy (WordReplace.remove_parentheses_content fp backup) fp.
Proof.
  intros w.
  unfold WordReplace.remove_parentheses_content, WordReplace.remove_parentheses_block.
  io_cases; copy_done.
Qed.

Ltac hyphen_step :=
  match goal with
  | |- context [WordReplace.fold_hyphens (S (length ?t)) ?t ?w] =>
      let H := fresh in
      destruct (fold_hyphens_total t w) as (? & H); rewrite H; clear H
  end.

Ltac hyphen_cases := repeat first [hyphen_step | io_step].

Lemma hyphens_backup_is_copy fp backup :
  backup_is_copy (WordReplace.replace_hyphens_underscores fp backup) fp.
Proof.
  intros w.
  unfold WordReplace.replace_hyphens_underscores, WordReplace.replace_hyphens_block.
  hyphen_cases; copy_done.
Qed.


(* ===================================================================== *)
(** * The backup is written first *)
(* ===================================================================== *)

Lemma absent_probe w p :
  files w !! p = None -> p ∉ dirs w ->
  bool_decide (is_Some (files w !! p)) || bool_decide (p ∈ dirs w) = false.
Proof.
  intros Hf Hd. rewrite Hf. rewrite (bool_decide_eq_false_2 _ Hd).
  rewrite bool_decide_eq_false_2; [reflexivity|]. intros [x Hx]. discriminate.
Qed.

Ltac backup_done :=
  world_simpl; split;
  [ rewrite ?(lookup_insert_ne _ _ _ _ (neq_bak _)); apply lookup_insert_eq
  | rewrite <- ?app_assoc; simpl; eexists; reflexivity ].

Lemma case_creates_backup lower upper fp tl :
  creates_backup (CaseConverter.convert_case_in_textgrid lower upper fp tl true) fp.
Proof.
  intros w content Hfile Habs Hdir Hfree.
  unfold CaseConverter.convert_case_in_textgrid, CaseConverter.convert_case_block.
  rewrite try_except_run, bind_run, (read_file_some _ _ _ Hfile).
  rewrite bind_run, backup_if_absent_run. cbv zeta. world_simpl.
  rewrite (absent_probe _ _ Habs Hdir), write_file_free by exact Hfree.
  io_cases; backup_done.
Qed.

Lemma space_creates_backup alnum fp debug :
  creates_backup (SpaceFinalDot.fix_space_before_dot alnum fp true debug) fp.
Proof.
  intros w content Hfile Habs Hdir Hfree.
  unfold SpaceFinalDot.fix_space_before_dot, SpaceFinalDot.fix_space_block,
    SpaceFinalDot.debug_text_field.
  rewrite try_except_run, bind_run, (read_file_some _ _ _ Hfile).
  destruct debug; simpl when; rewrite ?bind_run; unfold print, ret; cbn beta iota;
    rewrite ?bind_run, backup_if_absent_run; cbv zeta; world_simpl;
    rewrite (absent_probe _ _ Habs Hdir), write_file_free by exact Hfree;
    io_cases; backup_done.
Qed.

Lemma parens_creates_backup fp :
  creates_backup (WordReplace.remove_parentheses_content fp true) fp.
Proof.
  intros w content Hfile Habs Hdir Hfree.
  unfold WordReplace.remove_parentheses_content, WordReplace.remove_parentheses_block.
  rewrite try_except_run, bind_run, (read_file_some _ _ _ Hfile).
  rewrite bind_run, backup_if_absent_run. cbv zeta. world_simpl.
  rewrite (absent_probe _ _ Habs Hdir), write_file_free by exact Hfree.
  io_cases; backup_done.
Qed.

Lemma hyphens_creates_backup fp :
  creates_backup (WordReplace.replace_hyphens_underscores fp true) fp.
Proof.
  intros w content Hfile Habs Hdir Hfree.
  unfold WordReplace.replace_hyphens_underscores, WordReplace.replace_hyphens_block.
  rewrite try_except_run, bind_run, (read_file_some _ _ _ Hfile).
  rewrite bind_run, backup_if_absent_run. cbv zeta. world_simpl.
  rewrite (absent_probe _ _ Habs Hdir), write_file_free by exact Hfree.
  hyphen_cases; backup_done.
Qed.

Lemma words_overwrite_backup fp word_map :
  overwrites_backup (WordReplace.correct_words_in_textgrid fp word_map true) fp.
Proof.
  intros w content Hfile Hfree.
  unfold WordReplace.correct_words_in_textgrid, WordReplace.correct_words_block.
  rewrite try_except_run, bind_run, (read_file_some _ _ _ Hfile).
  simpl when. rewrite bind_run, write_file_free by exact Hfree.
  io_cases; backup_done.
Qed.

(** C10.  With backups on, every per-file operation writes the [.bak]
    file right after it has read the file and before it looks for
    anything to change: the four operations that first ask whether a
    backup exists create it when there is none, and word replacement
    writes it without asking, over an older backup too, also on a call
    that replaces nothing. *)
Theorem backup_written_before_any_change
    (str_lower str_upper : text -> text) (alnum_beyond : char -> bool)
    (fp : string) (to_lowercase debug : bool) (word_map : WordReplace.dict text) :
  creates_backup
    (CaseConverter.convert_case_in_textgrid str_lower str_upper fp to_lowercase true) fp
  /\ creates_backup (SpaceFinalDot.fix_space_before_dot alnum_beyond fp true debug) fp
  /\ creates_backup (WordReplace.remove_parentheses_content fp true) fp
  /\ creates_backup (WordReplace.replace_hyphens_underscores fp true) fp
  /\ overwrites_backup (WordReplace.correct_words_in_textgrid fp word_map true) fp
  /\ (let w := file_with_backup "a.TextGrid" (text_field (str "chat")) (str "old") in
      let r := WordReplace.correct_words_in_textgrid "a.TextGrid"
                 [(str "chien", str "chienne")] true w in
      fst r = Val [(str "chien", 0)]
      /\ files (snd r) !! "a.TextGrid" = Some (Utf8 (text_field (str "chat")))
      /\ files (snd r) !! "a.TextGrid.bak" = Some (Utf8 (text_field (str "chat")))).
Proof.
  split; [apply case_creates_backup|].
  split; [apply space_creates_backup|].
  split; [apply parens_creates_backup|].
  split; [apply hyphens_creates_backup|].
  split; [apply words_overwrite_backup|].
  vm_compute. auto.
Qed.

(* ===================================================================== *)
(** * The backup, character by character *)
(* ===================================================================== *)

Lemma written_lf t : written [newline] t = t.
Proof.
  unfold written. induction t as [|c t IH]; cbn [flat_map]; [reflexivity|].
  rewrite IH. destruct (c =? newline)%N eqn:E; [|reflexivity].
  apply N.eqb_eq in E. now subst c.
Qed.

Lemma universal_newlines_no_cr b raw : ~ In cr (universal_newlines_from b raw).
Proof.
  revert b. induction raw as [|c raw IH]; intros b; cbn [universal_newlines_from].
  - intros [].
  - destruct (c =? cr)%N eqn:Ec.
    + intros [H|H]; [discriminate|now apply IH in H].
    + destruct (c =? newline)%N eqn:En.
      * destruct b; [apply IH|]. intros [H|H]; [discriminate|now apply IH in H].
      * intros [H|H]; [|now apply IH in H]. subst c. discriminate.
Qed.

Lemma universal_newlines_plain raw :
  ~ In cr raw -> universal_newlines_from false raw = raw.
Proof.
  induction raw as [|c raw IH]; intros H; cbn [universal_newlines_from]; [reflexivity|].
  destruct (c =? cr)%N eqn:Ec.
  - apply N.eqb_eq in Ec. subst c. destruct H. now left.
  - rewrite IH by (intros Hin; apply H; now right).
    destruct (c =? newline)%N eqn:En; [|reflexivity].
    apply N.eqb_eq in En. now subst c.
Qed.

(** With LF as the line end of the system, reading and writing back
    gives the same characters exactly for a file without a CR. *)
Lemma round_trip_lf raw :
  written [newline] (universal_newlines raw) = raw <-> ~ In cr raw.
Proof.
  rewrite written_lf. unfold universal_newlines. split.
  - intros E Hin. rewrite <- E in Hin. exact (universal_newlines_no_cr _ _ Hin).
  - apply universal_newlines_plain.
Qed.

Lemma created_is_reencoded {A} (op : io A) fp :
  creates_backup op fp -> backup_is_reencoded op fp.
Proof.
  intros H linesep w raw Hraw Habs Hdir Hfree.
  destruct (H w _ Hraw Habs Hdir Hfree) as [E _].
  unfold backup_on_disk. now rewrite E.
Qed.

Lemma overwritten_is_reencoded {A} (op : io A) fp :
  overwrites_backup op fp -> backup_is_reencoded op fp.
Proof.
  intros H linesep w raw Hraw _ _ Hfree.
  destruct (H w _ Hraw Hfree) as [E _].
  unfold backup_on_disk. now rewrite E.
Qed.

(** C8, as the code has it.  Whenever an operation creates or rewrites
    the backup of a file, the text it writes there is the text it has
    just read from the file, before any transformation: after the
    operation the [.bak] file is either as it was or that text.  The
    text is what text mode made of the file: the backup has the
    characters of the file with every CR LF and every CR read as LF and
    every LF written as the line end of the system.  Where that is LF,
    the backup is the file byte for byte exactly when the file has no
    CR. *)
Theorem backup_is_pre_transformation_content
    (str_lower str_upper : text -> text) (alnum_beyond : char -> bool)
    (fp : string) (to_lowercase backup debug : bool)
    (word_map : WordReplace.dict text) :
  backup_is_copy
    (CaseConverter.convert_case_in_textgrid str_lower str_upper fp to_lowercase backup) fp
  /\ backup_is_copy
       (SpaceFinalDot.fix_space_before_dot alnum_beyond fp backup debug) fp
  /\ backup_is_copy (WordReplace.correct_words_in_textgrid fp word_map backup) fp
  /\ backup_is_copy (WordReplace.remove_parentheses_content fp backup) fp
  /\ backup_is_copy (WordReplace.replace_hyphens_underscores fp backup) fp
  /\ backup_is_reencoded
       (CaseConverter.convert_case_in_textgrid str_lower str_upper fp to_lowercase true) fp
  /\ backup_is_reencoded
       (SpaceFinalDot.fix_space_before_dot alnum_beyond fp true debug) fp
  /\ backup_is_reencoded (WordReplace.correct_words_in_textgrid fp word_map true) fp
  /\ backup_is_reencoded (WordReplace.remove_parentheses_content fp true) fp
  /\ backup_is_reencoded (WordReplace.replace_hyphens_underscores fp true) fp
  /\ (forall raw, written [newline] (universal_newlines raw) = raw <-> ~ In cr raw).
Proof.
  split; [apply case_backup_is_copy|].
  split; [apply space_backup_is_copy|].
  split; [apply words_backup_is_copy|].
  split; [apply parens_backup_is_copy|].
  split; [apply hyphens_backup_is_copy|].
  split; [apply created_is_reencoded, case_creates_backup|].
  split; [apply created_is_reencoded, space_creates_backup|].
  split; [apply overwritten_is_reencoded, words_overwrite_backup|].
  split; [apply created_is_reencoded, parens_creates_backup|].
  split; [apply created_is_reencoded, hyphens_creates_backup|].
  apply round_trip_lf.
Qed.

Lemma backup_is_pre_transformation_witness :
  backup_on_disk [newline]
    (snd (WordReplace.remove_parentheses_content "a.TextGrid" true
            (crlf_file "a.TextGrid")))
    "a.TextGrid"
  = Some (written [newline] (universal_newlines (str "A" ++ [cr; newline]))).
Proof.
  destruct (backup_is_pre_transformation_content ascii_lower ascii_upper ascii_only
              "a.TextGrid" true true false [])
    as (_ & _ & _ & _ & _ & _ & _ & _ & H & _).
  apply H.
  - reflexivity.
  - reflexivity.
  - intros Hd. vm_compute in Hd. discriminate.
  - intros Hl. vm_compute in Hl. discriminate.
Defined.

(** C8 fails for a file with a CR: the line A that ends in CR LF is
    read as A and LF, and on a system whose line end is LF the backup
    ends in LF alone.  On a system whose line end is CR LF the same
    happens the other way round, to a file whose line ends in LF. *)
Lemma crlf_backup_differs :
  let raw := str "A" ++ [cr; newline] in
  let op := CaseConverter.convert_case_in_textgrid ascii_lower ascii_upper
              "a.TextGrid" true true in
  holds_on_disk (crlf_file "a.TextGrid") "a.TextGrid" raw
  /\ backup_on_disk [newline] (snd (op (crlf_file "a.TextGrid"))) "a.TextGrid"
     = Some (str "A" ++ [newline])
  /\ str "A" ++ [newline] <> raw
  /\ (let raw' := str "A" ++ [newline] in
      let w' := one_file "a.TextGrid" (universal_newlines raw') in
      holds_on_disk w' "a.TextGrid" raw'
      /\ backup_on_disk [cr; newline] (snd (op w')) "a.TextGrid"
         = Some (str "A" ++ [cr; newline])).
Proof.
  cbv zeta. split; [reflexivity|]. split; [vm_compute; reflexivity|].
  split; [discriminate|]. split; [reflexivity|vm_compute; reflexivity].
Qed.

(* ===================================================================== *)
(** * Exceptions stay in the file that raised them *)
(* ===================================================================== *)

Lemma try_caught {A} (block : io A) (zero : A) report :
  terminates block ->
  caught_locally
    (try_except block (fun e => bind (print (report e)) (fun _ => ret zero)))
    block zero report.
Proof.
  intros Ht. split.
  - apply try_returns; [assumption|]. intros e. apply print_then_ret_returns.
  - intros w e w1 H. rewrite try_except_run, H. reflexivity.
Qed.

Lemma case_loop_skips lower upper fp rest tl backup tf tr w e w1 :
  CaseConverter.convert_case_block lower upper fp tl backup w = (Exc e, w1) ->
  CaseConverter.process_files lower upper (fp :: rest) tl backup tf tr w
  = CaseConverter.process_files lower upper rest tl backup tf tr
      (put_line (MsgFileError fp e) w1).
Proof.
  intros H. cbn [CaseConverter.process_files]. rewrite bind_run.
  unfold CaseConverter.convert_case_in_textgrid. rewrite try_except_run, H.
  reflexivity.
Qed.

Lemma space_loop_skips alnum fp rest backup debug tf tr w e w1 :
  SpaceFinalDot.fix_space_block alnum fp backup debug w = (Exc e, w1) ->
  SpaceFinalDot.process_files alnum (fp :: rest) backup debug tf tr w
  = SpaceFinalDot.process_files alnum rest backup debug tf tr
      (put_line (MsgFileError fp e) w1).
Proof.
  intros H. cbn [SpaceFinalDot.process_files]. rewrite bind_run.
  unfold SpaceFinalDot.fix_space_before_dot. rewrite try_except_run, H.
  reflexivity.
Qed.

Lemma read_file_unreadable w fp :
  unreadable w fp ->
  exists e, read_file fp w = (Exc e, log (EvOpenRead fp) w).
Proof.
  intros H. unfold read_file. destruct (files w !! fp) as [[t|]|] eqn:E; eauto.
  now destruct (H t).
Qed.

Lemma unreadable_same_files w w' fp :
  files w' = files w -> unreadable w fp -> unreadable w' fp.
Proof. intros E H c. rewrite E. apply H. Qed.

Lemma words_unreadable w fp word_map backup :
  unreadable w fp ->
  exists w',
    WordReplace.correct_words_in_textgrid fp word_map backup w
    = (Val (WordReplace.zero_stats word_map), w')
    /\ files w' = files w.
Proof.
  intros H. destruct (read_file_unreadable _ _ H) as (e & He).
  unfold WordReplace.correct_words_in_textgrid, WordReplace.correct_words_block.
  rewrite try_except_run, bind_run, He. eexists. split; reflexivity.
Qed.

Lemma parens_unreadable w fp backup :
  unreadable w fp ->
  exists w',
    WordReplace.remove_parentheses_content fp backup w = (Val 0, w')
    /\ files w' = files w.
Proof.
  intros H. destruct (read_file_unreadable _ _ H) as (e & He).
  unfold WordReplace.remove_parentheses_content, WordReplace.remove_parentheses_block.
  rewrite try_except_run, bind_run, He. eexists. split; reflexivity.
Qed.

Lemma hyphens_unreadable w fp backup :
  unreadable w fp ->
  exists w',
    WordReplace.replace_hyphens_underscores fp backup w = (Val 0%Z, w')
    /\ files w' = files w.
Proof.
  intros H. destruct (read_file_unreadable _ _ H) as (e & He).
  unfold WordReplace.replace_hyphens_underscores, WordReplace.replace_hyphens_block.
  rewrite try_except_run, bind_run, He. eexists. split; reflexivity.
Qed.

Lemma sum_zero_stats word_map :
  WordReplace.sum_values (WordReplace.zero_stats word_map) = 0.
Proof. induction word_map as [|[k v] d IH]; simpl; auto. Qed.

(** The turn of the word tool's loop on an unreadable file changes no
    total and no file. *)
Lemma words_turn_unreadable w fp word_map backup rp rh t :
  unreadable w fp ->
  exists w',
    WordReplace.process_file fp word_map backup rp rh t w = (Val t, w')
    /\ files w' = files w.
Proof.
  intros H. unfold WordReplace.process_file. rewrite bind_run.
  match goal with
  | |- context [match ?c w with _ => _ end] =>
      assert (H1 : exists w1, c w = (Val (false, t), w1) /\ files w1 = files w)
  end.
  { destruct word_map as [|kv d]; [eexists; split; reflexivity|].
    destruct (words_unreadable w fp (kv :: d) backup H) as (w1 & Hr & Hf).
    rewrite bind_run, Hr. cbv zeta. rewrite sum_zero_stats. simpl. eauto. }
  destruct H1 as (w1 & -> & Hf1).
  pose proof (unreadable_same_files _ _ _ Hf1 H) as Hu1.
  rewrite bind_run.
  match goal with
  | |- context [match ?c w1 with _ => _ end] =>
      assert (H2 : exists w2, c w1 = (Val (false, t), w2) /\ files w2 = files w1)
  end.
  { destruct rp; [|eexists; split; reflexivity].
    destruct (parens_unreadable w1 fp backup Hu1) as (w2 & Hr & Hf).
    rewrite bind_run, Hr. simpl. eauto. }
  destruct H2 as (w2 & -> & Hf2).
  pose proof (unreadable_same_files _ _ _ Hf2 Hu1) as Hu2.
  rewrite bind_run.
  destruct rh.
  - destruct (hyphens_unreadable w2 fp backup Hu2) as (w3 & Hr & Hf).
    rewrite bind_run, Hr. simpl. eexists. split; [reflexivity|]. congruence.
  - simpl. eexists. split; [reflexivity|]. congruence.
Qed.

Lemma totals_eta (t : WordReplace.totals) :
  WordReplace.Totals (WordReplace.total_files t) (WordReplace.total_replacements t)
    (WordReplace.total_parentheses_removed t) (WordReplace.total_hyphens_replaced t)
    (WordReplace.word_totals t) = t.
Proof. now destruct t. Qed.

Lemma ltb_zero_false n : (0 <? n) = false -> n = 0.
Proof. intros H. apply Nat.ltb_ge in H. lia. Qed.

(** Every turn of the loop is such a run of the three operations. *)
Lemma process_file_turn fp word_map backup rp rh t w :
  exists stats n h w1 w2 w3, turn_of fp word_map backup rp rh t w stats n h w1 w2 w3.
Proof.
  unfold turn_of, WordReplace.process_file.
  assert (H1 : exists stats w1,
    (if WordReplace.is_empty word_map then stats = [] /\ w1 = w
     else WordReplace.correct_words_in_textgrid fp word_map backup w = (Val stats, w1))).
  { destruct word_map as [|kv d]; cbn [WordReplace.is_empty]; [eauto|].
    destruct (words_returns fp (kv :: d) backup w) as (stats & w1 & E). eauto. }
  destruct H1 as (stats & w1 & H1).
  assert (H2 : exists n w2,
    (if rp then WordReplace.remove_parentheses_content fp backup w1 = (Val n, w2)
     else n = 0 /\ w2 = w1)).
  { destruct rp; [|eauto].
    destruct (parens_returns fp backup w1) as (n & w2 & E). eauto. }
  destruct H2 as (n & w2 & H2).
  assert (H3 : exists h w3,
    (if rh then WordReplace.replace_hyphens_underscores fp backup w2 = (Val h, w3)
     else h = 0%Z /\ w3 = w2)).
  { destruct rh; [|eauto].
    destruct (hyphens_returns fp backup w2) as (h & w3 & E). eauto. }
  destruct H3 as (h & w3 & H3).
  exists stats, n, h, w1, w2, w3.
  split; [exact H1|]. split; [exact H2|]. split; [exact H3|].
  unfold turn_totals. cbv zeta. rewrite bind_run.
  destruct word_map as [|kv d]; cbn [WordReplace.is_empty] in H1.
  - destruct H1 as [-> ->]. cbn [ret WordReplace.sum_values fold_right].
    change (0 <? 0) with false. cbn [orb].
    destruct rp.
    + rewrite !bind_run, H2. cbn beta iota.
      destruct (0 <? n) eqn:En; cbn [ret orb]; destruct rh.
      * rewrite !bind_run, H3. cbn beta iota.
        destruct (0 <? h)%Z eqn:Eh; cbn [ret]; cbn;
          rewrite ?Nat.add_0_r; reflexivity.
      * destruct H3 as [-> ->]. cbn. rewrite ?Nat.add_0_r. reflexivity.
      * rewrite !bind_run, H3. cbn beta iota. apply ltb_zero_false in En. subst n.
        destruct (0 <? h)%Z eqn:Eh; cbn [ret]; cbn;
          rewrite ?Nat.add_0_r, ?totals_eta; reflexivity.
      * destruct H3 as [-> ->]. apply ltb_zero_false in En. subst n.
        cbn. rewrite ?Nat.add_0_r, ?totals_eta. reflexivity.
    + destruct H2 as [-> ->]. rewrite !bind_run. cbn [ret]. cbn beta iota.
      destruct rh.
      * rewrite !bind_run, H3. cbn beta iota.
        destruct (0 <? h)%Z eqn:Eh; cbn [ret]; cbn;
          rewrite ?Nat.add_0_r, ?totals_eta; reflexivity.
      * destruct H3 as [-> ->]. cbn. rewrite ?Nat.add_0_r, ?totals_eta. reflexivity.
  - rewrite bind_run, H1. cbn beta iota zeta.
    destruct (0 <? WordReplace.sum_values stats) eqn:Es; cbn [ret orb].
    + destruct rp.
      * rewrite !bind_run, H2. cbn beta iota.
        destruct (0 <? n) eqn:En; cbn [ret]; destruct rh.
        -- rewrite !bind_run, H3. cbn beta iota.
           destruct (0 <? h)%Z eqn:Eh; cbn [ret]; cbn; reflexivity.
        -- destruct H3 as [-> ->]. cbn. reflexivity.
        -- rewrite !bind_run, H3. cbn beta iota. apply ltb_zero_false in En. subst n.
           destruct (0 <? h)%Z eqn:Eh; cbn [ret]; cbn; rewrite ?Nat.add_0_r; reflexivity.
        -- destruct H3 as [-> ->]. apply ltb_zero_false in En. subst n.
           cbn. rewrite ?Nat.add_0_r. reflexivity.
      * destruct H2 as [-> ->]. rewrite !bind_run. cbn [ret]. cbn beta iota.
        destruct rh.
        -- rewrite !bind_run, H3. cbn beta iota.
           destruct (0 <? h)%Z eqn:Eh; cbn [ret]; cbn; rewrite ?Nat.add_0_r; reflexivity.
        -- destruct H3 as [-> ->]. cbn. rewrite ?Nat.add_0_r. reflexivity.
    + apply ltb_zero_false in Es. rewrite Es.
      destruct rp.
      * rewrite !bind_run, H2. cbn beta iota.
        destruct (0 <? n) eqn:En; cbn [ret orb]; destruct rh.
        -- rewrite !bind_run, H3. cbn beta iota.
           destruct (0 <? h)%Z eqn:Eh; cbn [ret]; cbn;
             rewrite ?Nat.add_0_r; reflexivity.
        -- destruct H3 as [-> ->]. cbn. rewrite ?Nat.add_0_r. reflexivity.
        -- rewrite !bind_run, H3. cbn beta iota. apply ltb_zero_false in En. subst n.
           destruct (0 <? h)%Z eqn:Eh; cbn [ret]; cbn;
             rewrite ?Nat.add_0_r, ?totals_eta; reflexivity.
        -- destruct H3 as [-> ->]. apply ltb_zero_false in En. subst n.
           cbn. rewrite ?Nat.add_0_r, ?totals_eta. reflexivity.
      * destruct H2 as [-> ->]. rewrite !bind_run. cbn [ret]. cbn beta iota.
        destruct rh.
        -- rewrite !bind_run, H3. cbn beta iota.
           destruct (0 <? h)%Z eqn:Eh; cbn [ret]; cbn;
             rewrite ?Nat.add_0_r, ?totals_eta; reflexivity.
        -- destruct H3 as [-> ->]. cbn. rewrite ?Nat.add_0_r, ?totals_eta. reflexivity.
Qed.

Lemma turn_totals_zero word_map t :
  turn_totals t (WordReplace.zero_stats word_map) 0 0 = t.
Proof.
  unfold turn_totals. cbv zeta. rewrite sum_zero_stats.
  change (0 <? 0) with false. change (0 <? 0)%Z with false. cbn [orb].
  rewrite !Nat.add_0_r. apply totals_eta.
Qed.

Lemma caught_zero {A} (op block : io A) (zero : A) report w e wx a w' :
  caught_locally op block zero report ->
  block w = (Exc e, wx) -> op w = (Val a, w') ->
  a = zero /\ w' = put_line (report e) wx.
Proof.
  intros [_ H] Hb Ho. rewrite (H w e wx Hb) in Ho. injection Ho as <- <-. auto.
Qed.

(** C9, as the code has it.  In every per-file operation of the three
    tools an exception raised while the file is read, transformed or
    written is caught in the operation itself: the operation prints the
    file name with the error and returns zero (for word replacement: the
    all-zero statistics), and it never lets an exception out.  In the
    loops of the case converter and of the spacing tool such a file adds
    nothing to the totals, and the loop goes on with the next file.  In
    the loop of the word tool the three operations run one after the
    other on the file, each in the world the one before left: an
    operation that fails adds nothing to its own total, the operations
    after it still run, what they count is added, and the file counts as
    modified as soon as one of them counts something; then the loop goes
    on with the next file.  A file that cannot be read fails in all three
    and adds nothing to any total. *)
Theorem exceptions_are_caught_per_file
    (str_lower str_upper : text -> text) (alnum_beyond : char -> bool)
    (fp : string) (to_lowercase backup debug : bool)
    (word_map : WordReplace.dict text) :
  caught_locally
    (CaseConverter.convert_case_in_textgrid str_lower str_upper fp to_lowercase backup)
    (CaseConverter.convert_case_block str_lower str_upper fp to_lowercase backup)
    0 (MsgFileError fp)
  /\ caught_locally
       (SpaceFinalDot.fix_space_before_dot alnum_beyond fp backup debug)
       (SpaceFinalDot.fix_space_block alnum_beyond fp backup debug)
       0 (MsgFileError fp)
  /\ caught_locally
       (WordReplace.correct_words_in_textgrid fp word_map backup)
       (WordReplace.correct_words_block fp word_map backup)
       (WordReplace.zero_stats word_map) (MsgFileError fp)
  /\ caught_locally
       (WordReplace.remove_parentheses_content fp backup)
       (WordReplace.remove_parentheses_block fp backup)
       0 (MsgParenError fp)
  /\ caught_locally
       (WordReplace.replace_hyphens_underscores fp backup)
       (WordReplace.replace_hyphens_block fp backup)
       0%Z (MsgHyphenError fp)
  /\ (forall rest tf tr w e w1,
        CaseConverter.convert_case_block str_lower str_upper fp to_lowercase backup w
        = (Exc e, w1) ->
        CaseConverter.process_files str_lower str_upper (fp :: rest)
          to_lowercase backup tf tr w
        = CaseConverter.process_files str_lower str_upper rest
            to_lowercase backup tf tr (put_line (MsgFileError fp e) w1))
  /\ (forall rest tf tr w e w1,
        SpaceFinalDot.fix_space_block alnum_beyond fp backup debug w = (Exc e, w1) ->
        SpaceFinalDot.process_files alnum_beyond (fp :: rest) backup debug tf tr w
        = SpaceFinalDot.process_files alnum_beyond rest backup debug tf tr
            (put_line (MsgFileError fp e) w1))
  /\ (forall remove_parentheses replace_hyphens t w,
        exists stats n h w1 w2 w3,
          turn_of fp word_map backup remove_parentheses replace_hyphens t w
            stats n h w1 w2 w3
          /\ (forall rest,
                WordReplace.process_files (fp :: rest) word_map backup
                  remove_parentheses replace_hyphens t w
                = WordReplace.process_files rest word_map backup
                    remove_parentheses replace_hyphens (turn_totals t stats n h) w3)
          /\ (forall e wx,
                WordReplace.is_empty word_map = false ->
                WordReplace.correct_words_block fp word_map backup w = (Exc e, wx) ->
                stats = WordReplace.zero_stats word_map
                /\ w1 = put_line (MsgFileError fp e) wx)
          /\ (forall e wx,
                remove_parentheses = true ->
                WordReplace.remove_parentheses_block fp backup w1 = (Exc e, wx) ->
                n = 0 /\ w2 = put_line (MsgParenError fp e) wx)
          /\ (forall e wx,
                replace_hyphens = true ->
                WordReplace.replace_hyphens_block fp backup w2 = (Exc e, wx) ->
                h = 0%Z /\ w3 = put_line (MsgHyphenError fp e) wx))
  /\ (forall t n h,
        WordReplace.total_replacements (turn_totals t (WordReplace.zero_stats word_map) n h)
        = WordReplace.total_replacements t
        /\ WordReplace.word_totals (turn_totals t (WordReplace.zero_stats word_map) n h)
           = WordReplace.word_totals t)
  /\ (forall t stats h,
        WordReplace.total_parentheses_removed (turn_totals t stats 0 h)
        = WordReplace.total_parentheses_removed t)
  /\ (forall t stats n,
        WordReplace.total_hyphens_replaced (turn_totals t stats n 0)
        = WordReplace.total_hyphens_replaced t)
  /\ (forall t, turn_totals t (WordReplace.zero_stats word_map) 0 0 = t)
  /\ (forall rest remove_parentheses replace_hyphens t w,
        unreadable w fp ->
        exists w',
          WordReplace.process_files (fp :: rest) word_map backup
            remove_parentheses replace_hyphens t w
          = WordReplace.process_files rest word_map backup
              remove_parentheses replace_hyphens t w'
          /\ files w' = files w).
Proof.
  pose proof (try_caught _ 0 (MsgFileError fp)
                (terminates_case_block str_lower str_upper fp to_lowercase backup)) as Hcase.
  pose proof (try_caught _ 0 (MsgFileError fp)
                (terminates_space_block alnum_beyond fp backup debug)) as Hspace.
  pose proof (try_caught _ (WordReplace.zero_stats word_map) (MsgFileError fp)
                (terminates_words_block fp word_map backup)) as Hwords.
  pose proof (try_caught _ 0 (MsgParenError fp)
                (terminates_parens_block fp backup)) as Hparens.
  pose proof (try_caught _ 0%Z (MsgHyphenError fp)
                (terminates_hyphens_block fp backup)) as Hhyphens.
  split; [exact Hcase|]. split; [exact Hspace|]. split; [exact Hwords|].
  split; [exact Hparens|]. split; [exact Hhyphens|].
  split; [intros; now apply case_loop_skips|].
  split; [intros; now apply space_loop_skips|].
  split; [|split; [|split; [|split; [|split]]]].
  - intros rp rh t w.
    destruct (process_file_turn fp word_map backup rp rh t w)
      as (stats & n & h & w1 & w2 & w3 & Hturn).
    exists stats, n, h, w1, w2, w3. split; [exact Hturn|].
    destruct Hturn as (H1 & H2 & H3 & Hrun).
    split; [|split; [|split]].
    + intros rest. cbn [WordReplace.process_files]. now rewrite bind_run, Hrun.
    + intros e wx Hne Hb. rewrite Hne in H1.
      exact (caught_zero _ _ _ _ _ _ _ _ _ Hwords Hb H1).
    + intros e wx -> Hb. exact (caught_zero _ _ _ _ _ _ _ _ _ Hparens Hb H2).
    + intros e wx -> Hb. exact (caught_zero _ _ _ _ _ _ _ _ _ Hhyphens Hb H3).
  - intros t n h. unfold turn_totals. cbv zeta. rewrite sum_zero_stats.
    change (0 <? 0) with false. cbn [WordReplace.total_replacements WordReplace.word_totals].
    now rewrite Nat.add_0_r.
  - intros t stats h. unfold turn_totals. cbn [WordReplace.total_parentheses_removed].
    apply Nat.add_0_r.
  - intros t stats n. reflexivity.
  - intros t. apply turn_totals_zero.
  - intros rest rp rh t w Hu.
    destruct (words_turn_unreadable w fp word_map backup rp rh t Hu) as (w' & Hr & Hf).
    exists w'. split; [|exact Hf].
    cbn [WordReplace.process_files]. now rewrite bind_run, Hr.
Qed.

(** The word map of a template that [re.sub] refuses: the replacement
    reads as a reference to group 12. *)
Example digits_after_group :
  WordReplace.replace_words [(str "deux", str "2")] [(str "deux", 0)]
    (text_field (str "deux"))
  = inl (InvalidGroupReference 12).
Proof. vm_compute. reflexivity. Qed.

Lemma exceptions_are_caught_witness :
  let w := one_file "a.TextGrid" (text_field (str "deux")) in
  let block := WordReplace.correct_words_block "a.TextGrid" [(str "deux", str "2")] true in
  WordReplace.correct_words_in_textgrid "a.TextGrid" [(str "deux", str "2")] true w
  = (Val [(str "deux", 0)],
     put_line (MsgFileError "a.TextGrid" (ReError (InvalidGroupReference 12)))
       (snd (block w))).
Proof.
  intros w block.
  destruct (exceptions_are_caught_per_file (fun t => t) (fun t => t) (fun _ => false)
              "a.TextGrid" true true false [(str "deux", str "2")])
    as (_ & _ & [_ H] & _).
  apply (H w (ReError (InvalidGroupReference 12)) (snd (block w))).
  vm_compute. reflexivity.
Defined.

(** C9 fails in the word tool for a file on which one operation fails
    and another does not: with the pair deux, 2 the word step ends in
    [re.error] on every file, its error is printed for the file, and
    parenthesis stripping on the same file still counts: the file adds
    one to the modified files and one to the parentheses removed. *)
Lemma failing_file_still_counts :
  let w := one_file "a.TextGrid" (text_field (str "id(le)")) in
  let t := WordReplace.Totals 0 0 0 0%Z [(str "deux", 0)] in
  let r := WordReplace.process_file "a.TextGrid" [(str "deux", str "2")]
             true true false t w in
  fst (WordReplace.correct_words_block "a.TextGrid" [(str "deux", str "2")] true w)
  = Exc (ReError (InvalidGroupReference 12))
  /\ fst r = Val (WordReplace.Totals 1 0 1 0%Z [(str "deux", 0)])
  /\ console (snd r)
     = [MsgFileError "a.TextGrid" (ReError (InvalidGroupReference 12));
        MsgParenModified "a.TextGrid" 1]
  /\ files (snd r) !! "a.TextGrid" = Some (Utf8 (text_field (str "id"))).
Proof. vm_compute. auto. Qed.

(* ===================================================================== *)
(** * What the hyphen count counts *)
(* ===================================================================== *)

(** C4, at the field est_ce_que: two underscores become spaces and the
    operation reports 1.  The count is [occurrences - remaining], and
    [re.findall] finds one match per field that has a hyphen or an
    underscore, not one per character. *)
Theorem hyphen_count_is_per_field :
  let before := text_field (str "est_ce_que") in
  let r := WordReplace.replace_hyphens_underscores "a.TextGrid" true
             (one_file "a.TextGrid" before) in
  fst r = Val 1%Z
  /\ files (snd r) !! "a.TextGrid" = Some (Utf8 (text_field (str "est ce que")))
  /\ count_hu before = 2
  /\ findall_len WordReplace.pattern_hyphen before = 1.
Proof. vm_compute. auto. Qed.

(* ===================================================================== *)
(** * Parentheses that do not close in their field *)
(* ===================================================================== *)

(** C6, at two fields of which the first opens a parenthesis and the
    second closes it: the span removed runs from the first value over its
    closing quote and the opening of the second field into the second
    value, and one field is left of the two.  On the field id(le) the
    operation leaves id and reports 1. *)
Theorem parenthesis_span_leaves_the_field :
  let before := text_field (str "a(b") ++ newline :: text_field (str "c)d") in
  let r := WordReplace.remove_parentheses_content "a.TextGrid" true
             (one_file "a.TextGrid" before) in
  let r' := WordReplace.remove_parentheses_content "a.TextGrid" true
              (one_file "a.TextGrid" (text_field (str "id(le)"))) in
  fst r = Val 1
  /\ files (snd r) !! "a.TextGrid" = Some (Utf8 (text_field (str "ad")))
  /\ fst r' = Val 1
  /\ files (snd r') !! "a.TextGrid" = Some (Utf8 (text_field (str "id"))).
Proof. vm_compute. auto. Qed.

(* ===================================================================== *)
(** * Facts: word replacement *)
(* ===================================================================== *)

Lemma tparse_chars c rest :
  forallb (not_char backslash) c = true ->
  tparse 2 TNormal (c ++ rest)
  = match tparse 2 TNormal rest with
    | inl e => inl e
    | inr its => inr (List.map TChar c ++ its)
    end.
Proof.
  intros Hc. induction c as [|x c IH]; cbn [app List.map].
  - destruct (tparse 2 TNormal rest); reflexivity.
  - cbn [forallb] in Hc. apply andb_prop in Hc as [Hx Hc].
    unfold not_char in Hx. apply negb_true_iff in Hx.
    cbn [tparse]. unfold tstep, tnormal. rewrite Hx. cbn iota beta.
    rewrite (IH Hc). destruct (tparse 2 TNormal rest); reflexivity.
Qed.

Lemma tparse_group2 : tparse 2 TNormal (str "\2") = inr [TGroup 2].
Proof. vm_compute. reflexivity. Qed.

(** The template of a plain word: group 1, the word, group 2. *)
Lemma parse_plain c :
  plain_word c = true ->
  parse_template 2 (WordReplace.replacement c)
  = inr (TGroup 1 :: List.map TChar c ++ [TGroup 2]).
Proof.
  unfold plain_word, parse_template, WordReplace.replacement. intros H.
  apply andb_prop in H as [Hc Hd].
  replace (str "\1") with [backslash; 49%N] by (vm_compute; reflexivity).
  destruct c as [|x c].
  - vm_compute. reflexivity.
  - cbn [forallb] in Hc. apply andb_prop in Hc as [Hx Hc].
    unfold not_char in Hx. apply negb_true_iff in Hx. apply negb_true_iff in Hd.
    cbn [app tparse].
    replace (tstep 2 TNormal backslash) with (@inr re_error _ (@nil titem, TEsc))
      by (vm_compute; reflexivity).
    cbn [tparse].
    replace (tstep 2 TEsc 49%N) with (@inr re_error _ (@nil titem, TDig1 49%N))
      by (vm_compute; reflexivity).
    cbn [tparse]. unfold tstep. rewrite Hd.
    unfold after, tnormal. rewrite Hx.
    change (addgroup 2 (decimal [49%N])) with (@inr re_error (list titem) [TGroup 1]).
    cbn iota beta.
    rewrite (tparse_chars c _ Hc), tparse_group2. reflexivity.
Qed.

Lemma expand_chars c its m : expand (List.map TChar c ++ its) m = c ++ expand its m.
Proof. induction c as [|x c IH]; simpl; congruence. Qed.

Lemma expand_plain c m :
  expand (TGroup 1 :: List.map TChar c ++ [TGroup 2]) m
  = group (groups m) 1 ++ c ++ group (groups m) 2.
Proof.
  cbn [expand]. rewrite expand_chars. cbn [expand]. now rewrite app_nil_r.
Qed.

Lemma word_pattern_min_len wrong : 0 < min_len (WordReplace.word_pattern wrong).
Proof. unfold WordReplace.word_pattern. cbn [min_len]. vm_compute min_len at 1. lia. Qed.

Lemma word_hit_shape wrong m s :
  match_here (WordReplace.word_pattern wrong) s = Some m ->
  exists o,
    whole m = o ++ wrong ++ [quote]
    /\ group (groups m) 1 = o /\ group (groups m) 2 = [quote]
    /\ is_field_open o.
Proof.
  intros H. apply match_here_sound in H as (s' & _ & H).
  destruct m as [w cs]. cbn [whole groups] in *.
  unfold WordReplace.word_pattern in H. den_fields.
  eexists. split; [reflexivity|]. cbn [group Nat.eqb]. auto.
Qed.

Lemma sub_word_exact wrong correct s s' :
  forallb (not_char quote) wrong = true ->
  sub (WordReplace.word_pattern wrong) 2 (WordReplace.replacement correct) s = inr s' ->
  exact_rewrite wrong correct s s'.
Proof.
  intros Hq. unfold sub.
  destruct (parse_template 2 (WordReplace.replacement correct))
    as [e|its] eqn:Hp; [discriminate|].
  intros H. injection H as <-. unfold sub_fn.
  pose proof (scan_tiling _ (word_pattern_min_len wrong) s) as Ht.
  induction Ht as [|c s ps Hm Ht IH|m s ps Hm Hne Ht IH]; cbn [render].
  - constructor.
  - now constructor.
  - apply word_hit_shape in Hm as (o & Hw & H1 & H2 & Ho).
    rewrite Hw, <- !app_assoc. cbn [app].
    apply er_swap; [assumption|assumption| |assumption].
    intros Hplain. rewrite (parse_plain _ Hplain) in Hp. injection Hp as <-.
    rewrite expand_plain. congruence.
Qed.

Lemma replace_words_chain items : forall stats s stats' s',
  quote_free_words items = true ->
  WordReplace.replace_words items stats s = inr (stats', s') ->
  rewrite_chain items s s'.
Proof.
  induction items as [|[wrong correct] rest IH]; intros stats s stats' s' Hq H.
  - cbn in H. injection H as _ <-. constructor.
  - cbn [quote_free_words forallb fst] in Hq. apply andb_prop in Hq as [Hw Hq].
    cbn [WordReplace.replace_words] in H. cbv zeta in H.
    destruct (sub (WordReplace.word_pattern wrong) 2
                (WordReplace.replacement correct) s) as [e|mid] eqn:Hs; [discriminate|].
    econstructor; [eapply sub_word_exact; eassumption|]. eapply IH; eassumption.
Qed.

(** Without a field whose whole value is [wrong], nothing is rewritten. *)
Lemma sub_word_none wrong correct content content' :
  sub (WordReplace.word_pattern wrong) 2 (WordReplace.replacement correct) content
  = inr content' ->
  (forall pre o post, is_field_open o -> content <> pre ++ o ++ wrong ++ quote :: post) ->
  content' = content.
Proof.
  unfold sub. destruct (parse_template 2 (WordReplace.replacement correct))
    as [e|its]; [discriminate|].
  intros H Hno. injection H as <-. unfold sub_fn.
  pose proof (scan_tiling _ (word_pattern_min_len wrong) content) as Ht.
  eapply tiling_no_hit; [exact Ht|].
  destruct (hits (scan (WordReplace.word_pattern wrong) content 0)) as [|m l] eqn:Hh;
    [reflexivity|exfalso].
  destruct (tiling_hit_inv _ _ _ m Ht) as (pre & post & Es & Hm);
    [rewrite Hh; now left|].
  apply word_hit_shape in Hm as (o & Hw & _ & _ & Ho).
  apply (Hno pre o post Ho). rewrite Es, Hw, <- !app_assoc. reflexivity.
Qed.

(** A wrong word with a double quote in it rewrites no field at all in
    the sense of [exact_rewrite]. *)
Lemma exact_rewrite_quoted wrong correct s s' :
  forallb (not_char quote) wrong = false -> exact_rewrite wrong correct s s' -> s' = s.
Proof.
  intros Hq. induction 1 as [|c s s' H IH|o new s s' Ho Hw Hnew H IH].
  - reflexivity.
  - now rewrite IH.
  - congruence.
Qed.

(* ===================================================================== *)
(** * Word replacement touches whole values only *)
(* ===================================================================== *)

(** C3, as the code has it.  With a word map whose wrong words hold no
    double quote, word replacement rewrites a file only at text fields
    whose whole value, from quote to quote, is a mapped wrong word: the
    content it writes comes from the content it read by rewriting such
    fields, one pair of the map after the other, and keeping every other
    character; with a plain correct word the field gets that word as its
    value.  Whatever the wrong word is, where no field opening is
    followed by the word and a double quote, a substitution changes
    nothing, also when the word occurs inside values: with the pair le,
    la the field lent stays and the field le becomes la. *)
Theorem word_replacement_is_exact :
  (forall word_map stats content stats' content',
     quote_free_words word_map = true ->
     WordReplace.replace_words word_map stats content = inr (stats', content') ->
     rewrite_chain word_map content content')
  /\ (forall w fp word_map backup,
        quote_free_words word_map = true ->
        let w' := snd (WordReplace.correct_words_in_textgrid fp word_map backup w) in
        files w' !! fp = files w !! fp
        \/ exists content content',
             files w !! fp = Some (Utf8 content)
             /\ files w' !! fp = Some (Utf8 content')
             /\ rewrite_chain word_map content content')
  /\ (forall wrong correct content content',
        sub (WordReplace.word_pattern wrong) 2 (WordReplace.replacement correct) content
        = inr content' ->
        (forall pre o post,
           is_field_open o -> content <> pre ++ o ++ wrong ++ quote :: post) ->
        content' = content)
  /\ WordReplace.replace_words [(str "le", str "la")] [(str "le", 0)]
       (text_field (str "le") ++ newline :: text_field (str "lent"))
     = inr ([(str "le", 1)],
            text_field (str "la") ++ newline :: text_field (str "lent")).
Proof.
  split; [intros; eapply replace_words_chain; eassumption|].
  split; [|split].
  - intros w fp word_map backup Hq.
    unfold WordReplace.correct_words_in_textgrid, WordReplace.correct_words_block.
    io_cases; world_simpl;
      rewrite ?(lookup_insert_ne _ _ _ _ (bak_neq _));
      first
        [ left; first [reflexivity|assumption]
        | right; eexists _, _; split; [reflexivity|]; split;
          [apply lookup_insert_eq|];
          match goal with
          | H : WordReplace.replace_words _ _ _ = inr ?p |- _ =>
              destruct p; eapply replace_words_chain; [exact Hq|exact H]
          end ].
  - intros wrong correct content content' Hs Hno.
    eapply sub_word_none; eassumption.
  - vm_compute. reflexivity.
Qed.

Lemma word_replacement_witness :
  rewrite_chain [(str "le", str "la")]
    (text_field (str "le") ++ newline :: text_field (str "lent"))
    (text_field (str "la") ++ newline :: text_field (str "lent")).
Proof.
  destruct word_replacement_is_exact as (H & _ & _ & E).
  exact (H [(str "le", str "la")] _ _ _ _ eq_refl E).
Defined.

(** C3 fails for a wrong word with a double quote in it.  The word
    le, quote, space, field opening, la matches from inside the first of
    the fields le and la to inside the second: both fields are rewritten
    into one, though the value of neither is the wrong word. *)
Lemma quoted_wrong_word_merges_fields :
  let content := text_field (str "le") ++ space :: text_field (str "la") in
  field_value content (str "le") /\ field_value content (str "la")
  /\ le_quote_la <> str "le" /\ le_quote_la <> str "la"
  /\ WordReplace.replace_words [(le_quote_la, str "X")] [(le_quote_la, 0)] content
     = inr ([(le_quote_la, 1)], text_field (str "X"))
  /\ ~ rewrite_chain [(le_quote_la, str "X")] content (text_field (str "X")).
Proof.
  cbv zeta. split; [|split; [|split; [|split; [|split]]]].
  - exists [], (field_opening [space] [space]), (space :: text_field (str "la")).
    split; [reflexivity|]. split; [|reflexivity].
    exists [space], [space]. auto.
  - exists (text_field (str "le") ++ [space]), (field_opening [space] [space]), [].
    split; [reflexivity|]. split; [|reflexivity].
    exists [space], [space]. auto.
  - discriminate.
  - discriminate.
  - vm_compute. reflexivity.
  - intros H. inversion H as [|wrong correct rest a b c Hab Hbc]; subst.
    inversion Hbc; subst.
    apply exact_rewrite_quoted in Hab; [|reflexivity].
    vm_compute in Hab. discriminate.
Qed.

(* ===================================================================== *)
(** * Facts: what is counted *)
(* ===================================================================== *)

(** ** Case conversion *)

Lemma case_pattern_min_len : 0 < min_len CaseConverter.pattern.
Proof. vm_compute. lia. Qed.

Lemma case_hit_shape m s :
  match_here CaseConverter.pattern s = Some m ->
  exists o v,
    whole m = o ++ v ++ [quote]
    /\ group (groups m) 1 = o /\ group (groups m) 2 = v
    /\ group (groups m) 3 = [quote]
    /\ is_field_open o /\ forallb (not_char quote) v = true.
Proof.
  intros H. apply match_here_sound in H as (s' & _ & H).
  destruct m as [w cs]. cbn [whole groups] in *.
  unfold CaseConverter.pattern in H. den_fields.
  eexists _, _. split; [reflexivity|]. cbn [group Nat.eqb]. auto.
Qed.


Lemma filter_none {A} (p : A -> bool) l :
  (forall x, In x l -> p x = false) -> List.filter p l = [].
Proof.
  induction l as [|x l IH]; intros H; simpl; [reflexivity|].
  rewrite (H x) by (left; reflexivity). apply IH. intros y Hy. apply H. now right.
Qed.


(** ** Parenthesis stripping *)

Lemma sub_paren s :
  sub WordReplace.paren_pattern 2 (str "\1\2") s
  = inr (sub_fn WordReplace.paren_pattern paren_repl s).
Proof.
  unfold sub.
  replace (parse_template 2 (str "\1\2"))
    with (@inr re_error _ [TGroup 1; TGroup 2])
    by (vm_compute; reflexivity).
  f_equal. apply render_ext. intros m. unfold paren_repl. simpl.
  now rewrite app_nil_r.
Qed.

Lemma paren_pattern_min_len : 0 < min_len WordReplace.paren_pattern.
Proof. vm_compute. lia. Qed.

Lemma paren_hit_shape m s :
  match_here WordReplace.paren_pattern s = Some m ->
  exists g1 inner g2,
    whole m = g1 ++ lparen :: inner ++ rparen :: g2
    /\ paren_repl m = g1 ++ g2.
Proof.
  intros H. apply match_here_sound in H as (s' & _ & H).
  destruct m as [w cs]. cbn [whole groups] in *.
  unfold WordReplace.paren_pattern in H. den_fields.
  unfold paren_repl. cbn [groups group Nat.eqb].
  match goal with
  | |- context [(?a ++ ?b) ++ [lparen] ++ ?i ++ [rparen] ++ ?g2] =>
      exists (a ++ b), i, g2
  end.
  split; reflexivity.
Qed.

(** A pass that removes a span makes the text shorter. *)
Lemma paren_pass_shorter s ps :
  tiling WordReplace.paren_pattern s ps -> hits ps <> [] ->
  length (render paren_repl ps) < length s.
Proof.
  intros Ht. assert (Hle : length (render paren_repl ps) <= length s
                     /\ (hits ps <> [] -> length (render paren_repl ps) < length s));
    [|tauto].
  induction Ht as [|c s ps Hm Ht [IH1 IH2]|m s ps Hm Hne Ht [IH1 IH2]];
    cbn [render hits length].
  - split; [lia|]. intros H. now destruct H.
  - split; [lia|]. intros H. specialize (IH2 H). lia.
  - apply paren_hit_shape in Hm as (g1 & inner & g2 & Hw & Hr).
    rewrite Hw, Hr. rewrite !length_app. cbn [length]. rewrite !length_app.
    cbn [length]. split; intros; lia.
Qed.

(** Where the substitution leaves the content as it is, nothing was
    counted. *)
Lemma paren_unchanged_count content :
  sub WordReplace.paren_pattern 2 (str "\1\2") content = inr content ->
  findall_len WordReplace.paren_pattern content = 0.
Proof.
  rewrite sub_paren. intros H. injection H as H. unfold sub_fn in H.
  unfold findall_len, finditer.
  destruct (hits (scan WordReplace.paren_pattern content 0)) eqn:Hh; [reflexivity|].
  exfalso.
  pose proof (paren_pass_shorter _ _ (scan_tiling _ paren_pattern_min_len content)) as Hs.
  rewrite Hh, H in Hs. specialize (Hs ltac:(discriminate)). lia.
Qed.

(** ** Hyphen and underscore folding *)

Lemma hyphen_unchanged_count content :
  sub WordReplace.pattern_hyphen 2 (str "\1 \2") content = inr content ->
  findall_len WordReplace.pattern_hyphen content = 0.
Proof.
  rewrite sub_hyphen. intros H. injection H as H. unfold sub_fn in H.
  destruct (hyphen_pass _ _ (scan_tiling _ pattern_hyphen_min_len content)) as [_ Hc].
  rewrite H in Hc. unfold findall_len, finditer. lia.
Qed.

(** ** Spacing before the final period *)

Lemma app_cons_split {A} (p1 : list A) : forall p2 x y t u,
  p1 ++ x :: t = p2 ++ y :: u ->
  (p1 = p2 /\ x = y /\ t = u)
  \/ (exists m, p2 = p1 ++ x :: m)
  \/ (exists m, p1 = p2 ++ y :: m).
Proof.
  induction p1 as [|a p1 IH]; intros [|b p2] x y t u H; simpl in H.
  - injection H as E1 E2. auto.
  - injection H as E1 E2. right. left. exists p2. simpl. congruence.
  - injection H as E1 E2. right. right. exists p1. simpl. congruence.
  - injection H as E1 H. destruct (IH _ _ _ _ _ H) as [(E2 & E3 & E4)|[[m E2]|[m E2]]].
    + left. repeat split; congruence.
    + right. left. exists m. simpl. congruence.
    + right. right. exists m. simpl. congruence.
Qed.

Lemma dot_to_space_neq a b : dot_to_space a b -> a <> b.
Proof.
  intros (p & t & t' & -> & ->) E. apply app_inv_head in E. discriminate.
Qed.

(** Two such passes in a row never give the first text back. *)
Lemma dot_to_space_twice a b c :
  dot_to_space a b -> b = c \/ dot_to_space b c -> a <> c.
Proof.
  intros Hab [<-|Hbc]; [now apply dot_to_space_neq|].
  destruct Hab as (p1 & t1 & t1' & -> & ->).
  destruct Hbc as (p2 & t2 & t2' & Hb & ->). intros Hac.
  destruct (app_cons_split _ _ _ _ _ _ Hb) as [(_ & E & _)|[[m ->]|[m ->]]].
  - discriminate.
  - rewrite <- app_assoc in Hac. apply app_inv_head in Hac. discriminate.
  - rewrite <- app_assoc in Hac. apply app_inv_head in Hac. discriminate.
Qed.

Lemma pass_dot_to_space r f s ps :
  tiling r s ps ->
  (forall m s', match_here r (whole m ++ s') = Some m -> dot_to_space (whole m) (f m)) ->
  hits ps <> [] ->
  dot_to_space s (render f ps).
Proof.
  intros Ht Hf. induction Ht as [|c s ps Hm Ht IH|m s ps Hm Hne Ht IH];
    cbn [hits render]; intros Hh.
  - contradiction.
  - destruct (IH Hh) as (p & t & t' & -> & ->). exists (c :: p), t, t'. auto.
  - destruct (Hf _ _ Hm) as (p & t & t' & -> & ->).
    exists p, (t ++ s), (t' ++ render f ps). rewrite <- !app_assoc. auto.
Qed.

Section SpacingFacts.
Variable alnum : char -> bool.

Lemma pattern1_min_len : 0 < min_len (SpaceFinalDot.pattern1 alnum).
Proof. vm_compute. lia. Qed.

Lemma pattern2_min_len : 0 < min_len (SpaceFinalDot.pattern2 alnum).
Proof. vm_compute. lia. Qed.

Lemma pattern1_hit m s :
  match_here (SpaceFinalDot.pattern1 alnum) s = Some m ->
  dot_to_space (whole m) (SpaceFinalDot.add_space_before_dot1 m).
Proof.
  intros H. apply match_here_sound in H as (s' & _ & H).
  destruct m as [w cs]. cbn [whole groups] in *.
  unfold SpaceFinalDot.pattern1 in H. den_fields.
  unfold SpaceFinalDot.add_space_before_dot1. cbn [groups group Nat.eqb].
  change (str " .") with [space; dot].
  eexists _, _, _. split; reflexivity.
Qed.

Lemma pattern2_hit m s :
  match_here (SpaceFinalDot.pattern2 alnum) s = Some m ->
  dot_to_space (whole m) (SpaceFinalDot.add_space_before_dot2 m).
Proof.
  intros H. apply match_here_sound in H as (s' & _ & H).
  destruct m as [w cs]. cbn [whole groups] in *.
  unfold SpaceFinalDot.pattern2, Plus in H. den_fields.
  unfold SpaceFinalDot.add_space_before_dot2. cbn [groups group Nat.eqb].
  change (str " .") with [space; dot].
  eexists _, _, _. split; reflexivity.
Qed.

(** Where the two substitutions leave the content as it is, neither
    pattern was counted. *)
Lemma space_unchanged_counts content :
  SpaceFinalDot.fixed_content alnum content = content ->
  findall_len (SpaceFinalDot.pattern1 alnum) content = 0
  /\ findall_len (SpaceFinalDot.pattern2 alnum) content = 0.
Proof.
  unfold SpaceFinalDot.fixed_content, sub_fn, findall_len, finditer. intros H.
  pose proof (scan_tiling _ pattern1_min_len content) as Ht1.
  set (ps1 := scan (SpaceFinalDot.pattern1 alnum) content 0) in *.
  set (s1 := render SpaceFinalDot.add_space_before_dot1 ps1) in *.
  pose proof (scan_tiling _ pattern2_min_len s1) as Ht2.
  set (ps2 := scan (SpaceFinalDot.pattern2 alnum) s1 0) in *.
  assert (H2 : s1 = render SpaceFinalDot.add_space_before_dot2 ps2
               \/ dot_to_space s1 (render SpaceFinalDot.add_space_before_dot2 ps2)).
  { destruct (hits ps2) eqn:Hh.
    - left. symmetry. eapply tiling_no_hit; eassumption.
    - right. eapply pass_dot_to_space; [eassumption| |rewrite Hh; discriminate].
      intros m s' Hm. eapply pattern2_hit; eassumption. }
  assert (H1 : hits ps1 = []).
  { destruct (hits ps1) eqn:Hh; [reflexivity|]. exfalso.
    apply (dot_to_space_twice content s1 _) in H2; [now apply H2|].
    eapply pass_dot_to_space; [eassumption| |rewrite Hh; discriminate].
    intros m s' Hm. eapply pattern1_hit; eassumption. }
  rewrite H1. split; [reflexivity|].
  assert (E : s1 = content) by (eapply tiling_no_hit; eassumption).
  subst ps2. rewrite E in *. destruct H2 as [H2|H2].
  - destruct (hits (scan (SpaceFinalDot.pattern2 alnum) content 0)) eqn:Hh;
      [reflexivity|]. exfalso.
    eapply dot_to_space_neq; [|symmetry; exact H].
    eapply pass_dot_to_space; [eassumption| |rewrite Hh; discriminate].
    intros m s' Hm. eapply pattern2_hit; eassumption.
  - exfalso. eapply dot_to_space_neq; [exact H2|]. symmetry. exact H.
Qed.
End SpacingFacts.

(* ===================================================================== *)
(** * Unchanged fields are not counted and cause no write *)
(* ===================================================================== *)

Ltac unwritten_done :=
  try discriminate;
  world_simpl; split; [reflexivity|]; split;
  [ rewrite ?(lookup_insert_ne _ _ _ _ (bak_neq _)); first [reflexivity|assumption]
  | let evs := fresh "evs" in let Hev := fresh "Hev" in let Hin := fresh "Hin" in
    intros evs Hev; rewrite <- ?app_assoc in Hev; apply app_inv_head in Hev;
    subst evs; simpl; intros Hin;
    repeat match goal with
      | H : _ \/ _ |- _ => destruct H
      | H : False |- _ => destruct H
      | H : EvOpenWrite _ = EvOpenWrite _ |- _ =>
          injection H; intros Hin; exact (bak_neq _ Hin)
      | H : _ = EvOpenWrite _ |- _ => discriminate H
      end ].




Lemma hyphens_unwritten fp backup w content :
  files w !! fp = Some (Utf8 content) ->
  sub WordReplace.pattern_hyphen 2 (str "\1 \2") content = inr content ->
  leaves_unwritten (WordReplace.replace_hyphens_underscores fp backup) fp 0%Z w.
Proof.
  intros Hfile Hsame. pose proof (hyphen_unchanged_count _ Hsame) as Hc.
  assert (Hloop : forall w1,
    WordReplace.fold_hyphens (S (length content)) content w1 = (Val content, w1)).
  { intros w1. cbn [WordReplace.fold_hyphens]. rewrite bind_run, Hsame.
    cbn [lift_re]. unfold ret. now rewrite text_eqb_refl. }
  unfold leaves_unwritten, WordReplace.replace_hyphens_underscores,
    WordReplace.replace_hyphens_block.
  rewrite try_except_run, bind_run, (read_file_some _ _ _ Hfile).
  cbn beta iota zeta.
  repeat first
    [ rewrite Hloop; cbn beta iota zeta; rewrite ?Hc;
      change (0 <? Z.of_nat 0 - Z.of_nat 0)%Z with false; cbn beta iota zeta
    | io_step ];
  unwritten_done.
Qed.


(* ===================================================================== *)
(** * Word lists of different lengths *)
(* ===================================================================== *)

Lemma returns_ret {A} (a : A) : returns (ret a).
Proof. intros w. eauto. Qed.

Lemma returns_bind {A B} (c : io A) (f : A -> io B) :
  returns c -> (forall a, returns (f a)) -> returns (bind c f).
Proof.
  intros Hc Hf w. rewrite bind_run. destruct (Hc w) as (a & w' & ->). apply Hf.
Qed.

Lemma returns_print m : returns (print m).
Proof. intros w. eexists _, _. reflexivity. Qed.

Lemma returns_when b c : returns c -> returns (when b c).
Proof. destruct b; simpl; auto using @returns_ret. Qed.

Lemma returns_find d r : returns (find_textgrids d r).
Proof. intros w. eexists _, _. reflexivity. Qed.

Lemma returns_if {A} (b : bool) (c1 c2 : io A) :
  returns c1 -> returns c2 -> returns (if b then c1 else c2).
Proof. now destruct b. Qed.

Ltac io_returns :=
  repeat first
    [ apply returns_ret | apply returns_print | apply returns_find
    | apply words_returns | apply parens_returns | apply hyphens_returns
    | apply returns_when | apply returns_if | apply returns_bind | intro ].

Lemma process_file_returns fp word_map backup rp rh t :
  returns (WordReplace.process_file fp word_map backup rp rh t).
Proof.
  unfold WordReplace.process_file.
  apply returns_bind.
  { destruct word_map; io_returns. }
  intros [m1 t1]. apply returns_bind; [io_returns|].
  intros [m2 t2]. apply returns_bind; [io_returns|].
  intros [m3 t3]. io_returns.
Qed.

Lemma process_files_returns fps word_map backup rp rh :
  forall t, returns (WordReplace.process_files fps word_map backup rp rh t).
Proof.
  induction fps as [|fp fps IH]; intros t; cbn [WordReplace.process_files].
  - apply returns_ret.
  - apply returns_bind; [apply process_file_returns|]. intros t'. apply IH.
Qed.

Lemma process_loaded_returns d word_map recursive backup rp rh :
  returns (WordReplace.process_loaded d word_map recursive backup rp rh).
Proof.
  unfold WordReplace.process_loaded. apply returns_bind; [apply returns_find|].
  intros [|fp fps]; [apply returns_print|].
  apply returns_bind; [apply returns_print|]. intros _.
  apply returns_bind; [apply process_files_returns|]. intros t. io_returns.
Qed.

Lemma given_some s : s <> EmptyString -> WordReplace.given (Some s) = true.
Proof.
  intros H. unfold WordReplace.given. apply negb_true_iff.
  now apply String.eqb_neq.
Qed.

Lemma load_mismatch w ww cw wc cc :
  files w !! ww = Some (Utf8 wc) -> files w !! cw = Some (Utf8 cc) ->
  length (WordReplace.stripped_lines wc) <> length (WordReplace.stripped_lines cc) ->
  WordReplace.load_word_lists ww cw w
  = (Val [], put_line (MsgWordListError WordReplace.length_mismatch)
               (log (EvOpenRead cw) (log (EvOpenRead ww) w))).
Proof.
  intros Hw Hc Hlen. unfold WordReplace.load_word_lists.
  rewrite try_except_run, bind_run, (read_file_some _ _ _ Hw).
  rewrite bind_run, (read_file_some cw cc) by exact Hc.
  apply Nat.eqb_neq in Hlen. rewrite Hlen. reflexivity.
Qed.

Lemma main_mismatch w a ww cw :
  lists_mismatch w a ww cw ->
  WordReplace.main a w
  = bind
      (if negb (WordReplace.remove_parentheses a) && negb (WordReplace.replace_hyphens a)
       then print MsgCannotContinue
       else bind (print (MsgCorrespondences []))
              (fun _ =>
                 WordReplace.process_loaded (WordReplace.directory a) []
                   (WordReplace.recursive a) (negb (WordReplace.no_backup a))
                   (WordReplace.remove_parentheses a) (WordReplace.replace_hyphens a)))
      (fun _ => ret 0)
      (after_failed_load w a ww cw).
Proof.
  intros (Hdir & Hww & Hcw & Hwne & Hcne & wc & cc & Hw & Hc & Hlen).
  destruct a as [dir wwo cwo rec nb rp rh]. cbn in Hdir, Hww, Hcw. subst wwo cwo.
  unfold WordReplace.main, after_failed_load.
  cbn [WordReplace.directory WordReplace.wrong_words WordReplace.correct_words
       WordReplace.recursive WordReplace.no_backup WordReplace.remove_parentheses
       WordReplace.replace_hyphens WordReplace.path_of].
  rewrite !(given_some _ Hwne), !(given_some _ Hcne).
  rewrite bind_run. unfold isdir at 1. rewrite (bool_decide_eq_true_2 _ Hdir).
  cbn [negb andb orb]. rewrite bind_run. unfold isfile at 1.
  cbn [files log].
  rewrite bool_decide_eq_true_2 by (rewrite Hw; eauto).
  cbn [negb]. rewrite bind_run. unfold isfile at 1. cbn [files log].
  rewrite bool_decide_eq_true_2 by (rewrite Hc; eauto).
  cbn [negb andb]. unfold WordReplace.process_directory, WordReplace.load_step.
  rewrite !(given_some _ Hwne), !(given_some _ Hcne). cbn [andb WordReplace.path_of].
  rewrite !bind_run.
  rewrite (load_mismatch _ ww cw wc cc) by assumption.
  cbn [WordReplace.is_empty andb].
  destruct rp, rh; reflexivity.
Qed.

(** C2, as the code has it.  When the two word lists have different
    numbers of non-empty lines, [load_word_lists] reports it on the
    console and gives an empty map.  With neither parenthesis stripping
    nor hyphen folding asked for, the tool then prints that it cannot
    continue and ends with exit code 0, having touched no file but the
    two lists; with one of them asked for, it goes on to the TextGrid
    files with the empty map, and also ends with exit code 0. *)
Theorem mismatched_lists_do_not_abort (w : world) (a : WordReplace.args)
    (ww cw : string) :
  lists_mismatch w a ww cw ->
  (WordReplace.remove_parentheses a = false ->
   WordReplace.replace_hyphens a = false ->
   WordReplace.main a w
   = (Val 0, put_line MsgCannotContinue (after_failed_load w a ww cw)))
  /\ (WordReplace.remove_parentheses a = true \/ WordReplace.replace_hyphens a = true ->
      exists w',
        WordReplace.main a w = (Val 0, w')
        /\ WordReplace.process_loaded (WordReplace.directory a) []
             (WordReplace.recursive a) (negb (WordReplace.no_backup a))
             (WordReplace.remove_parentheses a) (WordReplace.replace_hyphens a)
             (put_line (MsgCorrespondences []) (after_failed_load w a ww cw))
           = (Val tt, w')).
Proof.
  intros H. rewrite (main_mismatch _ _ _ _ H). split.
  - intros -> ->. reflexivity.
  - intros Hflag.
    assert (E : negb (WordReplace.remove_parentheses a)
                && negb (WordReplace.replace_hyphens a) = false).
    { destruct Hflag as [-> | ->]; [reflexivity|apply andb_false_r]. }
    rewrite E, !bind_run. cbn [print fst snd].
    destruct (process_loaded_returns (WordReplace.directory a) []
                (WordReplace.recursive a) (negb (WordReplace.no_backup a))
                (WordReplace.remove_parentheses a) (WordReplace.replace_hyphens a)
                (put_line (MsgCorrespondences []) (after_failed_load w a ww cw)))
      as ([] & w' & Hrun).
    unfold print. cbn beta iota. rewrite Hrun. exists w'. split; reflexivity.
Qed.

Lemma mismatch_world_mismatch rp :
  lists_mismatch mismatch_world (mismatch_args rp) "w.txt" "c.txt".
Proof.
  split; [vm_compute; reflexivity|].
  split; [reflexivity|]. split; [reflexivity|].
  split; [discriminate|]. split; [discriminate|].
  eexists _, _. split; [reflexivity|]. split; [reflexivity|].
  vm_compute. discriminate.
Defined.

Lemma mismatched_lists_witness :
  WordReplace.main (mismatch_args false) mismatch_world
  = (Val 0, put_line MsgCannotContinue
              (after_failed_load mismatch_world (mismatch_args false) "w.txt" "c.txt")).
Proof.
  apply (proj1 (mismatched_lists_do_not_abort mismatch_world (mismatch_args false)
                  "w.txt" "c.txt" (mismatch_world_mismatch false)));
    reflexivity.
Defined.

(** C2 fails on the exit code and, with another action asked for, on the
    abort: the mismatch ends the run with code 0, and with
    [--remove-parentheses] the TextGrid file is rewritten all the same. *)
Lemma mismatched_lists_exit_zero :
  fst (WordReplace.main (mismatch_args false) mismatch_world) = Val 0
  /\ fst (WordReplace.main (mismatch_args false) mismatch_world) <> Val 1
  /\ fst (WordReplace.main (mismatch_args true) mismatch_world) = Val 0
  /\ files (snd (WordReplace.main (mismatch_args true) mismatch_world)) !! "d/a.TextGrid"
     = Some (Utf8 (text_field (str "id"))).
Proof.
  split; [vm_compute; reflexivity|].
  split; [vm_compute; discriminate|].
  split; vm_compute; reflexivity.
Qed.

(* ===================================================================== *)
(** * The theorems at work on small files *)
(* ===================================================================== *)

Lemma nothing_locked fp content p : p ∉ locked (one_file fp content).
Proof. intros H. vm_compute in H. discriminate. Defined.

Lemma hyphen_folding_witness :
  exists n w' final,
    WordReplace.replace_hyphens_underscores "a.TextGrid" true
      (one_file "a.TextGrid" (text_field (str "est_ce_que"))) = (Val n, w')
    /\ files w' !! "a.TextGrid" = Some (Utf8 final)
    /\ folded (text_field (str "est_ce_que")) final
    /\ forall v, field_value final v -> forall c, In c v -> is_hu c = false.
Proof.
  apply (proj1 (proj2 hyphen_folding_leaves_none)).
  - reflexivity.
  - apply nothing_locked.
  - apply nothing_locked.
Defined.

Lemma backup_written_witness :
  let w := one_file "a.TextGrid" (text_field (str "arbre")) in
  let op := WordReplace.remove_parentheses_content "a.TextGrid" true in
  files (snd (op w)) !! bak "a.TextGrid" = Some (Utf8 (text_field (str "arbre")))
  /\ exists rest,
       trace (snd (op w))
       = trace w ++ [EvOpenRead "a.TextGrid"; EvExists (bak "a.TextGrid");
                     EvOpenWrite (bak "a.TextGrid")] ++ rest.
Proof.
  intros w op.
  destruct (backup_written_before_any_change ascii_lower ascii_upper
              (fun _ => false) "a.TextGrid" true false [])
    as (_ & _ & H & _).
  apply H.
  - reflexivity.
  - reflexivity.
  - intros Hd. vm_compute in Hd. discriminate.
  - apply nothing_locked.
Defined.

(* ===================================================================== *)
(** * Facts: where a field opens *)
(* ===================================================================== *)

(** Brings nested appends to the form [a ++ b ++ c :: d]. *)
Ltac norm_app := repeat first [rewrite <- app_assoc | progress cbn [app]].
Ltac norm_app_in H :=
  repeat first [rewrite <- app_assoc in H | progress cbn [app] in H].

Lemma forallb_In {A} (p : A -> bool) l x : forallb p l = true -> In x l -> p x = true.
Proof. intros H. now apply forallb_forall. Qed.

(** The first element outside a class splits a list in one way only. *)
Lemma first_split (P : char -> bool) a x r a' x' r' :
  forallb P a = true -> forallb P a' = true -> P x = false -> P x' = false ->
  a ++ x :: r = a' ++ x' :: r' -> a = a' /\ x = x' /\ r = r'.
Proof.
  intros Ha Ha' Hx Hx' E.
  destruct (app_cons_split _ _ _ _ _ _ E) as [H|[[m H]|[m H]]]; [assumption| |]; exfalso.
  - rewrite H in Ha'. apply forallb_app_true in Ha' as [_ Hm]. simpl in Hm.
    rewrite Hx in Hm. discriminate.
  - rewrite H in Ha. apply forallb_app_true in Ha as [_ Hm]. simpl in Hm.
    rewrite Hx' in Hm. discriminate.
Qed.

(** So does the last one. *)
Lemma last_split (P : char -> bool) a x r a' x' r' :
  forallb P r = true -> forallb P r' = true -> P x = false -> P x' = false ->
  a ++ x :: r = a' ++ x' :: r' -> a = a' /\ x = x' /\ r = r'.
Proof.
  intros Hr Hr' Hx Hx' E.
  destruct (app_cons_split _ _ _ _ _ _ E) as [H|[[m H]|[m H]]]; [assumption| |]; exfalso.
  - rewrite H, <- app_assoc in E. apply app_inv_head in E. injection E as E.
    rewrite E in Hr. apply forallb_app_true in Hr as [_ Hm]. simpl in Hm.
    rewrite Hx' in Hm. discriminate.
  - rewrite H, <- app_assoc in E. apply app_inv_head in E. injection E as E.
    rewrite <- E in Hr'. apply forallb_app_true in Hr' as [_ Hm]. simpl in Hm.
    rewrite Hx in Hm. discriminate.
Qed.

Lemma space_not_quote c : is_space c = true -> not_char quote c = true.
Proof.
  intros H. unfold not_char. destruct (c =? quote)%N eqn:E; [|reflexivity].
  apply N.eqb_eq in E. subst. discriminate.
Qed.

Lemma spaces_not_quotes ws : forallb is_space ws = true -> forallb (not_char quote) ws = true.
Proof.
  intros H. apply forallb_forall. intros c Hc. apply space_not_quote.
  eapply forallb_In; eassumption.
Qed.

Lemma quote_is_quote : not_char quote quote = false.
Proof. reflexivity. Qed.

Lemma equals_not_space : is_space (ch "=") = false.
Proof. reflexivity. Qed.

Lemma t_not_space : is_space (ch "t") = false.
Proof. reflexivity. Qed.

Lemma dot_not_space : is_space dot = false.
Proof. reflexivity. Qed.

(** A field opening has one double quote, its last character. *)
Lemma opening_shape o :
  is_field_open o -> exists A, o = A ++ [quote] /\ forallb (not_char quote) A = true.
Proof.
  intros (ws1 & ws2 & -> & H1 & H2).
  exists (str "text" ++ ws1 ++ [ch "="] ++ ws2). split.
  - now rewrite <- !app_assoc.
  - rewrite !forallb_app. rewrite (spaces_not_quotes _ H1), (spaces_not_quotes _ H2).
    reflexivity.
Qed.

(** A text starts with one field opening at most. *)
Lemma opening_prefix_unique o o' x y :
  is_field_open o -> is_field_open o' -> o ++ x = o' ++ y -> o = o' /\ x = y.
Proof.
  intros Ho Ho' E.
  apply opening_shape in Ho as (A & -> & HA). apply opening_shape in Ho' as (A' & -> & HA').
  rewrite <- !app_assoc in E. simpl in E.
  destruct (first_split (not_char quote) _ _ _ _ _ _ HA HA' quote_is_quote quote_is_quote E)
    as (-> & _ & ->). auto.
Qed.

(** No field opening ends with a shorter one. *)
Lemma opening_suffix b o' : is_field_open (b ++ o') -> is_field_open o' -> b = [].
Proof.
  intros (ws1 & ws2 & E & H1 & H2) (ws1' & ws2' & -> & H1' & H2').
  assert (E2 : ((b ++ str "text" ++ ws1') ++ ch "=" :: ws2') ++ [quote]
               = ((str "text" ++ ws1) ++ ch "=" :: ws2) ++ [quote]).
  { norm_app. norm_app_in E. exact E. }
  apply app_inj_tail in E2 as [E2 _].
  destruct (last_split is_space _ _ _ _ _ _ H2' H2 equals_not_space equals_not_space E2) as (E3 & _ & _).
  assert (E4 : (b ++ str "tex") ++ ch "t" :: ws1' = str "tex" ++ ch "t" :: ws1).
  { rewrite <- app_assoc. exact E3. }
  destruct (last_split is_space _ _ _ _ _ _ H1' H1 t_not_space t_not_space E4) as (E5 & _ & _).
  apply (f_equal (@length char)) in E5. rewrite length_app in E5.
  destruct b; [reflexivity|]. simpl in E5. lia.
Qed.

Lemma field_open_min_len : 0 < min_len field_open.
Proof. vm_compute. lia. Qed.

(** Before a field opening [o], in a text [pre] in which [field_open]
    finds nothing, no field opening starts. *)
Lemma no_opening_before pre o tail pre1 pre2 :
  finditer field_open pre = [] -> is_field_open o ->
  pre = pre1 ++ pre2 -> pre2 <> [] ->
  ~ opens_at (pre2 ++ o ++ tail).
Proof.
  intros Hnone Ho -> Hne (o' & r & Ho' & E).
  assert (Hin : forall k, pre2 <> o' ++ k).
  { intros k ->. apply (scan_finds field_open o') with (pre := pre1) (post := k).
    - eapply den_lang. apply (field_open_den o' []). assumption.
    - exact Hnone. }
  apply app_eq_app in E as [k [[E1 E2]|[E1 E2]]]; [now apply (Hin k)|].
  destruct k as [|c k].
  - rewrite app_nil_r in E1. apply (Hin []). now rewrite app_nil_r.
  - pose proof Ho' as Hs. apply opening_shape in Hs as (A' & EA & HA').
    destruct (exists_last (l := c :: k) ltac:(discriminate)) as (k0 & x & Ek).
    rewrite Ek in E1, E2. rewrite EA, app_assoc in E1.
    apply app_inj_tail in E1 as [E1 <-].
    assert (Hk0 : forallb (not_char quote) k0 = true).
    { rewrite E1 in HA'. now apply forallb_app_true in HA' as [_ ?]. }
    pose proof Ho as Hs. apply opening_shape in Hs as (A & EA0 & HA).
    rewrite EA0 in E2. norm_app_in E2.
    destruct (first_split (not_char quote) _ _ _ _ _ _ HA Hk0
                quote_is_quote quote_is_quote E2) as (EAk & _ & _).
    apply Hne. apply (opening_suffix pre2 o); [|assumption].
    rewrite EA0, EAk, app_assoc, <- E1, <- EA. assumption.
Qed.

(** Inside a field that ends in a period, white space and the closing
    quote, no field opening starts. *)
Lemma no_opening_inside o Z ws b1 p2 rest :
  is_field_open o -> forallb (not_char quote) Z = true -> forallb is_space ws = true ->
  o ++ Z ++ dot :: ws ++ [quote] = b1 ++ p2 -> b1 <> [] -> p2 <> [] ->
  ~ opens_at (p2 ++ rest).
Proof.
  intros Ho HZ Hws E Hb1 Hp2 (o' & r & Ho' & Eo).
  pose proof Ho' as Hs. apply opening_shape in Hs as (A' & EA' & HA').
  assert (Hq : forallb (not_char quote) (Z ++ dot :: ws) = true).
  { rewrite forallb_app. simpl. now rewrite HZ, (spaces_not_quotes _ Hws). }
  assert (Hsuffix : forall k, Z ++ dot :: ws ++ [quote] = k ++ p2 -> False).
  { (* [p2] starts after [o] *)
    intros k E2. destruct (exists_last Hp2) as (p20 & x & Ep2).
    rewrite Ep2 in E2.
    assert (E3 : (Z ++ dot :: ws) ++ [quote] = (k ++ p20) ++ [x]).
    { norm_app. norm_app_in E2. exact E2. }
    apply app_inj_tail in E3 as [E3 <-].
    assert (Hp20 : forallb (not_char quote) p20 = true).
    { rewrite E3 in Hq. now apply forallb_app_true in Hq as [_ ?]. }
    rewrite Ep2, EA' in Eo. norm_app_in Eo.
    destruct (first_split (not_char quote) _ _ _ _ _ _ Hp20 HA'
                quote_is_quote quote_is_quote Eo) as (Ep & _ & _).
    destruct Ho' as (ws1' & ws2' & Eo' & H1' & H2').
    rewrite EA' in Eo'.
    assert (E4 : A' = (str "text" ++ ws1') ++ ch "=" :: ws2').
    { apply (app_inj_tail A' _ quote quote). rewrite Eo'. now norm_app. }
    rewrite Ep, E4, app_assoc in E3.
    destruct (last_split is_space _ _ _ _ _ _ Hws H2'
                dot_not_space equals_not_space E3) as (_ & Hd & _).
    discriminate. }
  apply app_eq_app in E as [k [[E1 E2]|[E1 E2]]]; [|now apply (Hsuffix k)].
  destruct k as [|c k]; [now apply (Hsuffix [])|].
  (* [p2] starts inside [o]: it starts with the rest of [o] *)
  pose proof Ho as Hs. apply opening_shape in Hs as (A & EA & HA).
  destruct (exists_last (l := c :: k) ltac:(discriminate)) as (k0 & y & Ek).
  rewrite Ek in E1, E2. rewrite EA, app_assoc in E1.
  apply app_inj_tail in E1 as [E1 <-].
  assert (Hk0 : forallb (not_char quote) k0 = true).
  { rewrite E1 in HA. now apply forallb_app_true in HA as [_ ?]. }
  rewrite E2, EA' in Eo. norm_app_in Eo.
  destruct (first_split (not_char quote) _ _ _ _ _ _ Hk0 HA'
              quote_is_quote quote_is_quote Eo) as (Ek0 & _ & _).
  apply Hb1. apply (opening_suffix b1 o'); [|assumption].
  rewrite EA', <- Ek0, app_assoc, <- E1, <- EA. assumption.
Qed.

(* ===================================================================== *)
(** * Facts: the final period of a field *)
(* ===================================================================== *)

Lemma forallb_has {A} (p : A -> bool) a x b :
  forallb p (a ++ x :: b) = true -> p x = true.
Proof.
  intros H. apply forallb_app_true in H as [_ H]. simpl in H.
  now apply andb_prop in H as [? _].
Qed.

(** ** Stepping the scan *)

Lemma scan_gaps r X rest :
  (forall p1 p2, X = p1 ++ p2 -> p2 <> [] -> match_here r (p2 ++ rest) = None) ->
  scan r (X ++ rest) 0 = List.map Gap X ++ scan r rest 0.
Proof.
  induction X as [|c X IH]; intros H; [reflexivity|].
  cbn [app List.map scan].
  replace (match_here r (c :: X ++ rest)) with (@None rmatch_obj)
    by (symmetry; apply (H [] (c :: X)); [reflexivity|discriminate]).
  f_equal. apply IH. intros p1 p2 E Hne. apply (H (c :: p1) p2); [|assumption].
  now rewrite E.
Qed.

Lemma scan_hit r W rest m :
  match_here r (W ++ rest) = Some m -> whole m = W -> W <> [] ->
  scan r (W ++ rest) 0 = Hit m :: scan r rest 0.
Proof.
  intros Hm Hw Hne. destruct W as [|c W]; [contradiction|].
  cbn [app scan]. cbn [app] in Hm. rewrite Hm, Hw. cbn [length]. f_equal.
  rewrite scan_skip by (rewrite length_app; lia).
  rewrite skipn_app, skipn_all, Nat.sub_diag. reflexivity.
Qed.

Lemma render_gaps f X ps : render f (List.map Gap X ++ ps) = X ++ render f ps.
Proof. induction X as [|c X IH]; simpl; congruence. Qed.

Lemma not_opens_no_match r s :
  (forall m, match_here r s = Some m -> opens_at s) ->
  ~ opens_at s -> match_here r s = None.
Proof.
  intros H Hno. destruct (match_here r s) as [m|] eqn:E; [|reflexivity].
  destruct Hno. eauto.
Qed.

(** A pattern whose matches start with a field opening finds nothing
    before the first field opening. *)
Lemma pre_gaps r pre o tail :
  (forall s m, match_here r s = Some m -> opens_at s) ->
  finditer field_open pre = [] -> is_field_open o ->
  scan r (pre ++ o ++ tail) 0 = List.map Gap pre ++ scan r (o ++ tail) 0.
Proof.
  intros Hr Hpre Ho. apply scan_gaps. intros p1 p2 E Hne.
  apply not_opens_no_match; [intros m; apply Hr|].
  eapply no_opening_before; eassumption.
Qed.

Section SpacingLine.
Variable alnum : char -> bool.

Lemma word_is_dot c : SpaceFinalDot.word alnum c = true -> is_dot c = true.
Proof.
  intros H. unfold is_dot. destruct (c =? newline)%N eqn:E; [|reflexivity].
  apply N.eqb_eq in E. subst. vm_compute in H. discriminate.
Qed.

Lemma word_not_dot c : SpaceFinalDot.word alnum c = true -> c <> dot.
Proof. intros H ->. vm_compute in H. discriminate. Qed.

Lemma word_not_quote c : SpaceFinalDot.word alnum c = true -> not_char quote c = true.
Proof.
  intros H. unfold not_char. destruct (c =? quote)%N eqn:E; [|reflexivity].
  apply N.eqb_eq in E. subst. vm_compute in H. discriminate.
Qed.

Lemma pattern1_shape m s :
  match_here (SpaceFinalDot.pattern1 alnum) s = Some m ->
  exists o d w' s',
    is_field_open o /\ forallb is_dot d = true /\ SpaceFinalDot.word alnum w' = true
    /\ s = o ++ (d ++ [w']) ++ dot :: [] ++ quote :: s'
    /\ whole m = o ++ (d ++ [w']) ++ [dot; quote]
    /\ SpaceFinalDot.add_space_before_dot1 m = o ++ (d ++ [w']) ++ [space; dot; quote].
Proof.
  intros H. apply match_here_sound in H as (s' & -> & H).
  destruct m as [w cs]. cbn [whole groups] in *.
  unfold SpaceFinalDot.pattern1 in H. den_fields.
  unfold SpaceFinalDot.add_space_before_dot1. cbn [groups group Nat.eqb].
  change (str " .") with [space; dot].
  match goal with
  | Ho : is_field_open ?o, Hd : forallb is_dot ?d = true,
    Hw : SpaceFinalDot.word alnum ?c = true |- _ =>
      exists o, d, c, s'
  end.
  repeat split; try assumption; now norm_app.
Qed.

Lemma pattern2_shape m s :
  match_here (SpaceFinalDot.pattern2 alnum) s = Some m ->
  exists o d w' ws' s',
    is_field_open o /\ forallb is_dot d = true /\ SpaceFinalDot.word alnum w' = true
    /\ forallb is_space ws' = true /\ ws' <> []
    /\ s = o ++ (d ++ [w']) ++ dot :: ws' ++ quote :: s'
    /\ whole m = o ++ (d ++ [w']) ++ dot :: ws' ++ [quote]
    /\ SpaceFinalDot.add_space_before_dot2 m = o ++ (d ++ [w']) ++ [space; dot; quote].
Proof.
  intros H. apply match_here_sound in H as (s' & -> & H).
  destruct m as [w cs]. cbn [whole groups] in *.
  unfold SpaceFinalDot.pattern2, Plus in H. den_fields.
  unfold SpaceFinalDot.add_space_before_dot2. cbn [groups group Nat.eqb].
  change (str " .") with [space; dot].
  match goal with
  | Ho : is_field_open ?o, Hd : forallb is_dot ?d = true,
    Hw : SpaceFinalDot.word alnum ?c = true, Hs : is_space ?x = true,
    Hss : forallb is_space ?ws = true |- _ =>
      exists o, d, c, (x :: ws), s'
  end.
  repeat split; try assumption; try discriminate; try now norm_app.
  simpl. now apply andb_true_intro.
Qed.

Lemma pattern1_opens s m :
  match_here (SpaceFinalDot.pattern1 alnum) s = Some m -> opens_at s.
Proof.
  intros H. apply pattern1_shape in H as (o & d & w' & s' & Ho & _ & _ & -> & _).
  exists o. eauto.
Qed.

Lemma pattern2_opens s m :
  match_here (SpaceFinalDot.pattern2 alnum) s = Some m -> opens_at s.
Proof.
  intros H. apply pattern2_shape in H as (o & d & w' & ws' & s' & Ho & _ & _ & _ & _ & -> & _).
  exists o. eauto.
Qed.

Lemma pattern1_matches o body w post :
  is_field_open o -> forallb is_dot body = true -> SpaceFinalDot.word alnum w = true ->
  is_Some (match_here (SpaceFinalDot.pattern1 alnum)
             ((o ++ (body ++ [w]) ++ [dot; quote]) ++ post)).
Proof.
  intros Ho Hb Hw. apply match_here_complete.
  unfold SpaceFinalDot.pattern1. cbn [lang].
  exists (o ++ body ++ [w]), [dot; quote]. split; [now norm_app|]. split.
  - exists o, (body ++ [w]). split; [reflexivity|]. split.
    + eapply den_lang. apply (field_open_den o []). assumption.
    + exists body, [w]. split; [reflexivity|]. split; [assumption|]. eauto.
  - exists [dot], [quote]. split; [reflexivity|]. split.
    + exists dot. split; [reflexivity|]. apply N.eqb_refl.
    + exists quote. split; [reflexivity|]. apply N.eqb_refl.
Qed.

Lemma pattern2_matches o body w c ws post :
  is_field_open o -> forallb is_dot body = true -> SpaceFinalDot.word alnum w = true ->
  forallb is_space (c :: ws) = true ->
  is_Some (match_here (SpaceFinalDot.pattern2 alnum)
             ((o ++ (body ++ [w]) ++ dot :: (c :: ws) ++ [quote]) ++ post)).
Proof.
  intros Ho Hb Hw Hws. apply match_here_complete.
  simpl in Hws. apply andb_prop in Hws as [Hc Hws].
  unfold SpaceFinalDot.pattern2, Plus. cbn [lang].
  exists (o ++ body ++ [w]), (dot :: (c :: ws) ++ [quote]).
  split; [now norm_app|]. split.
  - exists o, (body ++ [w]). split; [reflexivity|]. split.
    + eapply den_lang. apply (field_open_den o []). assumption.
    + exists body, [w]. split; [reflexivity|]. split; [assumption|]. eauto.
  - exists [dot], ((c :: ws) ++ [quote]). split; [reflexivity|]. split.
    + exists dot. split; [reflexivity|]. apply N.eqb_refl.
    + exists (c :: ws), [quote]. split; [reflexivity|]. split.
      * exists [c], ws. split; [reflexivity|]. split; [eauto|assumption].
      * exists quote. split; [reflexivity|]. apply N.eqb_refl.
Qed.
End SpacingLine.

(** ** One substitution over a field, wherever it stands *)

Lemma opening_nonempty o x : is_field_open o -> o ++ x <> [].
Proof.
  intros (ws1 & ws2 & -> & _). discriminate.
Qed.

Lemma quote_after_spaces_intro sp r :
  forallb is_space sp = true -> quote_after_spaces (sp ++ quote :: r) = true.
Proof.
  induction sp as [|c sp IH]; cbn [app quote_after_spaces forallb]; intros H.
  - reflexivity.
  - apply andb_prop in H as [Hc H]. rewrite Hc, (IH H). apply orb_true_r.
Qed.

Lemma quote_after_spaces_elim s :
  quote_after_spaces s = true ->
  exists sp r, s = sp ++ quote :: r /\ forallb is_space sp = true.
Proof.
  induction s as [|c s IH]; cbn [quote_after_spaces]; intros H; [discriminate|].
  apply orb_prop in H as [H|H].
  - apply N.eqb_eq in H. subst c. exists [], s. auto.
  - apply andb_prop in H as [Hc H]. destruct (IH H) as (sp & r & -> & Hsp).
    exists (c :: sp), r. split; [reflexivity|]. cbn [forallb]. now rewrite Hc.
Qed.

Section EndsLater.
Variable alnum : char -> bool.

Lemma ends_later_intro a x sp r :
  forallb is_dot a = true -> SpaceFinalDot.word alnum x = true ->
  forallb is_space sp = true ->
  ends_later alnum (a ++ x :: dot :: sp ++ quote :: r) = true.
Proof.
  intros Ha Hx Hsp. induction a as [|c a IH]; cbn [app ends_later].
  - rewrite (word_is_dot alnum x Hx). unfold SpaceFinalDot.word in Hx. rewrite Hx.
    rewrite N.eqb_refl, (quote_after_spaces_intro sp r Hsp). reflexivity.
  - cbn [forallb] in Ha. apply andb_prop in Ha as [Hc Ha].
    rewrite Hc, (IH Ha). cbn [andb]. apply orb_true_r.
Qed.

Lemma ends_later_elim s :
  ends_later alnum s = true ->
  exists a x sp r,
    s = a ++ x :: dot :: sp ++ quote :: r
    /\ forallb is_dot a = true /\ SpaceFinalDot.word alnum x = true
    /\ forallb is_space sp = true.
Proof.
  induction s as [|c s IH]; cbn [ends_later]; intros H; [discriminate|].
  apply andb_prop in H as [Hc H]. apply orb_prop in H as [H|H].
  - apply andb_prop in H as [Hw H]. destruct s as [|d s]; [discriminate|].
    apply andb_prop in H as [Hd H]. apply N.eqb_eq in Hd. subst d.
    destruct (quote_after_spaces_elim _ H) as (sp & r & -> & Hsp).
    exists [], c, sp, r. auto.
  - destruct (IH H) as (a & x & sp & r & -> & Ha & Hx & Hsp).
    exists (c :: a), x, sp, r. split; [reflexivity|]. cbn [forallb].
    rewrite Hc, Ha. auto.
Qed.
End EndsLater.

Lemma dot_not_quote : not_char quote dot = true.
Proof. reflexivity. Qed.

Lemma quote_not_space : is_space quote = false.
Proof. reflexivity. Qed.

Lemma opening_ends_equals_spaces o :
  is_field_open o ->
  exists A ws2, o = (A ++ ch "=" :: ws2) ++ [quote] /\ forallb is_space ws2 = true
                /\ forallb (not_char quote) (A ++ ch "=" :: ws2) = true.
Proof.
  intros (ws1 & ws2 & -> & H1 & H2). exists (str "text" ++ ws1), ws2.
  split; [now norm_app|]. split; [assumption|].
  rewrite !forallb_app. cbn [forallb].
  rewrite (spaces_not_quotes _ H1), (spaces_not_quotes _ H2). reflexivity.
Qed.

Section Straddle.
Variable alnum : char -> bool.

(** A match of either pattern that starts before a field [o Z . ws quote]
    with nothing to end on after it on its line: it ends before the
    field, or at the closing quote of the field. *)
Lemma match_before_field p2 o Z ws post o' d w' ws' s' :
  is_field_open o -> forallb (not_char quote) Z = true ->
  forallb is_space ws = true -> ends_later alnum post = false ->
  is_field_open o' -> forallb is_dot d = true ->
  SpaceFinalDot.word alnum w' = true -> forallb is_space ws' = true ->
  p2 ++ (o ++ Z ++ dot :: ws ++ [quote]) ++ post
  = (o' ++ (d ++ [w']) ++ dot :: ws' ++ [quote]) ++ s' ->
  (exists p3, p2 = (o' ++ (d ++ [w']) ++ dot :: ws' ++ [quote]) ++ p3)
  \/ (o' ++ d ++ [w'] = p2 ++ o ++ Z /\ ws' = ws /\ s' = post).
Proof.
  intros Ho HZ Hws Hpost Ho' Hd Hw' Hws' E.
  set (M := o' ++ (d ++ [w']) ++ dot :: ws' ++ [quote]) in *.
  set (F := o ++ Z ++ dot :: ws ++ [quote]) in *.
  assert (Hwhole : forall tail, M = p2 ++ F -> tail = post -> s' = tail ->
            o' ++ d ++ [w'] = p2 ++ o ++ Z /\ ws' = ws /\ s' = post).
  { intros tail EM -> ->. subst M F.
    assert (E2 : ((o' ++ d ++ [w']) ++ dot :: ws') ++ [quote]
                 = ((p2 ++ o ++ Z) ++ dot :: ws) ++ [quote]).
    { norm_app. norm_app_in EM. exact EM. }
    apply app_inj_tail in E2 as [E2 _].
    destruct (last_split is_space _ _ _ _ _ _ Hws' Hws dot_not_space dot_not_space E2)
      as (E3 & _ & E4).
    auto. }
  apply app_eq_app in E as [l [[E1 E2]|[E1 E2]]]; [left; eauto|].
  apply app_eq_app in E2 as [l2 [[E2 E3]|[E2 E3]]].
  - (* the match ends inside the field, or with it *)
    destruct l2 as [|c2 l2].
    { right. rewrite app_nil_r in E2. subst l. apply (Hwhole post); auto. }
    destruct l as [|c l] using rev_ind.
    { left. exists []. rewrite app_nil_r in *. auto. }
    clear IHl. exfalso.
    assert (Ec : c = quote).
    { assert (E4 : (o' ++ (d ++ [w']) ++ dot :: ws') ++ [quote] = (p2 ++ l) ++ [c]).
      { subst M. norm_app. norm_app_in E1. exact E1. }
      now apply app_inj_tail in E4 as [_ <-]. }
    subst c.
    destruct (opening_ends_equals_spaces o Ho) as (A & ws2 & Eo & Hws2 & HA).
    remember (A ++ ch "=" :: ws2) as X eqn:EX.
    assert (EF : X ++ quote :: (Z ++ dot :: ws) ++ [quote]
                 = l ++ quote :: c2 :: l2).
    { transitivity ((l ++ [quote]) ++ c2 :: l2); [|now norm_app].
      rewrite <- E2. subst F. rewrite Eo. now norm_app. }
    destruct (app_cons_split _ _ _ _ _ _ EF) as [(EA & _ & _)|[[m Em]|[m Em]]].
    + (* the match ends with the opening of the field *)
      assert (E4 : (o' ++ d ++ [w']) ++ dot :: ws' = (p2 ++ A) ++ ch "=" :: ws2).
      { apply (app_inj_tail _ _ quote quote). subst M l X.
        norm_app. norm_app_in E1. exact E1. }
      destruct (last_split is_space _ _ _ _ _ _ Hws' Hws2 dot_not_space
                  equals_not_space E4) as (_ & Hx & _).
      discriminate.
    + rewrite Em in EF. norm_app_in EF. apply app_inv_head in EF. injection EF as EF.
      assert (Hq : forallb (not_char quote) (Z ++ dot :: ws) = true).
      { rewrite forallb_app. cbn [forallb].
        now rewrite HZ, (spaces_not_quotes _ Hws). }
      assert (EF' : (Z ++ dot :: ws) ++ quote :: [] = m ++ quote :: c2 :: l2).
      { norm_app. exact EF. }
      destruct (app_cons_split _ _ _ _ _ _ EF') as [(_ & _ & Ex)|[[m' Em']|[m' Em']]].
      * discriminate.
      * rewrite Em' in EF'. apply (f_equal (@length char)) in EF'.
        repeat (rewrite !length_app in EF'; cbn [length] in EF'). lia.
      * rewrite Em' in Hq. apply forallb_has in Hq. discriminate.
    + rewrite Em in HA. apply forallb_has in HA. discriminate.
  - (* the match ends after the field *)
    destruct l2 as [|c l2] using rev_ind.
    { right. rewrite app_nil_r in E2. subst l. cbn [app] in E3.
      apply (Hwhole post); auto. }
    clear IHl2. exfalso.
    assert (E4 : (o' ++ (d ++ [w']) ++ dot :: ws') ++ [quote]
                 = (p2 ++ F ++ l2) ++ [c]).
    { subst M l. norm_app. norm_app_in E1. exact E1. }
    apply app_inj_tail in E4 as [E4 <-].
    assert (Epost : post = l2 ++ quote :: s') by (rewrite E3; now norm_app).
    remember (o' ++ d) as X eqn:EX.
    remember (p2 ++ o ++ Z ++ dot :: ws) as Y eqn:EY.
    assert (E5 : X ++ w' :: dot :: ws' = Y ++ quote :: l2).
    { subst F X Y. norm_app. norm_app_in E4. exact E4. }
    destruct (app_cons_split _ _ _ _ _ _ E5) as [(_ & Ex & _)|[[m Em]|[m Em]]].
    + subst w'. vm_compute in Hw'. discriminate.
    + rewrite Em in E5. norm_app_in E5. apply app_inv_head in E5. injection E5 as E5.
      destruct m as [|x m]; [discriminate|]. injection E5 as _ E5.
      rewrite E5 in Hws'. apply forallb_has in Hws'. discriminate.
    + rewrite Em in E5. norm_app_in E5. apply app_inv_head in E5. injection E5 as E5.
      assert (Hm : forallb is_dot m = true).
      { destruct (opening_shape o' Ho') as (A' & EA' & HA').
        assert (Em2 : A' ++ quote :: d = Y ++ quote :: m).
        { rewrite <- Em, EX, EA'. now norm_app. }
        destruct (app_cons_split _ _ _ _ _ _ Em2) as [(_ & _ & Ex)|[[m' Em']|[m' Em']]].
        - now subst m.
        - rewrite Em' in Em2. norm_app_in Em2. apply app_inv_head in Em2. injection Em2 as Em2. rewrite Em2 in Hd.
          apply forallb_app_true in Hd as [_ Hd]. cbn [forallb] in Hd.
          now apply andb_prop in Hd as [_ ?].
        - rewrite Em' in HA'. apply forallb_has in HA'. discriminate. }
      rewrite Epost, <- E5 in Hpost.
      replace ((m ++ w' :: dot :: ws') ++ quote :: s')
        with (m ++ w' :: dot :: ws' ++ quote :: s') in Hpost by now norm_app.
      rewrite (ends_later_intro alnum m w' ws' s' Hm Hw' Hws') in Hpost.
      discriminate.
Qed.
End Straddle.

(** One substitution over [pre ++ F ++ post] when every match that starts
    before [F] ends before it or with it, and none starts inside it: [F]
    comes out as [F_out], and the substitution goes on behind it as on
    [post] alone. *)
Lemma pass_over_field r f F F_out post :
  0 < min_len r -> F <> [] ->
  (forall p1 p2, F = p1 ++ p2 -> p1 <> [] -> p2 <> [] ->
                 match_here r (p2 ++ post) = None) ->
  (forall p2 m, match_here r (p2 ++ F ++ post) = Some m ->
     (exists p3, p2 = whole m ++ p3)
     \/ (whole m = p2 ++ F /\ f m = p2 ++ F_out)) ->
  (match_here r (F ++ post) = None -> F_out = F) ->
  forall pre,
  exists pre',
    sub_fn r f (pre ++ F ++ post) = pre' ++ F_out ++ sub_fn r f post
    /\ ((forall p1 p2, pre = p1 ++ p2 -> p2 <> [] ->
                       match_here r (p2 ++ F ++ post) = None) -> pre' = pre).
Proof.
  intros Hr HF Hin Hclass Hnone pre.
  remember (length pre) as n eqn:Hn. revert pre Hn.
  induction n as [n IH] using lt_wf_ind. intros pre Hn.
  destruct (match_here r (pre ++ F ++ post)) as [m|] eqn:Hm.
  - pose proof (match_here_nonempty _ _ _ Hr Hm) as Hne.
    destruct (Hclass pre m Hm) as [(p3 & Ep)|(Hw & Hf)].
    + destruct pre as [|c pre1].
      { symmetry in Ep. apply app_eq_nil in Ep as [Ep _]. contradiction. }
      assert (Hlen : length p3 < n).
      { rewrite Hn, Ep, length_app. destruct (whole m); [contradiction|].
        cbn [length]. lia. }
      destruct (IH (length p3) Hlen p3 eq_refl) as (p3' & E3 & _).
      exists (f m ++ p3'). split.
      * unfold sub_fn in *. rewrite Ep, <- app_assoc.
        rewrite (scan_hit r (whole m) (p3 ++ F ++ post) m); [| |reflexivity|assumption].
        -- cbn [render]. rewrite E3. now rewrite <- app_assoc.
        -- rewrite <- Hm, Ep. now rewrite <- app_assoc.
      * intros Hno. rewrite (Hno [] (c :: pre1) eq_refl) in Hm by discriminate.
        discriminate.
    + exists pre. split; [|reflexivity].
      unfold sub_fn. rewrite app_assoc.
      rewrite (scan_hit r (pre ++ F) post m); [| |assumption|].
      * cbn [render]. rewrite Hf. now rewrite <- app_assoc.
      * rewrite <- Hm. now rewrite <- app_assoc.
      * intros E. apply app_eq_nil in E as [_ E]. contradiction.
  - destruct pre as [|c pre1].
    + exists []. split; [|reflexivity]. cbn [app] in *.
      rewrite (Hnone Hm). unfold sub_fn. rewrite scan_gaps.
      * now rewrite render_gaps.
      * intros p1 p2 E Hp2. destruct p1 as [|x p1].
        -- cbn [app] in E. subst p2. exact Hm.
        -- apply (Hin (x :: p1) p2 E); [discriminate|assumption].
    + assert (Hlen : length pre1 < n) by (rewrite Hn; cbn [length]; lia).
      destruct (IH (length pre1) Hlen pre1 eq_refl) as (pre1' & E1 & Hsame).
      exists (c :: pre1'). split.
      * unfold sub_fn in *. cbn [app scan]. cbn [app] in Hm. rewrite Hm.
        cbn [render]. now rewrite E1.
      * intros Hno. f_equal. apply Hsame. intros p1 p2 E Hp2.
        apply (Hno (c :: p1) p2); [now rewrite E|assumption].
Qed.

(** The scan up to its first hit. *)
Lemma first_hit r f s ps :
  tiling r s ps ->
  render f ps = s
  \/ exists G m rest ps',
       s = G ++ whole m ++ rest
       /\ match_here r (whole m ++ rest) = Some m
       /\ render f ps = G ++ f m ++ render f ps'.
Proof.
  induction 1 as [|c s ps Hm Ht IH|m s ps Hm Hne Ht IH]; cbn [render].
  - now left.
  - destruct IH as [IH|(G & m & rest & ps' & -> & Hm' & E)].
    + left. now rewrite IH.
    + right. exists (c :: G), m, rest, ps'. rewrite E. auto.
  - right. exists [], m, s, ps. auto.
Qed.

Section SpacingAnywhere.
Variable alnum : char -> bool.

(** The first substitution makes no new place to end on. *)
Lemma ends_later_pass1 post :
  ends_later alnum post = false ->
  ends_later alnum
    (sub_fn (SpaceFinalDot.pattern1 alnum) SpaceFinalDot.add_space_before_dot1 post)
  = false.
Proof.
  intros Hpost. unfold sub_fn.
  destruct (first_hit _ SpaceFinalDot.add_space_before_dot1 _ _
              (scan_tiling _ (pattern1_min_len alnum) post))
    as [E|(G & m & rest & ps' & Es & Hm & E)]; rewrite E; [assumption|].
  apply pattern1_shape in Hm as (o' & d & w' & s' & Ho' & Hd & Hw' & _ & Hw & Hrepl).
  rewrite Hrepl. rewrite Hw in Es.
  destruct (ends_later alnum (G ++ (o' ++ (d ++ [w']) ++ [space; dot; quote])
                                ++ render SpaceFinalDot.add_space_before_dot1 ps'))
    eqn:Hl; [exfalso|reflexivity].
  apply ends_later_elim in Hl as (a & x & sp & r & El & Ha & Hx & Hsp).
  destruct (opening_shape o' Ho') as (A' & EA' & HA').
  remember (G ++ A') as P eqn:EP.
  remember (a ++ x :: dot :: sp) as L eqn:EL.
  assert (Epost : forall t, post = P ++ quote :: t ->
            forall k, P ++ quote :: t = L ++ quote :: k -> False).
  { intros t Et k Ek. rewrite Et, Ek, EL in Hpost.
    replace ((a ++ x :: dot :: sp) ++ quote :: k)
      with (a ++ x :: dot :: sp ++ quote :: k) in Hpost by now norm_app.
    now rewrite (ends_later_intro alnum a x sp k Ha Hx Hsp) in Hpost. }
  assert (Et : post = P ++ quote :: (d ++ [w']) ++ [dot; quote] ++ rest).
  { rewrite Es, EP, EA'. now norm_app. }
  assert (El' : L ++ quote :: r
                = P ++ quote :: (d ++ [w']) ++ [space; dot; quote]
                    ++ render SpaceFinalDot.add_space_before_dot1 ps').
  { rewrite EL, EP. norm_app. rewrite <- El, EA'. now norm_app. }
  destruct (app_cons_split _ _ _ _ _ _ El') as [(E1 & _ & _)|[[k Ek]|[k Ek]]].
  - apply (Epost _ Et ((d ++ [w']) ++ [dot; quote] ++ rest)). now rewrite E1.
  - apply (Epost _ Et (k ++ quote :: (d ++ [w']) ++ [dot; quote] ++ rest)).
    rewrite Ek. now norm_app.
  - (* the run [a] covers the opening of the first match *)
    rewrite EL in Ek.
    destruct (app_cons_split _ _ _ _ _ _ Ek) as [(_ & Ex & _)|[[k' Ek']|[k' Ek']]].
    + subst x. vm_compute in Hx. discriminate.
    + rewrite Ek' in Ek. norm_app_in Ek. apply app_inv_head in Ek.
      injection Ek as Ek. destruct k' as [|y k']; [discriminate|].
      injection Ek as _ Ek. rewrite Ek in Hsp. apply forallb_has in Hsp.
      discriminate.
    + assert (HP : forallb is_dot (P ++ [quote]) = true).
      { rewrite Ek' in Ha.
        replace (P ++ quote :: k') with ((P ++ [quote]) ++ k') in Ha by now norm_app.
        now apply forallb_app_true in Ha as [? _]. }
      assert (Hrun : forallb is_dot ((P ++ [quote]) ++ d) = true).
      { rewrite forallb_app. now rewrite HP, Hd. }
      rewrite Et in Hpost.
      replace (P ++ quote :: (d ++ [w']) ++ [dot; quote] ++ rest)
        with (((P ++ [quote]) ++ d) ++ w' :: dot :: [] ++ quote :: rest) in Hpost
        by now norm_app.
      rewrite (ends_later_intro alnum _ w' [] rest Hrun Hw' eq_refl) in Hpost.
      discriminate.
Qed.
End SpacingAnywhere.

Section SpacingField.
Variable alnum : char -> bool.

Lemma inside_field_no_match r o Z ws post :
  (forall s m, match_here r s = Some m -> opens_at s) ->
  is_field_open o -> forallb (not_char quote) Z = true -> forallb is_space ws = true ->
  forall p1 p2, o ++ Z ++ dot :: ws ++ [quote] = p1 ++ p2 -> p1 <> [] -> p2 <> [] ->
                match_here r (p2 ++ post) = None.
Proof.
  intros Hr Ho HZ Hws p1 p2 E H1 H2.
  apply not_opens_no_match; [intros m; apply Hr|].
  eapply no_opening_inside; eassumption.
Qed.

Lemma before_field_no_match r pre o tail :
  (forall s m, match_here r s = Some m -> opens_at s) ->
  finditer field_open pre = [] -> is_field_open o ->
  forall p1 p2, pre = p1 ++ p2 -> p2 <> [] -> match_here r (p2 ++ o ++ tail) = None.
Proof.
  intros Hr Hpre Ho p1 p2 E Hne.
  apply not_opens_no_match; [intros m; apply Hr|].
  eapply no_opening_before; eassumption.
Qed.

(** [pattern1] before and at a field with nothing to end on behind it. *)
Lemma pattern1_class o Z ws post p2 m :
  is_field_open o -> forallb (not_char quote) Z = true ->
  forallb is_space ws = true -> ends_later alnum post = false ->
  match_here (SpaceFinalDot.pattern1 alnum)
    (p2 ++ (o ++ Z ++ dot :: ws ++ [quote]) ++ post) = Some m ->
  (exists p3, p2 = whole m ++ p3)
  \/ (ws = []
      /\ whole m = p2 ++ o ++ Z ++ dot :: ws ++ [quote]
      /\ SpaceFinalDot.add_space_before_dot1 m = p2 ++ o ++ Z ++ [space; dot; quote]).
Proof.
  intros Ho HZ Hws Hpost Hm.
  apply pattern1_shape in Hm as (o' & d & w' & s' & Ho' & Hd & Hw' & E & Hw & Hrepl).
  assert (E' : p2 ++ (o ++ Z ++ dot :: ws ++ [quote]) ++ post
               = (o' ++ (d ++ [w']) ++ dot :: [] ++ [quote]) ++ s').
  { rewrite E. now norm_app. }
  destruct (match_before_field alnum p2 o Z ws post o' d w' [] s' Ho HZ Hws Hpost
              Ho' Hd Hw' eq_refl E') as [(p3 & Ep)|(E1 & E2 & _)].
  - left. exists p3. rewrite Hw, Ep. now norm_app.
  - right. split; [now symmetry|]. subst ws. rewrite Hw, Hrepl. split.
    + transitivity ((o' ++ d ++ [w']) ++ [dot; quote]); [now norm_app|].
      rewrite E1. now norm_app.
    + transitivity ((o' ++ d ++ [w']) ++ [space; dot; quote]); [now norm_app|].
      rewrite E1. now norm_app.
Qed.

Lemma pattern2_class o Z ws post p2 m :
  is_field_open o -> forallb (not_char quote) Z = true ->
  forallb is_space ws = true -> ends_later alnum post = false ->
  match_here (SpaceFinalDot.pattern2 alnum)
    (p2 ++ (o ++ Z ++ dot :: ws ++ [quote]) ++ post) = Some m ->
  (exists p3, p2 = whole m ++ p3)
  \/ (ws <> []
      /\ whole m = p2 ++ o ++ Z ++ dot :: ws ++ [quote]
      /\ SpaceFinalDot.add_space_before_dot2 m = p2 ++ o ++ Z ++ [space; dot; quote]).
Proof.
  intros Ho HZ Hws Hpost Hm.
  apply pattern2_shape in Hm
    as (o' & d & w' & ws' & s' & Ho' & Hd & Hw' & Hws' & Hne & E & Hw & Hrepl).
  assert (E' : p2 ++ (o ++ Z ++ dot :: ws ++ [quote]) ++ post
               = (o' ++ (d ++ [w']) ++ dot :: ws' ++ [quote]) ++ s').
  { rewrite E. now norm_app. }
  destruct (match_before_field alnum _ _ _ _ _ _ _ _ _ _ Ho HZ Hws Hpost Ho' Hd Hw'
              Hws' E') as [(p3 & Ep)|(E1 & E2 & _)].
  - left. exists p3. rewrite Hw, Ep. now norm_app.
  - right. subst ws'. split; [assumption|]. rewrite Hw, Hrepl. split.
    + transitivity ((o' ++ d ++ [w']) ++ dot :: ws ++ [quote]); [now norm_app|].
      rewrite E1. now norm_app.
    + transitivity ((o' ++ d ++ [w']) ++ [space; dot; quote]); [now norm_app|].
      rewrite E1. now norm_app.
Qed.

(** The spacing fix on a field whose value ends in a word character, a
    period and maybe white space, wherever the field stands, when nothing
    behind it on its line gives the patterns a later place to end. *)
Lemma fix_field pre o body w ws post :
  is_field_open o ->
  forallb (not_char quote) body = true -> forallb is_dot body = true ->
  SpaceFinalDot.word alnum w = true -> forallb is_space ws = true ->
  ends_later alnum post = false ->
  exists pre',
    SpaceFinalDot.fixed_content alnum
      (pre ++ (o ++ (body ++ [w]) ++ dot :: ws ++ [quote]) ++ post)
    = pre' ++ (o ++ (body ++ [w]) ++ [space; dot; quote])
      ++ SpaceFinalDot.fixed_content alnum post
    /\ (finditer field_open pre = [] -> pre' = pre).
Proof.
  intros Ho Hbq Hbd Hw Hws Hpost.
  assert (HZ : forallb (not_char quote) (body ++ [w]) = true).
  { rewrite forallb_app. cbn [forallb]. now rewrite Hbq, (word_not_quote alnum w Hw). }
  assert (HZ' : forallb (not_char quote) ((body ++ [w]) ++ [space]) = true).
  { rewrite forallb_app. now rewrite HZ. }
  pose proof (ends_later_pass1 alnum post Hpost) as Hpost1.
  unfold SpaceFinalDot.fixed_content.
  set (r1 := SpaceFinalDot.pattern1 alnum) in *.
  set (r2 := SpaceFinalDot.pattern2 alnum) in *.
  set (f1 := SpaceFinalDot.add_space_before_dot1) in *.
  set (f2 := SpaceFinalDot.add_space_before_dot2) in *.
  set (post1 := sub_fn r1 f1 post) in *.
  set (Fout := o ++ (body ++ [w]) ++ [space; dot; quote]).
  assert (EFout : Fout = o ++ ((body ++ [w]) ++ [space]) ++ dot :: [] ++ [quote]).
  { subst Fout. now norm_app. }
  destruct ws as [|c ws].
  - (* the period touches the quote: [pattern1] rewrites, [pattern2] passes *)
    set (F := o ++ (body ++ [w]) ++ dot :: [] ++ [quote]).
    destruct (pass_over_field r1 f1 F Fout post (pattern1_min_len alnum)
                (opening_nonempty o _ Ho)
                (inside_field_no_match r1 o _ [] post (pattern1_opens alnum) Ho HZ eq_refl))
      with (pre := pre) as (pre1 & E1 & Hsame1).
    + intros p2 m Hm.
      destruct (pattern1_class o _ [] post p2 m Ho HZ eq_refl Hpost Hm)
        as [?|(_ & Hwm & Hfm)]; [now left|right].
      split; [exact Hwm|exact Hfm].
    + intros Hnone. exfalso.
      destruct (pattern1_matches alnum o body w post Ho Hbd Hw) as [m Hm].
      subst F r1. cbn [app] in Hnone. rewrite Hnone in Hm. discriminate.
    + fold F. rewrite E1.
      destruct (pass_over_field r2 f2 Fout Fout post1 (pattern2_min_len alnum)
                  (opening_nonempty o _ Ho))
        with (pre := pre1) as (pre2 & E2 & Hsame2).
      * rewrite EFout.
        apply (inside_field_no_match r2 o _ [] post1 (pattern2_opens alnum) Ho HZ' eq_refl).
      * intros p2 m Hm. rewrite EFout in Hm.
        destruct (pattern2_class o _ [] post1 p2 m Ho HZ' eq_refl Hpost1 Hm)
          as [?|(Hne & _)]; [now left|contradiction].
      * reflexivity.
      * exists pre2. split; [exact E2|].
        intros Hpre.
        assert (Ep1 : pre1 = pre).
        { apply Hsame1. intros p1 p2 E Hne. subst F. rewrite <- app_assoc.
          eapply before_field_no_match; try eassumption. apply pattern1_opens. }
        rewrite <- Ep1 in Hpre. rewrite (Hsame2); [exact Ep1|].
        intros p1 p2 E Hne. subst Fout. rewrite <- app_assoc.
        eapply before_field_no_match; try eassumption. apply pattern2_opens.
  - (* white space after the period: [pattern1] passes, [pattern2] rewrites *)
    set (F := o ++ (body ++ [w]) ++ dot :: (c :: ws) ++ [quote]).
    destruct (pass_over_field r1 f1 F F post (pattern1_min_len alnum)
                (opening_nonempty o _ Ho)
                (inside_field_no_match r1 o _ (c :: ws) post (pattern1_opens alnum)
                   Ho HZ Hws))
      with (pre := pre) as (pre1 & E1 & Hsame1).
    + intros p2 m Hm.
      destruct (pattern1_class o _ (c :: ws) post p2 m Ho HZ Hws Hpost Hm)
        as [?|(Hnil & _)]; [now left|discriminate].
    + reflexivity.
    + rewrite E1.
      destruct (pass_over_field r2 f2 F Fout post1 (pattern2_min_len alnum)
                  (opening_nonempty o _ Ho)
                  (inside_field_no_match r2 o _ (c :: ws) post1 (pattern2_opens alnum)
                     Ho HZ Hws))
        with (pre := pre1) as (pre2 & E2 & Hsame2).
      * intros p2 m Hm.
        destruct (pattern2_class o _ (c :: ws) post1 p2 m Ho HZ Hws Hpost1 Hm)
          as [?|(_ & Hwm & Hfm)]; [now left|right].
        split; [exact Hwm|exact Hfm].
      * intros Hnone. exfalso.
        destruct (pattern2_matches alnum o body w c ws post1 Ho Hbd Hw Hws) as [m Hm].
        subst F r2. rewrite Hnone in Hm. discriminate.
      * exists pre2. split; [exact E2|].
        intros Hpre.
        assert (Ep1 : pre1 = pre).
        { apply Hsame1. intros p1 p2 E Hne. subst F. rewrite <- app_assoc.
          eapply before_field_no_match; try eassumption. apply pattern1_opens. }
        rewrite <- Ep1 in Hpre. rewrite (Hsame2); [exact Ep1|].
        intros p1 p2 E Hne. subst F. rewrite <- app_assoc.
        eapply before_field_no_match; try eassumption. apply pattern2_opens.
Qed.
End SpacingField.

(** ** White space is all the spacing fix moves *)

Lemma ink_app a b : ink (a ++ b) = ink a ++ ink b.
Proof. unfold ink. apply List.filter_app. Qed.

Lemma ink_spaces ws : forallb is_space ws = true -> ink ws = [].
Proof.
  intros H. unfold ink. apply filter_none. intros c Hc.
  now rewrite (forallb_In _ _ _ H Hc).
Qed.

(** A substitution that only moves white space in every match only
    moves white space in the text. *)
Lemma pass_keeps_ink r f s ps :
  tiling r s ps ->
  (forall m s', match_here r (whole m ++ s') = Some m -> ink (f m) = ink (whole m)) ->
  ink (render f ps) = ink s.
Proof.
  intros Ht Hf. induction Ht as [|c s ps Hm Ht IH|m s ps Hm Hne Ht IH]; cbn [render].
  - reflexivity.
  - change (c :: ?x) with ([c] ++ x). now rewrite !ink_app, IH.
  - now rewrite !ink_app, IH, (Hf _ _ Hm).
Qed.

Section SpacingInk.
Variable alnum : char -> bool.

Lemma pattern1_keeps_ink m s :
  match_here (SpaceFinalDot.pattern1 alnum) s = Some m ->
  ink (SpaceFinalDot.add_space_before_dot1 m) = ink (whole m).
Proof.
  intros H. apply match_here_sound in H as (s' & _ & H).
  destruct m as [w cs]. cbn [whole groups] in *.
  unfold SpaceFinalDot.pattern1 in H. den_fields.
  unfold SpaceFinalDot.add_space_before_dot1. cbn [groups group Nat.eqb].
  change (str " .") with ([space] ++ [dot]).
  rewrite !ink_app. change (ink [space]) with (@nil char). reflexivity.
Qed.

Lemma pattern2_keeps_ink m s :
  match_here (SpaceFinalDot.pattern2 alnum) s = Some m ->
  ink (SpaceFinalDot.add_space_before_dot2 m) = ink (whole m).
Proof.
  intros H. apply match_here_sound in H as (s' & _ & H).
  destruct m as [w cs]. cbn [whole groups] in *.
  unfold SpaceFinalDot.pattern2, Plus in H. den_fields.
  unfold SpaceFinalDot.add_space_before_dot2. cbn [groups group Nat.eqb].
  change (str " .") with ([space] ++ [dot]).
  rewrite !ink_app. change (ink [space]) with (@nil char).
  repeat match goal with
    | H : is_space ?c = true |- _ =>
        replace (ink [c]) with (@nil char)
          by (unfold ink; cbn [List.filter]; now rewrite H);
        clear H
    | H : forallb is_space ?ws = true |- _ =>
        rewrite (ink_spaces ws H); clear H
    end.
  reflexivity.
Qed.

Lemma fixed_content_keeps_ink content :
  ink (SpaceFinalDot.fixed_content alnum content) = ink content.
Proof.
  unfold SpaceFinalDot.fixed_content, sub_fn.
  rewrite (pass_keeps_ink _ _ _ _ (scan_tiling _ (pattern2_min_len alnum) _))
    by (intros m s' Hm; eapply pattern2_keeps_ink; exact Hm).
  apply (pass_keeps_ink _ _ _ _ (scan_tiling _ (pattern1_min_len alnum) _)).
  intros m s' Hm. eapply pattern1_keeps_ink; exact Hm.
Qed.
End SpacingInk.

(* ===================================================================== *)
(** * The spacing fix, field by field *)
(* ===================================================================== *)

(** C7, as the code has it.  Take content made of any text [pre], then
    a text field whose value has no double quote and no line break and
    ends in a word character and a period, then white space or none,
    then the closing quote, then a rest [post] that gives the patterns
    no later place to end: on the line of the closing quote, no word
    character and period stand before white space or none and a double
    quote.  The spacing fix turns the end of the value into the word
    character, a space and the period right before the quote, and fixes
    [post] on its own; of [pre] it changes white space at most, and
    nothing when no field opens in it.  So the fields arbre. and arbre.
    with a space behind both become arbre with a space and a period,
    also after another field and with a blank behind the closing
    quote. *)
Theorem spacing_fix_on_a_line (alnum_beyond : char -> bool) :
  (forall pre ws1 ws2 body w ws post,
     forallb is_space ws1 = true -> forallb is_space ws2 = true ->
     forallb (fun c => not_char quote c && is_dot c) body = true ->
     SpaceFinalDot.word alnum_beyond w = true ->
     forallb is_space ws = true ->
     ends_later alnum_beyond post = false ->
     exists pre',
       SpaceFinalDot.fixed_content alnum_beyond
         (pre ++ field_opening ws1 ws2 ++ body ++ [w; dot] ++ ws ++ quote :: post)
       = pre' ++ field_opening ws1 ws2 ++ body ++ [w; space; dot; quote]
         ++ SpaceFinalDot.fixed_content alnum_beyond post
       /\ ink pre' = ink pre
       /\ (finditer field_open pre = [] -> pre' = pre))
  /\ SpaceFinalDot.fixed_content alnum_beyond (text_field (str "arbre."))
     = text_field (str "arbre .")
  /\ SpaceFinalDot.fixed_content alnum_beyond (text_field (str "arbre. "))
     = text_field (str "arbre .")
  /\ SpaceFinalDot.fixed_content alnum_beyond
       (text_field (str "bonjour") ++ [space; newline]
        ++ text_field (str "arbre.") ++ [space; newline])
     = text_field (str "bonjour") ++ [space; newline]
       ++ text_field (str "arbre .") ++ [space; newline].
Proof.
  split; [|split; [|split]]; try (vm_compute; reflexivity).
  intros pre ws1 ws2 body w ws post H1 H2 Hbody Hw Hws Hpost.
  assert (Ho : is_field_open (field_opening ws1 ws2)) by (exists ws1, ws2; auto).
  assert (Hbq : forallb (not_char quote) body = true).
  { apply forallb_forall. intros c Hc.
    apply (forallb_In _ _ _ Hbody) in Hc. now apply andb_prop in Hc as [? _]. }
  assert (Hbd : forallb is_dot body = true).
  { apply forallb_forall. intros c Hc.
    apply (forallb_In _ _ _ Hbody) in Hc. now apply andb_prop in Hc as [_ ?]. }
  destruct (fix_field alnum_beyond pre _ body w ws post Ho Hbq Hbd Hw Hws Hpost)
    as (pre' & E & Hsame).
  exists pre'.
  assert (E' : SpaceFinalDot.fixed_content alnum_beyond
                 (pre ++ field_opening ws1 ws2 ++ body ++ [w; dot] ++ ws ++ quote :: post)
               = pre' ++ field_opening ws1 ws2 ++ body ++ [w; space; dot; quote]
                 ++ SpaceFinalDot.fixed_content alnum_beyond post).
  { replace (pre ++ field_opening ws1 ws2 ++ body ++ [w; dot] ++ ws ++ quote :: post)
      with (pre ++ (field_opening ws1 ws2 ++ (body ++ [w]) ++ dot :: ws ++ [quote]) ++ post)
      by now norm_app.
    rewrite E. now norm_app. }
  split; [exact E'|]. split; [|exact Hsame].
  apply (f_equal ink) in E'. rewrite fixed_content_keeps_ink in E'.
  rewrite !ink_app in E'. rewrite fixed_content_keeps_ink in E'.
  rewrite (ink_spaces ws Hws) in E'.
  change (ink [w; space; dot; quote]) with (ink ([w; dot] ++ [quote])) in E'.
  change (ink (quote :: post)) with (ink ([quote] ++ post)) in E'.
  rewrite !ink_app in E'. cbn [app] in E'.
  rewrite !app_assoc in E'.
  repeat apply app_inv_tail in E'. now symmetry.
Qed.

Lemma spacing_fix_witness :
  exists pre',
    SpaceFinalDot.fixed_content ascii_only
      ((text_field (str "bonjour") ++ [space; newline])
       ++ field_opening [space] [space] ++ str "arbr" ++ [ch "e"; dot] ++ []
       ++ quote :: [space; newline])
    = pre' ++ field_opening [space] [space] ++ str "arbr" ++ [ch "e"; space; dot; quote]
      ++ SpaceFinalDot.fixed_content ascii_only [space; newline]
    /\ ink pre' = ink (text_field (str "bonjour") ++ [space; newline])
    /\ (finditer field_open (text_field (str "bonjour") ++ [space; newline]) = []
        -> pre' = text_field (str "bonjour") ++ [space; newline]).
Proof.
  apply (proj1 (spacing_fix_on_a_line ascii_only)); reflexivity.
Defined.

(** C7 fails for a value with a line break before its last word, and for
    the first of two fields on one line: both end in a word character
    and a period before the closing quote, and both are left as they
    are. *)
Lemma spacing_fix_misses_fields :
  SpaceFinalDot.fixed_content ascii_only (text_field (str "a" ++ newline :: str "b."))
  = text_field (str "a" ++ newline :: str "b.")
  /\ SpaceFinalDot.fixed_content ascii_only
       (text_field (str "a.") ++ space :: text_field (str "b."))
     = text_field (str "a.") ++ space :: text_field (str "b .").
Proof. split; vm_compute; reflexivity. Qed.

(* ===================================================================== *)
(** * Further properties of the tools *)
(* ===================================================================== *)

Ltac frame_split := split; [|split; [|split; [|split]]].

Lemma writes_within_refl P w : writes_within P w w.
Proof.
  frame_split; auto. exists []. split; [now rewrite app_nil_r|]. intros p [].
Qed.

Lemma writes_within_trans P w1 w2 w3 :
  writes_within P w1 w2 -> writes_within P w2 w3 -> writes_within P w1 w3.
Proof.
  intros (L1 & D1 & G1 & F1 & e1 & T1 & W1) (L2 & D2 & G2 & F2 & e2 & T2 & W2).
  frame_split; try congruence.
  - intros p Hp. rewrite F2, F1; auto.
  - exists (e1 ++ e2). split; [rewrite T2, T1; now rewrite app_assoc|].
    intros p Hin. apply in_app_or in Hin as [Hin|Hin]; auto.
Qed.

Lemma writes_within_weaken (P Q : string -> Prop) w w' :
  (forall p, P p -> Q p) -> writes_within P w w' -> writes_within Q w w'.
Proof.
  intros HPQ (L & D & G & F & e & T & W).
  frame_split; auto.
  exists e. split; auto.
Qed.

Lemma writes_within_log P ev w :
  (forall p, ev = EvOpenWrite p -> P p) -> writes_within P w (log ev w).
Proof.
  intros H. frame_split; auto. exists [ev]. split; [reflexivity|].
  intros p [->|[]]. now apply H.
Qed.

Lemma writes_within_put P m w : writes_within P w (put_line m w).
Proof.
  frame_split; auto. exists []. split; [simpl; now rewrite app_nil_r|]. intros p [].
Qed.

Lemma writes_within_store (P : string -> Prop) fp t w :
  P fp -> writes_within P w (store fp t w).
Proof.
  intros H. frame_split; auto.
  - intros p Hp. simpl. apply lookup_insert_ne. intros ->. contradiction.
  - exists []. split; [simpl; now rewrite app_nil_r|]. intros p [].
Qed.

Lemma confined_weaken {A} (c : io A) (P Q : string -> Prop) :
  (forall p, P p -> Q p) -> confined c P -> confined c Q.
Proof. intros H Hc w. eapply writes_within_weaken; eauto. Qed.

Lemma confined_ret {A} (a : A) P : confined (ret a) P.
Proof. intros w. apply writes_within_refl. Qed.

Lemma confined_raise {A} e P : confined (@raise A e) P.
Proof. intros w. apply writes_within_refl. Qed.

Lemma confined_bind {A B} (c : io A) (f : A -> io B) P :
  confined c P -> (forall a, confined (f a) P) -> confined (bind c f) P.
Proof.
  intros Hc Hf w. rewrite bind_run. specialize (Hc w).
  destruct (c w) as [[a|e|] w']; simpl in *; auto.
  eapply writes_within_trans; [exact Hc|apply Hf].
Qed.

Lemma confined_try {A} (body : io A) handler P :
  confined body P -> (forall e, confined (handler e) P) ->
  confined (try_except body handler) P.
Proof.
  intros Hc Hf w. rewrite try_except_run. specialize (Hc w).
  destruct (body w) as [[a|e|] w']; simpl in *; auto.
  eapply writes_within_trans; [exact Hc|apply Hf].
Qed.

Lemma confined_read fp P : confined (read_file fp) P.
Proof.
  intros w. unfold read_file.
  destruct (files w !! fp) as [[t|]|]; simpl; apply writes_within_log; discriminate.
Qed.

Lemma confined_write fp t (P : string -> Prop) : P fp -> confined (write_file fp t) P.
Proof.
  intros H w. unfold write_file.
  destruct (bool_decide (fp ∈ locked w)); simpl.
  - apply writes_within_log. now intros p [= <-].
  - eapply writes_within_trans.
    + apply (writes_within_log P (EvOpenWrite fp)). now intros p [= <-].
    + now apply writes_within_store.
Qed.

Lemma confined_exists fp P : confined (path_exists fp) P.
Proof. intros w. apply writes_within_log. discriminate. Qed.

Lemma confined_isdir fp P : confined (isdir fp) P.
Proof. intros w. apply writes_within_log. discriminate. Qed.

Lemma confined_isfile fp P : confined (isfile fp) P.
Proof. intros w. apply writes_within_log. discriminate. Qed.

Lemma confined_find d r P : confined (find_textgrids d r) P.
Proof. intros w. apply writes_within_log. discriminate. Qed.

Lemma confined_print m P : confined (print m) P.
Proof. intros w. apply writes_within_put. Qed.

Lemma confined_when b c P : confined c P -> confined (when b c) P.
Proof. destruct b; simpl; auto using @confined_ret. Qed.

Lemma confined_if {A} (b : bool) (c1 c2 : io A) P :
  confined c1 P -> confined c2 P -> confined (if b then c1 else c2) P.
Proof. now destruct b. Qed.

Lemma confined_lift_re {A} (r : re_error + A) P : confined (lift_re r) P.
Proof. destruct r; simpl; [apply confined_raise|apply confined_ret]. Qed.

Lemma confined_backup backup fp content (P : string -> Prop) :
  (backup = true -> P (bak fp)) -> confined (backup_if_absent backup fp content) P.
Proof.
  intros H. unfold backup_if_absent. destruct backup; [|apply confined_ret].
  apply confined_bind; [apply confined_exists|]. intros present.
  apply confined_when, confined_write. now apply H.
Qed.

Lemma confined_fold_hyphens fuel content P :
  confined (WordReplace.fold_hyphens fuel content) P.
Proof.
  revert content. induction fuel as [|fuel IH]; intros content.
  - intros w. apply writes_within_refl.
  - cbn [WordReplace.fold_hyphens].
    apply confined_bind; [apply confined_lift_re|]. intros t.
    apply confined_if; [apply confined_ret|apply IH].
Qed.

(** Steps through a computation built from the primitives. *)
Ltac io_confined :=
  repeat first
    [ apply confined_ret | apply confined_raise | apply confined_read
    | apply confined_exists | apply confined_print | apply confined_lift_re
    | apply confined_find | apply confined_isdir | apply confined_isfile
    | apply confined_fold_hyphens
    | apply confined_when | apply confined_if
    | apply confined_bind | apply confined_try | intro ].

Lemma case_confined lower upper fp tl backup :
  confined (CaseConverter.convert_case_in_textgrid lower upper fp tl backup)
    (file_and_backup backup fp).
Proof.
  unfold CaseConverter.convert_case_in_textgrid, CaseConverter.convert_case_block.
  apply confined_try; [|io_confined].
  apply confined_bind; [apply confined_read|]. intros content.
  apply confined_bind; [apply confined_backup; intros; right; auto|]. intros _.
  apply confined_bind; [|io_confined].
  apply confined_when, confined_bind; [apply confined_write; now left|io_confined].
Qed.

Lemma space_confined alnum fp backup debug :
  confined (SpaceFinalDot.fix_space_before_dot alnum fp backup debug)
    (file_and_backup backup fp).
Proof.
  unfold SpaceFinalDot.fix_space_before_dot, SpaceFinalDot.fix_space_block,
    SpaceFinalDot.debug_text_field.
  apply confined_try; [|io_confined].
  apply confined_bind; [apply confined_read|]. intros content.
  apply confined_bind; [io_confined|]. intros _.
  apply confined_bind; [apply confined_backup; intros; right; auto|]. intros _.
  apply confined_bind; [io_confined|]. intros _.
  apply confined_bind; [|io_confined].
  apply confined_if; [|io_confined].
  apply confined_bind; [apply confined_write; now left|io_confined].
Qed.

Lemma words_confined fp word_map backup :
  confined (WordReplace.correct_words_in_textgrid fp word_map backup)
    (file_and_backup backup fp).
Proof.
  unfold WordReplace.correct_words_in_textgrid, WordReplace.correct_words_block.
  apply confined_try; [|io_confined].
  apply confined_bind; [apply confined_read|]. intros content.
  apply confined_bind.
  { destruct backup; [|apply confined_ret]. apply confined_write. right; auto. }
  intros _.
  apply confined_bind; [apply confined_lift_re|]. intros result.
  apply confined_bind; [|io_confined].
  apply confined_when, confined_bind; [apply confined_write; now left|io_confined].
Qed.

Lemma parens_confined fp backup :
  confined (WordReplace.remove_parentheses_content fp backup)
    (file_and_backup backup fp).
Proof.
  unfold WordReplace.remove_parentheses_content, WordReplace.remove_parentheses_block.
  apply confined_try; [|io_confined].
  apply confined_bind; [apply confined_read|]. intros content.
  apply confined_bind; [apply confined_backup; intros; right; auto|]. intros _.
  apply confined_bind; [apply confined_lift_re|]. intros modified.
  apply confined_bind; [|io_confined].
  apply confined_when, confined_bind; [apply confined_write; now left|io_confined].
Qed.

Lemma hyphens_confined fp backup :
  confined (WordReplace.replace_hyphens_underscores fp backup)
    (file_and_backup backup fp).
Proof.
  unfold WordReplace.replace_hyphens_underscores, WordReplace.replace_hyphens_block.
  apply confined_try; [|io_confined].
  apply confined_bind; [apply confined_read|]. intros content.
  apply confined_bind; [apply confined_backup; intros; right; auto|]. intros _.
  apply confined_bind; [apply confined_fold_hyphens|]. intros modified.
  apply confined_bind; [|io_confined].
  apply confined_when, confined_bind; [apply confined_write; now left|io_confined].
Qed.

Lemma case_loop_confined lower upper fps tl backup tf tr :
  confined (CaseConverter.process_files lower upper fps tl backup tf tr)
    (files_and_backups backup fps).
Proof.
  revert tf tr. induction fps as [|fp rest IH]; intros tf tr.
  - apply confined_ret.
  - cbn [CaseConverter.process_files].
    apply confined_bind.
    + eapply confined_weaken; [|apply case_confined].
      intros p Hp. exists fp. split; [now left|exact Hp].
    + intros n. apply confined_if;
        (eapply confined_weaken; [|apply IH]);
        intros p (f & Hf & Hp); exists f; (split; [now right|exact Hp]).
Qed.

Lemma space_loop_confined alnum fps backup debug tf tr :
  confined (SpaceFinalDot.process_files alnum fps backup debug tf tr)
    (files_and_backups backup fps).
Proof.
  revert tf tr. induction fps as [|fp rest IH]; intros tf tr.
  - apply confined_ret.
  - cbn [SpaceFinalDot.process_files].
    apply confined_bind.
    + eapply confined_weaken; [|apply space_confined].
      intros p Hp. exists fp. split; [now left|exact Hp].
    + intros n. apply confined_if;
        (eapply confined_weaken; [|apply IH]);
        intros p (f & Hf & Hp); exists f; (split; [now right|exact Hp]).
Qed.

Lemma process_file_confined fp word_map backup rp rh t :
  confined (WordReplace.process_file fp word_map backup rp rh t)
    (file_and_backup backup fp).
Proof.
  unfold WordReplace.process_file.
  apply confined_bind.
  { destruct word_map; [apply confined_ret|].
    apply confined_bind; [apply words_confined|io_confined]. }
  intros [m1 t1].
  apply confined_bind.
  { destruct rp; [|apply confined_ret].
    apply confined_bind; [apply parens_confined|io_confined]. }
  intros [m2 t2].
  apply confined_bind.
  { destruct rh; [|apply confined_ret].
    apply confined_bind; [apply hyphens_confined|io_confined]. }
  intros [m3 t3]. io_confined.
Qed.

Lemma words_loop_confined fps word_map backup rp rh t :
  confined (WordReplace.process_files fps word_map backup rp rh t)
    (files_and_backups backup fps).
Proof.
  revert t. induction fps as [|fp rest IH]; intros t.
  - apply confined_ret.
  - cbn [WordReplace.process_files].
    apply confined_bind.
    + eapply confined_weaken; [|apply process_file_confined].
      intros p Hp. exists fp. split; [now left|exact Hp].
    + intros t'. eapply confined_weaken; [|apply IH].
      intros p (f & Hf & Hp). exists f. split; [now right|exact Hp].
Qed.

Lemma after_find {A} (k : list string -> io A) d r (P : world -> string -> Prop) :
  (forall w, P (log (EvListDir d r) w) = P w) ->
  (forall w fps, fps = listing w r d -> writes_within (P w) w (snd (k fps w))) ->
  forall w, writes_within (P w) w (snd (bind (find_textgrids d r) k w)).
Proof.
  intros HP Hk w. rewrite bind_run. unfold find_textgrids.
  eapply writes_within_trans.
  - apply (writes_within_log (P w) (EvListDir d r)). discriminate.
  - rewrite <- (HP w). apply Hk. reflexivity.
Qed.

Lemma case_directory_confined lower upper d tl r backup w :
  writes_within (found_files w r backup d) w
    (snd (CaseConverter.process_directory lower upper d tl r backup w)).
Proof.
  unfold CaseConverter.process_directory.
  apply (after_find _ d r (fun w => found_files w r backup d)); [reflexivity|].
  clear w. intros w fps ->. unfold found_files.
  destruct (listing w r d) as [|f fs] eqn:E; [apply confined_print|].
  rewrite <- E.
  apply confined_bind; [apply confined_print|]. intros _.
  apply confined_bind; [apply case_loop_confined|]. io_confined.
Qed.

Lemma space_directory_confined alnum d r backup debug w :
  writes_within (found_files w r backup d) w
    (snd (SpaceFinalDot.process_directory alnum d r backup debug w)).
Proof.
  unfold SpaceFinalDot.process_directory.
  apply (after_find _ d r (fun w => found_files w r backup d)); [reflexivity|].
  clear w. intros w fps ->. unfold found_files.
  destruct (listing w r d) as [|f fs] eqn:E; [apply confined_print|].
  rewrite <- E.
  apply confined_bind; [apply confined_print|]. intros _.
  apply confined_bind; [apply space_loop_confined|]. io_confined.
Qed.

Lemma words_loaded_confined d word_map r backup rp rh w :
  writes_within (found_files w r backup d) w
    (snd (WordReplace.process_loaded d word_map r backup rp rh w)).
Proof.
  unfold WordReplace.process_loaded.
  apply (after_find _ d r (fun w => found_files w r backup d)); [reflexivity|].
  clear w. intros w fps ->. unfold found_files.
  destruct (listing w r d) as [|f fs] eqn:E; [apply confined_print|].
  rewrite <- E.
  apply confined_bind; [apply confined_print|]. intros _.
  apply confined_bind; [apply words_loop_confined|]. io_confined.
Qed.

Lemma found_files_stable P w w' r b d :
  writes_within P w w' -> found_files w' r b d = found_files w r b d.
Proof. intros (_ & _ & G & _). unfold found_files. now rewrite G. Qed.

Lemma found_bind {A B} (c : io A) (k : A -> io B) r b d :
  (forall w, writes_within (found_files w r b d) w (snd (c w))) ->
  (forall a w, writes_within (found_files w r b d) w (snd (k a w))) ->
  forall w, writes_within (found_files w r b d) w (snd (bind c k w)).
Proof.
  intros Hc Hk w. rewrite bind_run. specialize (Hc w).
  destruct (c w) as [[a|e|] w']; simpl in *; auto.
  eapply writes_within_trans; [exact Hc|].
  rewrite <- (found_files_stable _ _ _ r b d Hc). apply Hk.
Qed.

(** An early [exit(1)]: a message and nothing else. *)
Lemma exit_confined {A} m (code : A) (P : world -> string -> Prop) w :
  writes_within (P w) w (snd (bind (print m) (fun _ => ret code) w)).
Proof. apply writes_within_put. Qed.

Lemma load_confined ww cw P : confined (WordReplace.load_word_lists ww cw) P.
Proof. unfold WordReplace.load_word_lists. io_confined. Qed.

Lemma words_directory_confined d ww cw r backup rp rh w :
  writes_within (found_files w r backup d) w
    (snd (WordReplace.process_directory d ww cw r backup rp rh w)).
Proof.
  revert w. unfold WordReplace.process_directory.
  apply found_bind.
  - intros w. unfold WordReplace.load_step.
    apply confined_if; [|apply confined_ret].
    apply confined_bind; [apply load_confined|]. io_confined.
  - intros [word_map|] w; [apply words_loaded_confined|apply writes_within_refl].
Qed.

Lemma case_main_confined lower upper a w :
  writes_within
    (found_files w (CaseConverter.recursive a) (negb (CaseConverter.no_backup a))
       (CaseConverter.directory a))
    w (snd (CaseConverter.main lower upper a w)).
Proof.
  revert w. unfold CaseConverter.main.
  apply found_bind; [intros w; apply confined_isdir|]. intros ok.
  destruct (negb ok); [apply exit_confined|].
  apply found_bind; [intros w; apply case_directory_confined|].
  intros _ w. apply writes_within_refl.
Qed.

Lemma space_main_confined alnum a w :
  writes_within
    (found_files w (SpaceFinalDot.recursive a) (negb (SpaceFinalDot.no_backup a))
       (SpaceFinalDot.directory a))
    w (snd (SpaceFinalDot.main alnum a w)).
Proof.
  revert w. unfold SpaceFinalDot.main.
  apply found_bind; [intros w; apply confined_isdir|]. intros ok.
  destruct (negb ok); [apply exit_confined|].
  apply found_bind; [intros w; apply space_directory_confined|].
  intros _ w. apply writes_within_refl.
Qed.

Lemma words_main_confined a w :
  writes_within
    (found_files w (WordReplace.recursive a) (negb (WordReplace.no_backup a))
       (WordReplace.directory a))
    w (snd (WordReplace.main a w)).
Proof.
  revert w. unfold WordReplace.main.
  apply found_bind; [intros w; apply confined_isdir|]. intros ok.
  destruct (negb ok); [apply exit_confined|].
  match goal with |- context [if ?b then _ else _] => destruct b end;
    [apply exit_confined|].
  apply found_bind.
  { intros w. apply confined_if; [apply confined_isfile|apply confined_ret]. }
  intros wrong_ok. destruct (negb wrong_ok); [apply exit_confined|].
  apply found_bind.
  { intros w. apply confined_if; [apply confined_isfile|apply confined_ret]. }
  intros correct_ok. destruct (negb correct_ok); [apply exit_confined|].
  match goal with |- context [if ?b then _ else _] => destruct b end;
    [apply exit_confined|].
  apply found_bind; [intros w; apply words_directory_confined|].
  intros _ w. apply writes_within_refl.
Qed.

(** X1.  The tools write only what they find.  Each of the three tools
    opens for writing only the TextGrid files that the search of its
    directory returns and, unless [--no-backup] is given, their [.bak]
    files; every other file is as it was when the tool ends, and so are
    the directories. *)
Theorem tools_write_only_what_they_find
    (str_lower str_upper : text -> text) (alnum_beyond : char -> bool) (w : world) :
  (forall a,
     writes_within
       (found_files w (CaseConverter.recursive a) (negb (CaseConverter.no_backup a))
          (CaseConverter.directory a))
       w (snd (CaseConverter.main str_lower str_upper a w)))
  /\ (forall a,
        writes_within
          (found_files w (SpaceFinalDot.recursive a) (negb (SpaceFinalDot.no_backup a))
             (SpaceFinalDot.directory a))
          w (snd (SpaceFinalDot.main alnum_beyond a w)))
  /\ (forall a,
        writes_within
          (found_files w (WordReplace.recursive a) (negb (WordReplace.no_backup a))
             (WordReplace.directory a))
          w (snd (WordReplace.main a w))).
Proof.
  split; [|split]; intros a.
  - apply case_main_confined.
  - apply space_main_confined.
  - apply words_main_confined.
Qed.

(** ** Exit codes *)





Lemma terminates_load ww cw :
  terminates
    (wrong_content <- read_file ww ;;
     correct_content <- read_file cw ;;
     if negb (length (WordReplace.stripped_lines wrong_content)
              =? length (WordReplace.stripped_lines correct_content))
     then raise WordReplace.length_mismatch
     else ret (WordReplace.dict_of
                 (combine (WordReplace.stripped_lines wrong_content)
                    (WordReplace.stripped_lines correct_content)))).
Proof. io_terminates. Qed.

Lemma load_returns ww cw : returns (WordReplace.load_word_lists ww cw).
Proof.
  apply try_returns; [apply terminates_load|].
  intros e. apply print_then_ret_returns.
Qed.








Lemma present_probe w p :
  is_Some (files w !! p) \/ p ∈ dirs w ->
  bool_decide (is_Some (files w !! p)) || bool_decide (p ∈ dirs w) = true.
Proof.
  intros [H|H].
  - now rewrite (bool_decide_eq_true_2 _ H).
  - rewrite (bool_decide_eq_true_2 _ H). apply orb_true_r.
Qed.

(** Closes the cases in which the probe for the backup says no although
    the backup is there. *)
Ltac probe_absurd H :=
  exfalso;
  match goal with
  | E : (_ || _) = false |- _ =>
      cbn [files dirs log put_line store] in E;
      rewrite (present_probe _ _ H) in E; discriminate E
  end.

Ltac kept_done H :=
  try discriminate;
  first
  [ probe_absurd H
  | world_simpl; split;
    [ rewrite ?(lookup_insert_ne _ _ _ _ (neq_bak _)); first [reflexivity|assumption]
    | let evs := fresh "evs" in let Hev := fresh "Hev" in let Hin := fresh "Hin" in
      intros evs Hev; rewrite <- ?app_assoc in Hev; apply app_inv_head in Hev;
      subst evs; simpl; intros Hin;
      repeat match goal with
        | H : _ \/ _ |- _ => destruct H
        | H : False |- _ => destruct H
        | H : EvOpenWrite _ = EvOpenWrite _ |- _ =>
            injection H; intros Hin; exact (neq_bak _ Hin)
        | H : _ = EvOpenWrite _ |- _ => discriminate H
        end ] ].

Lemma case_keeps_backup lower upper fp tl w :
  has_backup w fp ->
  never_writes (CaseConverter.convert_case_in_textgrid lower upper fp tl true) (bak fp) w.
Proof.
  intros H.
  unfold never_writes, CaseConverter.convert_case_in_textgrid,
    CaseConverter.convert_case_block.
  io_cases; kept_done H.
Qed.

Lemma space_keeps_backup alnum fp debug w :
  has_backup w fp ->
  never_writes (SpaceFinalDot.fix_space_before_dot alnum fp true debug) (bak fp) w.
Proof.
  intros H.
  unfold never_writes, SpaceFinalDot.fix_space_before_dot,
    SpaceFinalDot.fix_space_block, SpaceFinalDot.debug_text_field.
  io_cases; kept_done H.
Qed.

Lemma parens_keeps_backup fp w :
  has_backup w fp ->
  never_writes (WordReplace.remove_parentheses_content fp true) (bak fp) w.
Proof.
  intros H.
  unfold never_writes, WordReplace.remove_parentheses_content,
    WordReplace.remove_parentheses_block.
  io_cases; kept_done H.
Qed.

Lemma hyphens_keeps_backup fp w :
  has_backup w fp ->
  never_writes (WordReplace.replace_hyphens_underscores fp true) (bak fp) w.
Proof.
  intros H.
  unfold never_writes, WordReplace.replace_hyphens_underscores,
    WordReplace.replace_hyphens_block.
  hyphen_cases; kept_done H.
Qed.
(** X3.  With backups on, the four operations that ask for the backup
    first never write over one that is there: the first backup made of a
    file survives every later run of these operations. *)
Theorem existing_backup_is_kept
    (str_lower str_upper : text -> text) (alnum_beyond : char -> bool)
    (fp : string) (to_lowercase debug : bool) (w : world) :
  has_backup w fp ->
  never_writes
    (CaseConverter.convert_case_in_textgrid str_lower str_upper fp to_lowercase true)
    (bak fp) w
  /\ never_writes (SpaceFinalDot.fix_space_before_dot alnum_beyond fp true debug)
       (bak fp) w
  /\ never_writes (WordReplace.remove_parentheses_content fp true) (bak fp) w
  /\ never_writes (WordReplace.replace_hyphens_underscores fp true) (bak fp) w.
Proof.
  intros H. split; [|split; [|split]].
  - now apply case_keeps_backup.
  - now apply space_keeps_backup.
  - now apply parens_keeps_backup.
  - now apply hyphens_keeps_backup.
Qed.

Lemma existing_backup_witness :
  never_writes (WordReplace.remove_parentheses_content "a.TextGrid" true)
    (bak "a.TextGrid")
    (file_with_backup "a.TextGrid" (text_field (str "id(le)")) (str "old")).
Proof.
  refine (proj1 (proj2 (proj2
    (existing_backup_is_kept ascii_lower ascii_upper ascii_only
       "a.TextGrid" true false
       (file_with_backup "a.TextGrid" (text_field (str "id(le)")) (str "old")) _)))).
  left. exists (Utf8 (str "old")). vm_compute. reflexivity.
Defined.

(** ** A failed operation has not changed the file *)

Ltac clean_done :=
  try discriminate;
  match goal with
  | H : (_, _) = (Exc _, _) |- _ => injection H as _ <-
  | H : (Exc _, _) = (Exc _, _) |- _ => injection H as _ <-
  end;
  world_simpl; rewrite ?(lookup_insert_ne _ _ _ _ (bak_neq _));
  first [reflexivity|assumption].

Lemma case_fails_clean lower upper fp tl backup :
  fails_clean (CaseConverter.convert_case_block lower upper fp tl backup) fp.
Proof.
  intros w e w1. unfold CaseConverter.convert_case_block.
  io_cases; intros; clean_done.
Qed.

Lemma space_fails_clean alnum fp backup debug :
  fails_clean (SpaceFinalDot.fix_space_block alnum fp backup debug) fp.
Proof.
  intros w e w1.
  unfold SpaceFinalDot.fix_space_block, SpaceFinalDot.debug_text_field.
  io_cases; intros; clean_done.
Qed.

Lemma words_fails_clean fp word_map backup :
  fails_clean (WordReplace.correct_words_block fp word_map backup) fp.
Proof.
  intros w e w1. unfold WordReplace.correct_words_block.
  io_cases; intros; clean_done.
Qed.

Lemma parens_fails_clean fp backup :
  fails_clean (WordReplace.remove_parentheses_block fp backup) fp.
Proof.
  intros w e w1. unfold WordReplace.remove_parentheses_block.
  io_cases; intros; clean_done.
Qed.

Lemma hyphens_fails_clean fp backup :
  fails_clean (WordReplace.replace_hyphens_block fp backup) fp.
Proof.
  intros w e w1. unfold WordReplace.replace_hyphens_block.
  hyphen_cases; intros; clean_done.
Qed.
(** ** No change without a backup *)

Lemma probe_true w p :
  bool_decide (is_Some (files w !! p)) || bool_decide (p ∈ dirs w) = true ->
  is_Some (files w !! p) \/ p ∈ dirs w.
Proof.
  intros H. apply orb_prop in H as [H|H]; apply bool_decide_eq_true_1 in H; auto.
Qed.

Ltac backed_done :=
  world_simpl;
  first
    [ left; rewrite ?(lookup_insert_ne _ _ _ _ (bak_neq _));
      first [reflexivity|assumption]
    | right; unfold has_backup; world_simpl;
      rewrite ?(lookup_insert_ne _ _ _ _ (neq_bak _));
      first
        [ left; rewrite lookup_insert_eq; eexists; reflexivity
        | match goal with
          | E : (_ || _) = true |- _ => apply probe_true in E; exact E
          end ] ].

Lemma case_changes_with_backup lower upper fp tl :
  changes_with_backup
    (CaseConverter.convert_case_in_textgrid lower upper fp tl true) fp.
Proof.
  intros w.
  unfold CaseConverter.convert_case_in_textgrid, CaseConverter.convert_case_block.
  io_cases; backed_done.
Qed.

Lemma space_changes_with_backup alnum fp debug :
  changes_with_backup (SpaceFinalDot.fix_space_before_dot alnum fp true debug) fp.
Proof.
  intros w.
  unfold SpaceFinalDot.fix_space_before_dot, SpaceFinalDot.fix_space_block,
    SpaceFinalDot.debug_text_field.
  io_cases; backed_done.
Qed.

Lemma words_changes_with_backup fp word_map :
  changes_with_backup (WordReplace.correct_words_in_textgrid fp word_map true) fp.
Proof.
  intros w.
  unfold WordReplace.correct_words_in_textgrid, WordReplace.correct_words_block.
  io_cases; backed_done.
Qed.

Lemma parens_changes_with_backup fp :
  changes_with_backup (WordReplace.remove_parentheses_content fp true) fp.
Proof.
  intros w.
  unfold WordReplace.remove_parentheses_content, WordReplace.remove_parentheses_block.
  io_cases; backed_done.
Qed.

Lemma hyphens_changes_with_backup fp :
  changes_with_backup (WordReplace.replace_hyphens_underscores fp true) fp.
Proof.
  intros w.
  unfold WordReplace.replace_hyphens_underscores, WordReplace.replace_hyphens_block.
  hyphen_cases; backed_done.
Qed.


Lemma try_keeps_file {A} (block : io A) m (zero : A) fp :
  fails_clean block fp ->
  error_keeps_file
    (try_except block (fun e => bind (print (m e)) (fun _ => ret zero))) block fp.
Proof.
  intros H w e w1 Hb. rewrite try_except_run, Hb. cbn. exact (H _ _ _ Hb).
Qed.

Ltac open_done :=
  try discriminate;
  match goal with
  | H : (_, _) = (Exc _, _) |- _ => injection H as <- _
  | H : (Exc _, _) = (Exc _, _) |- _ => injection H as <- _
  end;
  unfold open_or_sub_error; eauto 10.

Lemma case_fails_at_open lower upper fp tl backup :
  fails_at_open_or_sub (CaseConverter.convert_case_block lower upper fp tl backup) fp.
Proof.
  intros w e w1. unfold CaseConverter.convert_case_block.
  io_cases; intros; open_done.
Qed.

Lemma space_fails_at_open alnum fp backup debug :
  fails_at_open_or_sub (SpaceFinalDot.fix_space_block alnum fp backup debug) fp.
Proof.
  intros w e w1.
  unfold SpaceFinalDot.fix_space_block, SpaceFinalDot.debug_text_field.
  io_cases; intros; open_done.
Qed.

Lemma words_fails_at_open fp word_map backup :
  fails_at_open_or_sub (WordReplace.correct_words_block fp word_map backup) fp.
Proof.
  intros w e w1. unfold WordReplace.correct_words_block.
  io_cases; intros; open_done.
Qed.

Lemma parens_fails_at_open fp backup :
  fails_at_open_or_sub (WordReplace.remove_parentheses_block fp backup) fp.
Proof.
  intros w e w1. unfold WordReplace.remove_parentheses_block.
  io_cases; intros; open_done.
Qed.

Lemma hyphens_fails_at_open fp backup :
  fails_at_open_or_sub (WordReplace.replace_hyphens_block fp backup) fp.
Proof.
  intros w e w1. unfold WordReplace.replace_hyphens_block.
  hyphen_cases; intros; open_done.
Qed.

(** X4.  An operation that reports an error raised by [open], by the
    decoding of the file or by [re.sub] has not changed the file.  In
    each of the five per-file operations the [try] block ends with no
    other exception than these (the file is missing or not UTF-8, the
    backup or the file cannot be opened for writing, [re.sub] refuses the
    replacement), and when it ends with one the TextGrid file holds what
    it held before the call.  A [write] or [close] that fails after the
    file has been opened for writing, and emptied, is outside this
    statement. *)
Theorem reported_error_means_unchanged_file
    (str_lower str_upper : text -> text) (alnum_beyond : char -> bool)
    (fp : string) (to_lowercase backup debug : bool)
    (word_map : WordReplace.dict text) :
  (error_keeps_file
     (CaseConverter.convert_case_in_textgrid str_lower str_upper fp to_lowercase backup)
     (CaseConverter.convert_case_block str_lower str_upper fp to_lowercase backup) fp
   /\ fails_at_open_or_sub
        (CaseConverter.convert_case_block str_lower str_upper fp to_lowercase backup) fp)
  /\ (error_keeps_file
        (SpaceFinalDot.fix_space_before_dot alnum_beyond fp backup debug)
        (SpaceFinalDot.fix_space_block alnum_beyond fp backup debug) fp
      /\ fails_at_open_or_sub
           (SpaceFinalDot.fix_space_block alnum_beyond fp backup debug) fp)
  /\ (error_keeps_file
        (WordReplace.correct_words_in_textgrid fp word_map backup)
        (WordReplace.correct_words_block fp word_map backup) fp
      /\ fails_at_open_or_sub (WordReplace.correct_words_block fp word_map backup) fp)
  /\ (error_keeps_file
        (WordReplace.remove_parentheses_content fp backup)
        (WordReplace.remove_parentheses_block fp backup) fp
      /\ fails_at_open_or_sub (WordReplace.remove_parentheses_block fp backup) fp)
  /\ (error_keeps_file
        (WordReplace.replace_hyphens_underscores fp backup)
        (WordReplace.replace_hyphens_block fp backup) fp
      /\ fails_at_open_or_sub (WordReplace.replace_hyphens_block fp backup) fp).
Proof.
  split; [split; [apply try_keeps_file, case_fails_clean|apply case_fails_at_open]|].
  split; [split; [apply try_keeps_file, space_fails_clean|apply space_fails_at_open]|].
  split; [split; [apply try_keeps_file, words_fails_clean|apply words_fails_at_open]|].
  split; [split; [apply try_keeps_file, parens_fails_clean|apply parens_fails_at_open]|].
  split; [apply try_keeps_file, hyphens_fails_clean|apply hyphens_fails_at_open].
Qed.

(** X5.  With backups on, no operation changes a file without a backup:
    after each of the five per-file operations the TextGrid file is as
    it was, or a backup of it exists.  In particular, when the backup
    cannot be written the file is not touched. *)
Theorem no_change_without_backup
    (str_lower str_upper : text -> text) (alnum_beyond : char -> bool)
    (fp : string) (to_lowercase debug : bool) (word_map : WordReplace.dict text) :
  changes_with_backup
    (CaseConverter.convert_case_in_textgrid str_lower str_upper fp to_lowercase true) fp
  /\ changes_with_backup
       (SpaceFinalDot.fix_space_before_dot alnum_beyond fp true debug) fp
  /\ changes_with_backup (WordReplace.correct_words_in_textgrid fp word_map true) fp
  /\ changes_with_backup (WordReplace.remove_parentheses_content fp true) fp
  /\ changes_with_backup (WordReplace.replace_hyphens_underscores fp true) fp.
Proof.
  split; [apply case_changes_with_backup|].
  split; [apply space_changes_with_backup|].
  split; [apply words_changes_with_backup|].
  split; [apply parens_changes_with_backup|].
  apply hyphens_changes_with_backup.
Qed.

(** ** The scan is the only tiling *)

Lemma match_here_nil r : 0 < min_len r -> match_here r [] = None.
Proof.
  intros Hr. destruct (match_here r []) as [m|] eqn:E; [exfalso|reflexivity].
  pose proof (match_here_nonempty _ _ _ Hr E) as Hne.
  apply match_here_sound in E as (s' & E & _).
  symmetry in E. apply app_eq_nil in E as [E _]. contradiction.
Qed.

Lemma tiling_scan r s ps : 0 < min_len r -> tiling r s ps -> scan r s 0 = ps.
Proof.
  intros Hr. induction 1 as [|c s ps Hm Ht IH|m s ps Hm Hne Ht IH].
  - cbn [scan]. now rewrite match_here_nil.
  - cbn [scan]. rewrite Hm. now rewrite IH.
  - rewrite (scan_hit r (whole m) s m Hm eq_refl Hne). now rewrite IH.
Qed.

(** Without a match the substitution gives the text back. *)
Lemma sub_fn_no_hit r f s :
  0 < min_len r -> findall_len r s = 0 -> sub_fn r f s = s.
Proof.
  intros Hr H. unfold sub_fn. eapply tiling_no_hit; [apply scan_tiling, Hr|].
  unfold findall_len, finditer in H. now apply length_zero_iff_nil.
Qed.

(** ** Case conversion, match by match *)

Section CaseFacts.
Variables lower upper : text -> text.
Variable tl : bool.

(** The replacement of a match is the match with its value converted. *)
Lemma case_replace_shape m s :
  match_here CaseConverter.pattern s = Some m ->
  exists o v,
    whole m = o ++ v ++ [quote]
    /\ CaseConverter.case_replace lower upper tl m
       = o ++ CaseConverter.recase lower upper tl v ++ [quote]
    /\ group (groups m) 2 = v
    /\ is_field_open o /\ forallb (not_char quote) v = true.
Proof.
  intros H. destruct (case_hit_shape _ _ H) as (o & v & Hw & H1 & H2 & H3 & Ho & Hv).
  exists o, v. split; [exact Hw|]. split; [|auto].
  unfold CaseConverter.case_replace. rewrite H1, H2, H3.
  destruct (text_eqb (CaseConverter.recase lower upper tl v) v) eqn:E;
    cbn [negb]; [|reflexivity].
  apply text_eqb_eq in E. now rewrite E, Hw.
Qed.

(** A match that is not counted is replaced by itself. *)
Lemma case_unchanged_hit m s :
  match_here CaseConverter.pattern s = Some m ->
  CaseConverter.changes lower upper tl m = false ->
  CaseConverter.case_replace lower upper tl m = whole m.
Proof.
  intros H Hc. unfold CaseConverter.changes in Hc.
  unfold CaseConverter.case_replace. now rewrite Hc.
Qed.

Lemma case_zero_unchanged content :
  CaseConverter.count_changes lower upper tl content = 0 ->
  sub_fn CaseConverter.pattern (CaseConverter.case_replace lower upper tl) content
  = content.
Proof.
  unfold CaseConverter.count_changes, finditer, sub_fn. intros H.
  apply length_zero_iff_nil in H.
  pose proof (scan_tiling _ case_pattern_min_len content) as Ht.
  induction Ht as [|c s ps Hm Ht IH|m s ps Hm Hne Ht IH]; cbn [render hits] in *.
  - reflexivity.
  - now rewrite IH.
  - cbn [List.filter] in H.
    destruct (CaseConverter.changes lower upper tl m) eqn:E; [discriminate|].
    rewrite (case_unchanged_hit _ _ Hm E). now rewrite IH.
Qed.
End CaseFacts.


Lemma count_quotes_app a b : count_quotes (a ++ b) = count_quotes a + count_quotes b.
Proof. unfold count_quotes. now rewrite List.filter_app, length_app. Qed.

Lemma count_quotes_free v : forallb (not_char quote) v = true -> count_quotes v = 0.
Proof.
  intros H. unfold count_quotes. rewrite filter_none; [reflexivity|].
  intros c Hc. apply (forallb_In _ _ _ H) in Hc. unfold not_char in Hc.
  unfold is_char. now apply negb_true_iff in Hc.
Qed.

Lemma count_quotes_opening o : is_field_open o -> count_quotes o = 1.
Proof.
  intros H. apply opening_shape in H as (A & -> & HA).
  rewrite count_quotes_app, (count_quotes_free _ HA). reflexivity.
Qed.

(** A text with a double quote splits at its first one. *)
Lemma first_quote s :
  0 < count_quotes s ->
  exists v rest, s = v ++ quote :: rest /\ forallb (not_char quote) v = true.
Proof.
  induction s as [|c s IH]; intros H.
  - inversion H.
  - destruct (is_char quote c) eqn:E.
    + exists [], s. split; [|reflexivity]. unfold is_char in E.
      apply N.eqb_eq in E. now subst c.
    + destruct IH as (v & rest & -> & Hv).
      { unfold count_quotes in *. cbn [List.filter] in H. now rewrite E in H. }
      exists (c :: v), rest. split; [reflexivity|]. cbn [forallb].
      rewrite Hv, andb_true_r. unfold not_char. unfold is_char in E. now rewrite E.
Qed.

Lemma case_lang o v :
  is_field_open o -> forallb (not_char quote) v = true ->
  lang CaseConverter.pattern (o ++ v ++ [quote]).
Proof.
  intros Ho Hv. unfold CaseConverter.pattern. cbn [lang].
  exists o, (v ++ [quote]). split; [reflexivity|]. split.
  - eapply den_lang, field_open_den, Ho.
  - exists v, [quote]. split; [reflexivity|]. split; [exact Hv|].
    exists quote. split; [reflexivity|]. unfold is_char. apply N.eqb_refl.
  Unshelve. exact [].
Qed.

(** The pattern matches at the start of a text exactly when the text
    starts with a field opening, a run without double quote and a
    double quote. *)
Lemma case_match_field o v rest :
  is_field_open o -> forallb (not_char quote) v = true ->
  exists m,
    match_here CaseConverter.pattern (o ++ v ++ quote :: rest) = Some m
    /\ whole m = o ++ v ++ [quote] /\ value_of m = v.
Proof.
  intros Ho Hv.
  destruct (match_here_complete _ _ rest (case_lang o v Ho Hv)) as [m Hm].
  replace ((o ++ v ++ [quote]) ++ rest) with (o ++ v ++ quote :: rest) in Hm
    by now rewrite <- !app_assoc.
  exists m. split; [exact Hm|].
  destruct (case_hit_shape _ _ Hm) as (o' & v' & Hw & _ & H2 & _ & Ho' & Hv').
  apply match_here_sound in Hm as (s' & Hs & _).
  rewrite Hw, <- !app_assoc in Hs. cbn [app] in Hs.
  destruct (opening_prefix_unique _ _ _ _ Ho Ho' Hs) as [-> Hs'].
  destruct (first_split _ _ _ _ _ _ _ Hv Hv' quote_is_quote quote_is_quote Hs')
    as (-> & _ & _).
  split; [exact Hw|exact H2].
Qed.

Lemma case_no_match t :
  match_here CaseConverter.pattern t = None ->
  forall o v rest,
    is_field_open o -> forallb (not_char quote) v = true ->
    t <> o ++ v ++ quote :: rest.
Proof.
  intros H o v rest Ho Hv ->.
  destruct (case_match_field o v rest Ho Hv) as (m & Hm & _). congruence.
Qed.
Section CaseTwice.
Variables lower upper : text -> text.
Variable tl : bool.
Hypothesis Hq : keeps_quote_free (CaseConverter.recase lower upper tl).

(** The conversion keeps the number of double quotes. *)
Lemma case_pass_quotes s ps :
  tiling CaseConverter.pattern s ps ->
  count_quotes (render (CaseConverter.case_replace lower upper tl) ps) = count_quotes s.
Proof.
  induction 1 as [|c s ps Hm Ht IH|m s ps Hm Hne Ht IH]; cbn [render].
  - reflexivity.
  - change (c :: ?x) with ([c] ++ x). now rewrite !count_quotes_app, IH.
  - destruct (case_replace_shape lower upper tl _ _ Hm)
      as (o & v & Hw & Hr & _ & Ho & Hv).
    rewrite Hr, Hw, !count_quotes_app, IH.
    now rewrite (count_quotes_free _ Hv), (count_quotes_free _ (Hq _ Hv)).
Qed.

(** The conversion keeps what stands before the first double quote. *)
Lemma case_pass_head s ps :
  tiling CaseConverter.pattern s ps ->
  forall A rest',
    forallb (not_char quote) A = true ->
    render (CaseConverter.case_replace lower upper tl) ps = A ++ quote :: rest' ->
    exists rest, s = A ++ quote :: rest /\ count_quotes rest = count_quotes rest'.
Proof.
  induction 1 as [|c s ps Hm Ht IH|m s ps Hm Hne Ht IH]; cbn [render];
    intros A rest' HA E.
  - now destruct A.
  - destruct A as [|a A]; cbn [app] in E; injection E as -> E.
    + exists s. split; [reflexivity|]. rewrite <- E. symmetry.
      now apply case_pass_quotes.
    + cbn [forallb] in HA. apply andb_prop in HA as [_ HA].
      destruct (IH _ _ HA E) as (rest & -> & Hc). exists rest. auto.
  - destruct (case_replace_shape lower upper tl _ _ Hm)
      as (o & v & Hw & Hr & _ & Ho & Hv).
    destruct (opening_shape _ Ho) as (A0 & -> & HA0).
    rewrite Hr, <- !app_assoc in E. cbn [app] in E.
    destruct (first_split _ _ _ _ _ _ _ HA0 HA quote_is_quote quote_is_quote E)
      as (-> & _ & <-).
    exists (v ++ quote :: s). split.
    + rewrite Hw, <- !app_assoc. reflexivity.
    + rewrite !count_quotes_app.
      rewrite (count_quotes_free _ Hv), (count_quotes_free _ (Hq _ Hv)).
      change (quote :: ?x) with ([quote] ++ x). rewrite !count_quotes_app.
      now rewrite (case_pass_quotes _ _ Ht).
Qed.

(** Where the pattern did not match before the conversion, it does not
    match after it. *)
Lemma case_gap_stays c s ps :
  tiling CaseConverter.pattern s ps ->
  match_here CaseConverter.pattern (c :: s) = None ->
  match_here CaseConverter.pattern
    (c :: render (CaseConverter.case_replace lower upper tl) ps) = None.
Proof.
  intros Ht Hm.
  destruct (match_here CaseConverter.pattern
              (c :: render (CaseConverter.case_replace lower upper tl) ps))
    as [m'|] eqn:E; [exfalso|reflexivity].
  destruct (case_hit_shape _ _ E) as (o & v & Hw & _ & _ & _ & Ho & Hv).
  apply match_here_sound in E as (s' & Hs & _).
  rewrite Hw, <- !app_assoc in Hs. cbn [app] in Hs.
  destruct (opening_shape _ Ho) as (A & HoA & HA).
  rewrite HoA, <- app_assoc in Hs. cbn [app] in Hs.
  destruct (case_pass_head (c :: s) (Gap c :: ps) (tiling_gap _ _ _ _ Hm Ht)
              A (v ++ quote :: s') HA Hs) as (rest & Hrest & Hc).
  rewrite count_quotes_app in Hc. change (quote :: s') with ([quote] ++ s') in Hc.
  rewrite count_quotes_app in Hc.
  destruct (first_quote rest) as (v0 & rest0 & -> & Hv0).
  { rewrite Hc. change (count_quotes [quote]) with 1. lia. }
  apply (case_no_match _ Hm o v0 rest0 Ho Hv0).
  rewrite Hrest, HoA, <- app_assoc. reflexivity.
Qed.

(** The conversion turns the tiling of the text into the tiling of the
    converted text: the same gaps, and each match with its value
    converted. *)
Lemma case_pass_tiling s ps :
  tiling CaseConverter.pattern s ps ->
  exists ps',
    tiling CaseConverter.pattern
      (render (CaseConverter.case_replace lower upper tl) ps) ps'
    /\ List.map value_of (hits ps')
       = List.map (fun m => CaseConverter.recase lower upper tl (value_of m)) (hits ps)
    /\ render whole ps' = render (CaseConverter.case_replace lower upper tl) ps.
Proof.
  induction 1 as [|c s ps Hm Ht (ps' & IH1 & IH2 & IH3)
                 |m s ps Hm Hne Ht (ps' & IH1 & IH2 & IH3)]; cbn [render hits].
  - exists []. split; [constructor|]. split; reflexivity.
  - exists (Gap c :: ps'). split; [|split].
    + apply tiling_gap; [exact (case_gap_stays c s ps Ht Hm)|exact IH1].
    + exact IH2.
    + cbn [render]. now rewrite IH3.
  - destruct (case_replace_shape lower upper tl _ _ Hm)
      as (o & v & Hw & Hr & Hv2 & Ho & Hv).
    destruct (case_match_field o (CaseConverter.recase lower upper tl v)
                (render (CaseConverter.case_replace lower upper tl) ps)
                Ho (Hq _ Hv)) as (m' & Hm' & Hw' & Hv').
    exists (Hit m' :: ps'). split; [|split].
    + rewrite Hr.
      replace ((o ++ CaseConverter.recase lower upper tl v ++ [quote]) ++
               render (CaseConverter.case_replace lower upper tl) ps)
        with (whole m' ++ render (CaseConverter.case_replace lower upper tl) ps)
        by now rewrite Hw'.
      apply tiling_hit; [| |exact IH1].
      2:{ rewrite Hw'. intros E. apply (f_equal (@length char)) in E.
          rewrite !length_app in E. cbn [length] in E. lia. }
      rewrite Hw', <- !app_assoc. exact Hm'.
    + cbn [hits List.map]. rewrite IH2, Hv'. unfold value_of at 2. now rewrite Hv2.
    + cbn [render]. now rewrite IH3, Hw', Hr.
Qed.
End CaseTwice.
Section CaseTwiceFacts.
Variables lower upper : text -> text.
Variable tl : bool.
Hypothesis Hq : keeps_quote_free (CaseConverter.recase lower upper tl).

(** After the conversion the pattern finds the same fields, each with
    its value converted. *)
Lemma case_fields_converted content :
  List.map value_of
    (finditer CaseConverter.pattern
       (sub_fn CaseConverter.pattern (CaseConverter.case_replace lower upper tl) content))
  = List.map (fun m => CaseConverter.recase lower upper tl (value_of m))
      (finditer CaseConverter.pattern content).
Proof.
  unfold finditer, sub_fn.
  destruct (case_pass_tiling lower upper tl Hq _ _
              (scan_tiling _ case_pattern_min_len content)) as (ps' & Ht & Hv & _).
  now rewrite (tiling_scan _ _ _ case_pattern_min_len Ht).
Qed.

(** A field counts after the conversion only if converting its value
    once more changes it again. *)
Lemma case_twice_zero content :
  (forall v, CaseConverter.recase lower upper tl (CaseConverter.recase lower upper tl v)
             = CaseConverter.recase lower upper tl v) ->
  CaseConverter.count_changes lower upper tl
    (sub_fn CaseConverter.pattern (CaseConverter.case_replace lower upper tl) content)
  = 0.
Proof.
  intros Hi. unfold CaseConverter.count_changes.
  rewrite filter_none; [reflexivity|]. intros m' Hin.
  apply (in_map value_of) in Hin. rewrite case_fields_converted in Hin.
  apply in_map_iff in Hin as (m & E & _).
  unfold CaseConverter.changes. fold (value_of m'). rewrite <- E, Hi.
  now rewrite text_eqb_refl.
Qed.

(** Without a counted field the text is unchanged; with one it is not. *)
Lemma case_count_iff content :
  CaseConverter.count_changes lower upper tl content = 0
  <-> sub_fn CaseConverter.pattern (CaseConverter.case_replace lower upper tl) content
      = content.
Proof.
  split; [apply case_zero_unchanged|].
  intros E. unfold CaseConverter.count_changes.
  rewrite filter_none; [reflexivity|]. intros m Hin.
  pose proof (case_fields_converted content) as H. rewrite E in H.
  unfold CaseConverter.changes. fold (value_of m).
  assert (Hm : forall l : list rmatch_obj,
             List.map value_of l
             = List.map (fun m => CaseConverter.recase lower upper tl (value_of m)) l ->
             forall m, In m l ->
             CaseConverter.recase lower upper tl (value_of m) = value_of m).
  { induction l as [|x l IH]; intros Hl y Hy; [destruct Hy|].
    cbn [List.map] in Hl. injection Hl as H1 H2.
    destruct Hy as [<-|Hy]; [now symmetry|now apply IH]. }
  rewrite (Hm _ H m Hin). now rewrite text_eqb_refl.
Qed.
End CaseTwiceFacts.

(** ** The run of an operation on a file that can be read and written *)



Lemma ascii_lower_quote_free : keeps_quote_free ascii_lower.
Proof.
  intros v. unfold ascii_lower. induction v as [|c v IH]; cbn [forallb List.map];
    [reflexivity|].
  intros H. apply andb_prop in H as [Hc Hv]. rewrite (IH Hv), andb_true_r.
  destruct ((65 <=? c) && (c <=? 90))%N eqn:E; [|exact Hc].
  apply andb_prop in E as [E1 E2]. apply N.leb_le in E1, E2.
  unfold not_char, quote. apply negb_true_iff, N.eqb_neq. lia.
Qed.

Lemma ascii_lower_twice v : ascii_lower (ascii_lower v) = ascii_lower v.
Proof.
  unfold ascii_lower. rewrite List.map_map. apply List.map_ext. intros c.
  destruct ((65 <=? c) && (c <=? 90))%N eqn:E; [|now rewrite E].
  apply andb_prop in E as [E1 E2]. apply N.leb_le in E1, E2.
  replace ((65 <=? c + 32) && (c + 32 <=? 90))%N with false; [reflexivity|].
  symmetry. apply andb_false_iff. right. apply N.leb_gt. lia.
Qed.

(** X8.  Case conversion is idempotent.  Take a conversion ([str.lower]
    or [str.upper]) that never makes a double quote and that changes
    nothing when applied twice.  Then after the conversion of a text the
    pattern finds the same fields as before, each with its value
    converted; a second conversion counts nothing and gives the same
    text. *)
Theorem case_conversion_is_idempotent
    (str_lower str_upper : text -> text) (to_lowercase : bool) (content : text) :
  keeps_quote_free (CaseConverter.recase str_lower str_upper to_lowercase) ->
  (forall v,
     CaseConverter.recase str_lower str_upper to_lowercase
       (CaseConverter.recase str_lower str_upper to_lowercase v)
     = CaseConverter.recase str_lower str_upper to_lowercase v) ->
  let convert :=
    sub_fn CaseConverter.pattern
      (CaseConverter.case_replace str_lower str_upper to_lowercase) in
  List.map value_of (finditer CaseConverter.pattern (convert content))
  = List.map (fun m => CaseConverter.recase str_lower str_upper to_lowercase (value_of m))
      (finditer CaseConverter.pattern content)
  /\ CaseConverter.count_changes str_lower str_upper to_lowercase (convert content) = 0
  /\ convert (convert content) = convert content.
Proof.
  intros Hq Hi convert. split; [now apply case_fields_converted|].
  assert (H0 : CaseConverter.count_changes str_lower str_upper to_lowercase
                 (convert content) = 0) by now apply case_twice_zero.
  split; [exact H0|]. now apply case_zero_unchanged.
Qed.

Lemma case_conversion_witness :
  let convert :=
    sub_fn CaseConverter.pattern
      (CaseConverter.case_replace ascii_lower ascii_upper true) in
  let content := text_field (str "Le Chat") in
  List.map value_of (finditer CaseConverter.pattern (convert content))
  = List.map (fun m => CaseConverter.recase ascii_lower ascii_upper true (value_of m))
      (finditer CaseConverter.pattern content)
  /\ CaseConverter.count_changes ascii_lower ascii_upper true (convert content) = 0
  /\ convert (convert content) = convert content.
Proof.
  apply (case_conversion_is_idempotent ascii_lower ascii_upper true
           (text_field (str "Le Chat"))).
  - exact ascii_lower_quote_free.
  - exact ascii_lower_twice.
Defined.
Lemma space_count_iff alnum content :
  findall_len (SpaceFinalDot.pattern1 alnum) content
  + findall_len (SpaceFinalDot.pattern2 alnum) content = 0
  <-> SpaceFinalDot.fixed_content alnum content = content.
Proof.
  split.
  - intros H. unfold SpaceFinalDot.fixed_content.
    rewrite (sub_fn_no_hit (SpaceFinalDot.pattern1 alnum)) by
      (first [apply pattern1_min_len|lia]).
    apply sub_fn_no_hit; [apply pattern2_min_len|lia].
  - intros H. destruct (space_unchanged_counts alnum content H) as [-> ->].
    reflexivity.
Qed.

Lemma paren_count_iff content :
  findall_len WordReplace.paren_pattern content = 0
  <-> sub_fn WordReplace.paren_pattern paren_repl content = content.
Proof.
  split.
  - apply sub_fn_no_hit, paren_pattern_min_len.
  - intros H. apply paren_unchanged_count. rewrite sub_paren. now rewrite H.
Qed.

Lemma hyphen_count_iff content :
  findall_len WordReplace.pattern_hyphen content = 0
  <-> sub_fn WordReplace.pattern_hyphen hyphen_repl content = content.
Proof.
  split.
  - apply sub_fn_no_hit, pattern_hyphen_min_len.
  - intros H. apply hyphen_unchanged_count. rewrite sub_hyphen. now rewrite H.
Qed.

(** X7.  A count of zero means an unchanged text, and the other way
    round: for the spacing fix, parenthesis stripping and one pass of
    hyphen folding the number of matches is zero exactly when the
    substitution gives the text back, and so it is for case conversion
    with a conversion that never makes a double quote.  So none of these
    operations drops a change (zero reported, text changed) or reports a
    change it did not make. *)
Theorem zero_count_means_unchanged_text
    (str_lower str_upper : text -> text) (alnum_beyond : char -> bool)
    (content : text) :
  (forall to_lowercase,
     keeps_quote_free (CaseConverter.recase str_lower str_upper to_lowercase) ->
     CaseConverter.count_changes str_lower str_upper to_lowercase content = 0
     <-> sub_fn CaseConverter.pattern
           (CaseConverter.case_replace str_lower str_upper to_lowercase) content
         = content)
  /\ (findall_len (SpaceFinalDot.pattern1 alnum_beyond) content
      + findall_len (SpaceFinalDot.pattern2 alnum_beyond) content = 0
      <-> SpaceFinalDot.fixed_content alnum_beyond content = content)
  /\ (findall_len WordReplace.paren_pattern content = 0
      <-> sub WordReplace.paren_pattern 2 (str "\1\2") content = inr content)
  /\ (findall_len WordReplace.pattern_hyphen content = 0
      <-> sub WordReplace.pattern_hyphen 2 (str "\1 \2") content = inr content).
Proof.
  split; [intros tl Hq; now apply case_count_iff|].
  split; [apply space_count_iff|].
  split.
  - rewrite sub_paren, paren_count_iff. split; [now intros ->|now intros [= ->]].
  - rewrite sub_hyphen, hyphen_count_iff. split; [now intros ->|now intros [= ->]].
Qed.

Lemma zero_count_witness :
  CaseConverter.count_changes ascii_lower ascii_upper true (text_field (str "chat")) = 0
  <-> sub_fn CaseConverter.pattern
        (CaseConverter.case_replace ascii_lower ascii_upper true)
        (text_field (str "chat"))
      = text_field (str "chat").
Proof.
  apply (proj1 (zero_count_means_unchanged_text ascii_lower ascii_upper ascii_only
                  (text_field (str "chat"))) true).
  exact ascii_lower_quote_free.
Defined.

(** ** Hyphen folding: what is counted, and a second run *)

Lemma folded_count_hu a b : folded a b -> count_hu b <= count_hu a.
Proof.
  induction 1 as [|x y a b Hxy Hab IH]; [reflexivity|].
  change (x :: a) with ([x] ++ a). change (y :: b) with ([y] ++ b).
  rewrite !count_hu_app.
  destruct Hxy as [->|[Hx ->]]; [lia|].
  change (count_hu [space]) with 0. lia.
Qed.

(** The loop folds at least one character for every match of the first
    pass. *)
Lemma fold_hyphens_count s w :
  exists final,
    WordReplace.fold_hyphens (S (length s)) s w = (Val final, w)
    /\ folded s final
    /\ finditer WordReplace.pattern_hyphen final = []
    /\ count_hu final + findall_len WordReplace.pattern_hyphen s <= count_hu s.
Proof.
  pose proof (scan_tiling _ pattern_hyphen_min_len s) as Ht.
  destruct (hyphen_pass _ _ Ht) as [Hf Hc].
  cbn [WordReplace.fold_hyphens]. unfold bind, lift_re. rewrite sub_hyphen.
  unfold ret, sub_fn, findall_len, finditer.
  destruct (text_eqb (render hyphen_repl (scan WordReplace.pattern_hyphen s 0)) s) eqn:E.
  - apply text_eqb_eq in E. rewrite E in Hc.
    exists s. split; [reflexivity|]. split; [apply folded_refl|]. split; [|lia].
    apply length_zero_iff_nil. lia.
  - apply text_eqb_neq in E.
    assert (Hh : hits (scan WordReplace.pattern_hyphen s 0) <> []).
    { intros Hh. apply E. eapply tiling_no_hit; eauto. }
    assert (0 < length (hits (scan WordReplace.pattern_hyphen s 0))).
    { destruct (hits _); [contradiction|simpl; lia]. }
    destruct (fold_hyphens_run (length s)
                (render hyphen_repl (scan WordReplace.pattern_hyphen s 0)) w)
      as (final & Hrun & Hff & Hnone & _).
    { pose proof (count_hu_le s). lia. }
    exists final. split; [exact Hrun|]. split; [eapply folded_trans; eauto|].
    split; [exact Hnone|]. apply folded_count_hu in Hff. lia.
Qed.

Lemma hyphens_run fp backup w content :
  files w !! fp = Some (Utf8 content) -> fp ∉ locked w -> bak fp ∉ locked w ->
  exists w' final,
    WordReplace.replace_hyphens_underscores fp backup w
    = (Val (Z.of_nat (findall_len WordReplace.pattern_hyphen content)), w')
    /\ files w' !! fp = Some (Utf8 final)
    /\ locked w' = locked w
    /\ folded content final
    /\ findall_len WordReplace.pattern_hyphen final = 0
    /\ count_hu final + findall_len WordReplace.pattern_hyphen content
       <= count_hu content.
Proof.
  intros Hfile Hfp Hbak.
  unfold WordReplace.replace_hyphens_underscores, WordReplace.replace_hyphens_block.
  rewrite try_except_run, bind_run, (read_file_some _ _ _ Hfile).
  destruct (backup_if_absent_ok backup fp content (log (EvOpenRead fp) w) Hbak)
    as (w1 & Hb & Hl1 & Hf1).
  rewrite bind_run, Hb.
  destruct (fold_hyphens_count content w1) as (final & Hrun & Hfold & Hnone & Hcount).
  assert (Hrem : findall_len WordReplace.pattern_hyphen final = 0)
    by (unfold findall_len; now rewrite Hnone).
  rewrite bind_run, Hrun. cbv zeta. rewrite Hrem. change (Z.of_nat 0) with 0%Z.
  rewrite Z.sub_0_r.
  destruct (0 <? Z.of_nat (findall_len WordReplace.pattern_hyphen content))%Z eqn:Hc.
  - simpl when. rewrite !bind_run, write_file_free by (rewrite Hl1; exact Hfp).
    simpl. eexists _, final. split; [reflexivity|].
    split; [simpl; apply lookup_insert_eq|]. auto.
  - simpl. eexists _, final. split; [reflexivity|].
    split; [|auto].
    apply Z.ltb_ge in Hc.
    assert (E0 : findall_len WordReplace.pattern_hyphen content = 0) by lia.
    destruct (fold_hyphens_run (S (length content)) content w1)
      as (final' & Hrun' & _ & _ & Hsame).
    { pose proof (count_hu_le content). lia. }
    rewrite Hrun in Hrun'. injection Hrun' as <-.
    rewrite Hsame; [rewrite Hf1; exact Hfile|].
    apply length_zero_iff_nil. exact E0.
Qed.



(** X10.  Hyphen/underscore folding is idempotent: run a second time on a
    file it has just processed, it returns zero and does not open the
    file for writing. *)
Theorem hyphen_folding_twice
    (fp : string) (backup : bool) (w : world) (content : text) :
  files w !! fp = Some (Utf8 content) -> fp ∉ locked w -> bak fp ∉ locked w ->
  leaves_unwritten (WordReplace.replace_hyphens_underscores fp backup) fp 0%Z
    (snd (WordReplace.replace_hyphens_underscores fp backup w)).
Proof.
  intros Hf Hl Hb.
  destruct (hyphens_run fp backup w content Hf Hl Hb)
    as (w' & final & H1 & H2 & _ & _ & H3 & _).
  rewrite H1. cbn [snd].
  apply hyphens_unwritten with (content := final); [exact H2|].
  rewrite sub_hyphen. f_equal. now apply hyphen_count_iff.
Qed.

Lemma hyphen_folding_twice_witness :
  leaves_unwritten (WordReplace.replace_hyphens_underscores "a.TextGrid" true)
    "a.TextGrid" 0%Z
    (snd (WordReplace.replace_hyphens_underscores "a.TextGrid" true
            (one_file "a.TextGrid" (text_field (str "est_ce_que"))))).
Proof.
  apply (hyphen_folding_twice "a.TextGrid" true
           (one_file "a.TextGrid" (text_field (str "est_ce_que")))
           (text_field (str "est_ce_que"))).
  - reflexivity.
  - apply nothing_locked.
  - apply nothing_locked.
Defined.

(** ** Parenthesis stripping, span by span *)

(** A match of the parenthesis pattern, part by part. *)
Lemma paren_hit_parts m s :
  match_here WordReplace.paren_pattern s = Some m ->
  exists o a b c,
    whole m = o ++ a ++ lparen :: b ++ rparen :: c ++ [quote]
    /\ paren_repl m = o ++ a ++ c ++ [quote]
    /\ is_field_open o
    /\ forallb (fun x => not_char quote x && not_char lparen x) a = true
    /\ forallb (not_char rparen) b = true
    /\ forallb (not_char quote) c = true.
Proof.
  intros H. apply match_here_sound in H as (s' & _ & H).
  destruct m as [w cs]. cbn [whole groups] in *.
  unfold WordReplace.paren_pattern in H. den_fields.
  unfold paren_repl. cbn [groups group Nat.eqb].
  match goal with
  | |- context [(?o ++ ?a) ++ [lparen] ++ ?b ++ [rparen] ++ ?c ++ [quote]] =>
      exists o, a, b, c
  end.
  rewrite <- !app_assoc. cbn [app]. repeat split; assumption.
Qed.

Lemma paren_lang o a b c :
  is_field_open o ->
  forallb (fun x => not_char quote x && not_char lparen x) a = true ->
  forallb (not_char rparen) b = true ->
  forallb (not_char quote) c = true ->
  lang WordReplace.paren_pattern (o ++ a ++ lparen :: b ++ rparen :: c ++ [quote]).
Proof.
  intros Ho Ha Hb Hc. unfold WordReplace.paren_pattern. cbn [lang].
  exists (o ++ a), (lparen :: b ++ rparen :: c ++ [quote]).
  split; [now rewrite <- app_assoc|]. split.
  { exists o, a. split; [reflexivity|]. split; [|exact Ha].
    eapply den_lang. apply (field_open_den o []). exact Ho. }
  exists [lparen], (b ++ rparen :: c ++ [quote]). split; [reflexivity|]. split.
  { exists lparen. split; [reflexivity|]. apply N.eqb_refl. }
  exists b, (rparen :: c ++ [quote]). split; [reflexivity|]. split; [exact Hb|].
  exists [rparen], (c ++ [quote]). split; [reflexivity|]. split.
  { exists rparen. split; [reflexivity|]. apply N.eqb_refl. }
  exists c, [quote]. split; [reflexivity|]. split; [exact Hc|].
  exists quote. split; [reflexivity|]. apply N.eqb_refl.
Qed.

(** The match at a field with a parenthesis: it ends at the first
    closing parenthesis after the first opening one, and at the first
    double quote after that. *)
Lemma paren_match_field o a b c post :
  is_field_open o ->
  forallb (fun x => not_char quote x && not_char lparen x) a = true ->
  forallb (not_char rparen) b = true ->
  forallb (not_char quote) c = true ->
  exists m,
    match_here WordReplace.paren_pattern
      ((o ++ a ++ lparen :: b ++ rparen :: c ++ [quote]) ++ post) = Some m
    /\ whole m = o ++ a ++ lparen :: b ++ rparen :: c ++ [quote]
    /\ paren_repl m = o ++ a ++ c ++ [quote].
Proof.
  intros Ho Ha Hb Hc.
  destruct (match_here_complete _ _ post (paren_lang o a b c Ho Ha Hb Hc)) as [m Hm].
  exists m. split; [exact Hm|].
  destruct (paren_hit_parts _ _ Hm)
    as (o' & a' & b' & c' & Hw & Hr & Ho' & Ha' & Hb' & Hc').
  apply match_here_sound in Hm as (s' & Hs & _).
  rewrite Hw, <- !app_assoc in Hs. cbn [app] in Hs.
  rewrite <- !app_assoc in Hs. cbn [app] in Hs.
  destruct (opening_prefix_unique _ _ _ _ Ho Ho' Hs) as [<- Hs1].
  assert (Hlp : (fun x => not_char quote x && not_char lparen x) lparen = false)
    by reflexivity.
  destruct (first_split _ _ _ _ _ _ _ Ha Ha' Hlp Hlp Hs1) as (<- & _ & Hs2).
  assert (Hrp : not_char rparen rparen = false) by reflexivity.
  destruct (first_split _ _ _ _ _ _ _ Hb Hb' Hrp Hrp Hs2) as (<- & _ & Hs3).
  rewrite <- !app_assoc in Hs3. cbn [app] in Hs3.
  destruct (first_split _ _ _ _ _ _ _ Hc Hc' quote_is_quote quote_is_quote Hs3)
    as (<- & _ & _).
  split; [exact Hw|exact Hr].
Qed.

Lemma paren_strip_field o a b c post :
  is_field_open o ->
  forallb (fun x => not_char quote x && not_char lparen x) a = true ->
  forallb (not_char rparen) b = true ->
  forallb (not_char quote) c = true ->
  sub_fn WordReplace.paren_pattern paren_repl
    (o ++ a ++ lparen :: b ++ rparen :: c ++ quote :: post)
  = o ++ a ++ c ++ quote :: sub_fn WordReplace.paren_pattern paren_repl post
  /\ findall_len WordReplace.paren_pattern
       (o ++ a ++ lparen :: b ++ rparen :: c ++ quote :: post)
     = S (findall_len WordReplace.paren_pattern post).
Proof.
  intros Ho Ha Hb Hc.
  destruct (paren_match_field o a b c post Ho Ha Hb Hc) as (m & Hm & Hw & Hr).
  assert (E : o ++ a ++ lparen :: b ++ rparen :: c ++ quote :: post
              = (o ++ a ++ lparen :: b ++ rparen :: c ++ [quote]) ++ post).
  { now norm_app. }
  rewrite E. unfold sub_fn, findall_len, finditer.
  rewrite (scan_hit _ _ post m Hm Hw) by now apply opening_nonempty.
  cbn [render hits length]. rewrite Hr. split; [now norm_app|reflexivity].
Qed.

Lemma paren_opens s m :
  match_here WordReplace.paren_pattern s = Some m -> opens_at s.
Proof.
  intros H. destruct (paren_hit_parts _ _ H) as (o & a & b & c & Hw & _ & Ho & _).
  apply match_here_sound in H as (s' & -> & _).
  exists o, ((a ++ lparen :: b ++ rparen :: c ++ [quote]) ++ s').
  split; [exact Ho|]. rewrite Hw. now norm_app.
Qed.

Lemma paren_strip_after pre o a b c post :
  finditer field_open pre = [] ->
  is_field_open o ->
  forallb (fun x => not_char quote x && not_char lparen x) a = true ->
  forallb (not_char rparen) b = true ->
  forallb (not_char quote) c = true ->
  sub_fn WordReplace.paren_pattern paren_repl
    (pre ++ o ++ a ++ lparen :: b ++ rparen :: c ++ quote :: post)
  = pre ++ o ++ a ++ c ++ quote :: sub_fn WordReplace.paren_pattern paren_repl post
  /\ findall_len WordReplace.paren_pattern
       (pre ++ o ++ a ++ lparen :: b ++ rparen :: c ++ quote :: post)
     = S (findall_len WordReplace.paren_pattern post).
Proof.
  intros Hpre Ho Ha Hb Hc.
  destruct (paren_strip_field o a b c post Ho Ha Hb Hc) as [H1 H2].
  unfold sub_fn, findall_len, finditer in *.
  rewrite (pre_gaps _ pre o _ paren_opens Hpre Ho).
  rewrite render_gaps, H1. split; [reflexivity|].
  rewrite <- H2. clear. induction pre as [|x pre IH]; [reflexivity|exact IH].
Qed.

(** X11.  Parenthesis stripping removes one span per text field and run.
    Take a text made of a part [pre] in which no field opens, then a
    field whose value is [a], an opening parenthesis, [b], a closing
    parenthesis and [c], with no parenthesis and no double quote in [a],
    no closing parenthesis in [b] and no double quote in [c], then the
    rest [post].  The span from the first opening parenthesis of the
    field to the first closing one goes and [c] stays as it is, with
    every parenthesis it holds; the field counts once, and [post] is
    stripped on its own. *)
Theorem parenthesis_stripping_takes_the_first_span
    (pre o a b c post : text) :
  finditer field_open pre = [] ->
  is_field_open o ->
  forallb (fun x => not_char quote x && not_char lparen x) a = true ->
  forallb (not_char rparen) b = true ->
  forallb (not_char quote) c = true ->
  sub WordReplace.paren_pattern 2 (str "\1\2")
    (pre ++ o ++ a ++ lparen :: b ++ rparen :: c ++ quote :: post)
  = inr (pre ++ o ++ a ++ c ++ quote
           :: sub_fn WordReplace.paren_pattern paren_repl post)
  /\ findall_len WordReplace.paren_pattern
       (pre ++ o ++ a ++ lparen :: b ++ rparen :: c ++ quote :: post)
     = S (findall_len WordReplace.paren_pattern post).
Proof.
  intros Hpre Ho Ha Hb Hc. rewrite sub_paren.
  destruct (paren_strip_after pre o a b c post Hpre Ho Ha Hb Hc) as [-> ->].
  split; reflexivity.
Qed.

Lemma parenthesis_stripping_witness :
  sub WordReplace.paren_pattern 2 (str "\1\2")
    (str "xmin = 0 " ++ field_opening [space] [space] ++ str "a" ++ lparen
       :: str "b" ++ rparen :: str "c(d)" ++ quote :: [])
  = inr (str "xmin = 0 " ++ field_opening [space] [space] ++ str "a" ++ str "c(d)"
           ++ quote :: sub_fn WordReplace.paren_pattern paren_repl [])
  /\ findall_len WordReplace.paren_pattern
       (str "xmin = 0 " ++ field_opening [space] [space] ++ str "a" ++ lparen
          :: str "b" ++ rparen :: str "c(d)" ++ quote :: [])
     = S (findall_len WordReplace.paren_pattern []).
Proof.
  apply (parenthesis_stripping_takes_the_first_span (str "xmin = 0 ")
           (field_opening [space] [space]) (str "a") (str "b") (str "c(d)") []).
  - reflexivity.
  - exists [space], [space]. split; [reflexivity|]. split; reflexivity.
  - reflexivity.
  - reflexivity.
  - reflexivity.
Defined.

(** ** Corrections that [re.sub] does not take literally *)

Lemma parse_digit_first correct_word :
  reads_as_group correct_word = true ->
  parse_template 2 (WordReplace.replacement correct_word)
  = inl (InvalidGroupReference (group_read correct_word)).
Proof.
  destruct correct_word as [|d rest]; [discriminate|].
  unfold reads_as_group, group_read. intros H.
  apply andb_prop in H as [Hd Ho].
  unfold parse_template, WordReplace.replacement.
  change (str "\1" ++ (d :: rest) ++ str "\2")
    with (backslash :: ch "1" :: d :: rest ++ str "\2").
  cbn [tparse]. change (tstep 2 TNormal backslash) with (@inr re_error _ (@nil titem, TEsc)).
  cbn [tparse].
  change (tstep 2 TEsc (ch "1")) with (@inr re_error _ (@nil titem, TDig1 (ch "1"))).
  cbn [tstep]. rewrite Hd.
  change (is_ascii_octdigit (ch "1")) with true. cbn [andb].
  assert (Hg : addgroup 2 (decimal [ch "1"; d])
               = inl (InvalidGroupReference (decimal [ch "1"; d]))).
  { unfold addgroup.
    replace (2 <? decimal [ch "1"; d]) with true; [reflexivity|].
    symmetry. apply Nat.ltb_lt. unfold decimal, digit_val. cbn [fold_left].
    change (ch "1") with 49%N. unfold is_ascii_digit in Hd.
    apply andb_prop in Hd as [H1 H2]. apply N.leb_le in H1, H2. lia. }
  destruct (is_ascii_octdigit d) eqn:Eo.
  - cbn [negb andb] in Ho.
    destruct rest as [|x rest].
    + change ([] ++ str "\2") with (backslash :: str "2").
      cbn [tparse tstep].
      change (is_ascii_octdigit backslash) with false. cbn iota.
      rewrite Hg. reflexivity.
    + cbn [app tparse tstep]. apply negb_true_iff in Ho. rewrite Ho.
      rewrite Hg. reflexivity.
  - rewrite Hg. reflexivity.
Qed.

Lemma sub_digit_first wrong_word correct_word content :
  reads_as_group correct_word = true ->
  sub (WordReplace.word_pattern wrong_word) 2
    (WordReplace.replacement correct_word) content
  = inl (InvalidGroupReference (group_read correct_word)).
Proof. intros H. unfold sub. now rewrite parse_digit_first. Qed.

Lemma replace_words_refused items wrong_word correct_word :
  In (wrong_word, correct_word) items -> reads_as_group correct_word = true ->
  forall stats content, exists e, WordReplace.replace_words items stats content = inl e.
Proof.
  intros Hin Hg. induction items as [|[w0 c0] items IH]; [destruct Hin|].
  intros stats content. cbn [WordReplace.replace_words].
  destruct Hin as [[= -> ->]|Hin].
  - rewrite sub_digit_first by exact Hg. eauto.
  - destruct (sub (WordReplace.word_pattern w0) 2 (WordReplace.replacement c0) content)
      as [e|content']; [eauto|]. now apply IH.
Qed.

Lemma words_block_refused fp word_map backup wrong_word correct_word :
  In (wrong_word, correct_word) word_map -> reads_as_group correct_word = true ->
  forall w, exists e w1,
    WordReplace.correct_words_block fp word_map backup w = (Exc e, w1).
Proof.
  intros Hin Hg w. unfold WordReplace.correct_words_block.
  io_cases;
    try (eexists _, _; reflexivity);
    match goal with
    | H : WordReplace.replace_words word_map ?s ?c = inr _ |- _ =>
        destruct (replace_words_refused _ _ _ Hin Hg s c) as [e He]; congruence
    end.
Qed.

(** X12.  A correction that starts with a digit stops word replacement.
    The replacement string is [\1], the correction and [\2]; when the
    correction starts with a digit (other than two octal digits in a
    row) [re.sub] reads [\1] and that digit as one group number, 10 or
    more, and raises [re.error] whatever the text.  With one such pair
    anywhere in the word map, [correct_words_in_textgrid] returns the
    all-zero statistics for every file and leaves every file as it
    was. *)
Theorem digit_first_correction_stops_replacement
    (word_map : WordReplace.dict text) (wrong_word correct_word : text) :
  In (wrong_word, correct_word) word_map ->
  reads_as_group correct_word = true ->
  (forall content,
     sub (WordReplace.word_pattern wrong_word) 2
       (WordReplace.replacement correct_word) content
     = inl (InvalidGroupReference (group_read correct_word)))
  /\ 10 <= group_read correct_word
  /\ forall fp backup w,
       fst (WordReplace.correct_words_in_textgrid fp word_map backup w)
       = Val (WordReplace.zero_stats word_map)
       /\ files (snd (WordReplace.correct_words_in_textgrid fp word_map backup w)) !! fp
          = files w !! fp.
Proof.
  intros Hin Hg. split; [intros; now apply sub_digit_first|]. split.
  - destruct correct_word as [|d rest]; [discriminate|].
    unfold reads_as_group in Hg. apply andb_prop in Hg as [Hd _].
    unfold group_read, decimal, digit_val. cbn [fold_left].
    change (ch "1") with 49%N. unfold is_ascii_digit in Hd.
    apply andb_prop in Hd as [H1 H2]. apply N.leb_le in H1, H2. lia.
  - intros fp backup w.
    destruct (words_block_refused fp word_map backup _ _ Hin Hg w) as (e & w1 & Hb).
    unfold WordReplace.correct_words_in_textgrid.
    rewrite try_except_run, Hb. cbn. split; [reflexivity|].
    exact (words_fails_clean fp word_map backup w e w1 Hb).
Qed.

Lemma digit_first_witness :
  fst (WordReplace.correct_words_in_textgrid "a.TextGrid"
         [(str "un", str "une"); (str "deux", str "2")] true
         (one_file "a.TextGrid" (text_field (str "un"))))
  = Val [(str "un", 0); (str "deux", 0)]
  /\ files (snd (WordReplace.correct_words_in_textgrid "a.TextGrid"
                   [(str "un", str "une"); (str "deux", str "2")] true
                   (one_file "a.TextGrid" (text_field (str "un"))))) !! "a.TextGrid"
     = files (one_file "a.TextGrid" (text_field (str "un"))) !! "a.TextGrid".
Proof.
  refine (proj2 (proj2
    (digit_first_correction_stops_replacement
       [(str "un", str "une"); (str "deux", str "2")] (str "deux") (str "2") _ _))
    "a.TextGrid" true (one_file "a.TextGrid" (text_field (str "un")))).
  - right. left. reflexivity.
  - reflexivity.
Defined.

Lemma parse_octal_first d x rest :
  is_ascii_octdigit d = true -> is_ascii_octdigit x = true ->
  forallb (not_char backslash) rest = true ->
  parse_template 2 (WordReplace.replacement (d :: x :: rest))
  = inr (TChar (octal_char d x) :: List.map TChar rest ++ [TGroup 2]).
Proof.
  intros Hd Hx Hrest.
  assert (Hdd : is_ascii_digit d = true).
  { unfold is_ascii_octdigit in Hd. unfold is_ascii_digit.
    apply andb_prop in Hd as [H1 H2]. apply N.leb_le in H1, H2.
    apply andb_true_intro. split; apply N.leb_le; lia. }
  unfold parse_template, WordReplace.replacement.
  change (str "\1" ++ (d :: x :: rest) ++ str "\2")
    with (backslash :: ch "1" :: d :: x :: rest ++ str "\2").
  cbn [tparse]. change (tstep 2 TNormal backslash) with (@inr re_error _ (@nil titem, TEsc)).
  cbn [tparse].
  change (tstep 2 TEsc (ch "1")) with (@inr re_error _ (@nil titem, TDig1 (ch "1"))).
  cbn [tstep]. rewrite Hdd, Hd.
  change (is_ascii_octdigit (ch "1")) with true. cbn [andb].
  cbn [tparse tstep]. rewrite Hx.
  change (digit_val (ch "1") * 64)%N with 64%N.
  fold (octal_char d x).
  replace (255 <? octal_char d x)%N with false.
  2:{ symmetry. apply N.ltb_ge. unfold octal_char, digit_val.
      unfold is_ascii_octdigit in Hd, Hx.
      apply andb_prop in Hd as [H1 H2]. apply andb_prop in Hx as [H3 H4].
      apply N.leb_le in H1, H2, H3, H4. lia. }
  rewrite (tparse_chars rest (str "\2") Hrest), tparse_group2.
  cbn [app]. reflexivity.
Qed.

Lemma word_lang wrong o :
  is_field_open o -> lang (WordReplace.word_pattern wrong) (o ++ wrong ++ [quote]).
Proof.
  intros Ho. unfold WordReplace.word_pattern. cbn [lang].
  exists o, (wrong ++ [quote]). split; [reflexivity|]. split.
  { eapply den_lang. apply (field_open_den o []). exact Ho. }
  exists wrong, [quote]. split; [reflexivity|]. split.
  { eapply den_lang. apply (den_lit wrong []). }
  exists quote. split; [reflexivity|]. apply N.eqb_refl.
Qed.

(** The match at a field whose whole value is the wrong word. *)
Lemma word_match_field wrong o post :
  is_field_open o ->
  exists m,
    match_here (WordReplace.word_pattern wrong) ((o ++ wrong ++ [quote]) ++ post)
    = Some m
    /\ whole m = o ++ wrong ++ [quote]
    /\ group (groups m) 1 = o /\ group (groups m) 2 = [quote].
Proof.
  intros Ho.
  destruct (match_here_complete _ _ post (word_lang wrong o Ho)) as [m Hm].
  exists m. split; [exact Hm|].
  destruct (word_hit_shape _ _ _ Hm) as (o' & Hw & H1 & H2 & Ho').
  apply match_here_sound in Hm as (s' & Hs & _).
  rewrite Hw, <- !app_assoc in Hs.
  destruct (opening_prefix_unique _ _ _ _ Ho Ho' Hs) as [<- _].
  auto.
Qed.

Lemma word_opens wrong s m :
  match_here (WordReplace.word_pattern wrong) s = Some m -> opens_at s.
Proof.
  intros H. destruct (word_hit_shape _ _ _ H) as (o & Hw & _ & _ & Ho).
  apply match_here_sound in H as (s' & -> & _).
  exists o, ((wrong ++ [quote]) ++ s'). split; [exact Ho|].
  rewrite Hw. now norm_app.
Qed.

(** One substitution at a field whose whole value is the wrong word,
    after a part in which no field opens. *)
Lemma word_sub_field wrong f pre o post :
  finditer field_open pre = [] -> is_field_open o ->
  exists m,
    sub_fn (WordReplace.word_pattern wrong) f (pre ++ o ++ wrong ++ quote :: post)
    = pre ++ f m ++ sub_fn (WordReplace.word_pattern wrong) f post
    /\ group (groups m) 1 = o /\ group (groups m) 2 = [quote].
Proof.
  intros Hpre Ho.
  destruct (word_match_field wrong o post Ho) as (m & Hm & Hw & H1 & H2).
  exists m. split; [|auto]. unfold sub_fn.
  rewrite (pre_gaps _ pre o _ (word_opens wrong) Hpre Ho), render_gaps.
  replace (o ++ wrong ++ quote :: post) with ((o ++ wrong ++ [quote]) ++ post)
    by now norm_app.
  rewrite (scan_hit _ _ post m Hm Hw) by now apply opening_nonempty.
  reflexivity.
Qed.

(** X13.  A correction that starts with two octal digits takes the field
    opening away.  After [\1], two octal digits make an octal escape:
    [re.sub] reads [\1], [d] and [x] as one character and no group 1 is
    left in the replacement.  A field whose whole value is the wrong
    word is then replaced, opening included, by that character, the rest
    of the correction and the closing quote. *)
Theorem octal_correction_takes_the_opening
    (wrong_word : text) (d x : char) (rest pre o post : text) :
  is_ascii_octdigit d = true -> is_ascii_octdigit x = true ->
  forallb (not_char backslash) rest = true ->
  finditer field_open pre = [] -> is_field_open o ->
  exists post',
    sub (WordReplace.word_pattern wrong_word) 2
      (WordReplace.replacement (d :: x :: rest)) post = inr post'
    /\ sub (WordReplace.word_pattern wrong_word) 2
         (WordReplace.replacement (d :: x :: rest))
         (pre ++ o ++ wrong_word ++ quote :: post)
       = inr (pre ++ octal_char d x :: rest ++ quote :: post').
Proof.
  intros Hd Hx Hrest Hpre Ho. unfold sub.
  rewrite (parse_octal_first d x rest Hd Hx Hrest).
  eexists. split; [reflexivity|]. f_equal.
  destruct (word_sub_field wrong_word
              (expand (TChar (octal_char d x) :: List.map TChar rest ++ [TGroup 2]))
              pre o post Hpre Ho) as (m & -> & _ & H2).
  cbn [expand]. rewrite expand_chars. cbn [expand]. rewrite H2.
  now norm_app.
Qed.

Lemma octal_correction_witness :
  exists post',
    sub (WordReplace.word_pattern (str "deux mille")) 2
      (WordReplace.replacement (str "2000")) [] = inr post'
    /\ sub (WordReplace.word_pattern (str "deux mille")) 2
         (WordReplace.replacement (str "2000"))
         ([] ++ field_opening [space] [space] ++ str "deux mille" ++ quote :: [])
       = inr ([] ++ octal_char (ch "2") (ch "0") :: str "00" ++ quote :: post').
Proof.
  apply (octal_correction_takes_the_opening (str "deux mille") (ch "2") (ch "0")
           (str "00") [] (field_opening [space] [space]) []).
  - reflexivity.
  - reflexivity.
  - reflexivity.
  - reflexivity.
  - exists [space], [space]. split; [reflexivity|]. split; reflexivity.
Defined.

(** ** Word replacement run twice *)

Lemma words_keeps_readable fp word_map backup w content :
  files w !! fp = Some (Utf8 content) ->
  exists c1,
    files (snd (WordReplace.correct_words_in_textgrid fp word_map backup w)) !! fp
    = Some (Utf8 c1).
Proof.
  intros Hf.
  unfold WordReplace.correct_words_in_textgrid, WordReplace.correct_words_block.
  rewrite try_except_run, bind_run, (read_file_some _ _ _ Hf). cbn beta iota zeta.
  io_cases; world_simpl; rewrite ?(lookup_insert_ne _ _ _ _ (bak_neq _));
    first [ eexists; apply lookup_insert_eq | eexists; exact Hf ].
Qed.

(** X14.  The backup of word replacement is the content at the start of
    the last run.  Run twice with backups on, on a file that can be read
    and written, [correct_words_in_textgrid] first copies the original
    into the backup and then, on the second run, writes over that copy
    what the first run left in the file. *)
Theorem second_word_run_replaces_the_backup
    (fp : string) (word_map : WordReplace.dict text) (w : world) (content : text) :
  files w !! fp = Some (Utf8 content) -> bak fp ∉ locked w ->
  let op := WordReplace.correct_words_in_textgrid fp word_map true in
  files (snd (op w)) !! bak fp = Some (Utf8 content)
  /\ exists after_first,
       files (snd (op w)) !! fp = Some (Utf8 after_first)
       /\ files (snd (op (snd (op w)))) !! bak fp = Some (Utf8 after_first).
Proof.
  intros Hf Hb op.
  destruct (words_overwrite_backup fp word_map w content Hf Hb) as [H1 _].
  split; [exact H1|].
  destruct (words_keeps_readable fp word_map true w content Hf) as (c1 & Hc1).
  exists c1. split; [exact Hc1|].
  destruct (words_confined fp word_map true w) as (Hl & _).
  apply (words_overwrite_backup fp word_map (snd (op w)) c1 Hc1).
  unfold op. rewrite Hl. exact Hb.
Qed.

Lemma second_word_run_witness :
  let op := WordReplace.correct_words_in_textgrid "a.TextGrid"
              [(str "le", str "la")] true in
  let w := one_file "a.TextGrid" (text_field (str "le")) in
  files (snd (op w)) !! bak "a.TextGrid" = Some (Utf8 (text_field (str "le")))
  /\ exists after_first,
       files (snd (op w)) !! "a.TextGrid" = Some (Utf8 after_first)
       /\ files (snd (op (snd (op w)))) !! bak "a.TextGrid" = Some (Utf8 after_first).
Proof.
  apply (second_word_run_replaces_the_backup "a.TextGrid" [(str "le", str "la")]
           (one_file "a.TextGrid" (text_field (str "le"))) (text_field (str "le"))).
  - reflexivity.
  - apply nothing_locked.
Defined.

(** ** The totals of a directory run *)

Lemma case_loop_totals lower upper fps tl backup : forall tf tr w,
  exists tf' tr' w',
    CaseConverter.process_files lower upper fps tl backup tf tr w
    = (Val (tf', tr'), w')
    /\ tf <= tf' <= tf + length fps /\ tf' - tf <= tr' - tr /\ tr <= tr'.
Proof.
  induction fps as [|fp rest IH]; intros tf tr w.
  - exists tf, tr, w. split; [reflexivity|]. cbn [length]. lia.
  - cbn [CaseConverter.process_files]. rewrite bind_run.
    destruct (case_returns lower upper fp tl backup w) as (n & w1 & ->).
    destruct (0 <? n) eqn:E.
    + apply Nat.ltb_lt in E.
      destruct (IH (tf + 1) (tr + n) w1) as (tf' & tr' & w' & -> & H).
      exists tf', tr', w'. split; [reflexivity|]. cbn [length]. lia.
    + destruct (IH tf tr w1) as (tf' & tr' & w' & -> & H).
      exists tf', tr', w'. split; [reflexivity|]. cbn [length]. lia.
Qed.

Lemma space_loop_totals alnum fps backup debug : forall tf tr w,
  exists tf' tr' w',
    SpaceFinalDot.process_files alnum fps backup debug tf tr w
    = (Val (tf', tr'), w')
    /\ tf <= tf' <= tf + length fps /\ tf' - tf <= tr' - tr /\ tr <= tr'.
Proof.
  induction fps as [|fp rest IH]; intros tf tr w.
  - exists tf, tr, w. split; [reflexivity|]. cbn [length]. lia.
  - cbn [SpaceFinalDot.process_files]. rewrite bind_run.
    destruct (space_returns alnum fp backup debug w) as (n & w1 & ->).
    destruct (0 <? n) eqn:E.
    + apply Nat.ltb_lt in E.
      destruct (IH (tf + 1) (tr + n) w1) as (tf' & tr' & w' & -> & H).
      exists tf', tr', w'. split; [reflexivity|]. cbn [length]. lia.
    + destruct (IH tf tr w1) as (tf' & tr' & w' & -> & H).
      exists tf', tr', w'. split; [reflexivity|]. cbn [length]. lia.
Qed.

Lemma process_file_totals fp word_map backup rp rh t w :
  exists t' w',
    WordReplace.process_file fp word_map backup rp rh t w = (Val t', w')
    /\ WordReplace.total_files t <= WordReplace.total_files t'
       <= WordReplace.total_files t + 1
    /\ (Z.of_nat (WordReplace.total_files t' - WordReplace.total_files t)
        <= changes_counted t' - changes_counted t)%Z.
Proof.
  unfold WordReplace.process_file. rewrite bind_run.
  assert (H1 : exists m1 t1 w1,
    match word_map with
    | [] => ret (false, t)
    | _ :: _ =>
        replacements_stats <- WordReplace.correct_words_in_textgrid fp word_map backup;;
        (if 0 <? WordReplace.sum_values replacements_stats
         then ret (true,
                   WordReplace.Totals (WordReplace.total_files t)
                     (WordReplace.total_replacements t
                      + WordReplace.sum_values replacements_stats)
                     (WordReplace.total_parentheses_removed t)
                     (WordReplace.total_hyphens_replaced t)
                     (WordReplace.add_stats replacements_stats (WordReplace.word_totals t)))
         else ret (false, t))
    end w = (Val (m1, t1), w1)
    /\ WordReplace.total_files t1 = WordReplace.total_files t
    /\ (Z.of_nat (if m1 : bool then 1 else 0)
        <= changes_counted t1 - changes_counted t)%Z).
  { destruct word_map as [|p word_map'].
    - eexists _, _, _. split; [reflexivity|]. split; [reflexivity|]. cbn. lia.
    - rewrite bind_run.
      destruct (words_returns fp (p :: word_map') backup w) as (st & w1 & ->).
      destruct (0 <? WordReplace.sum_values st) eqn:E.
      + apply Nat.ltb_lt in E. eexists _, _, _. split; [reflexivity|].
        split; [reflexivity|]. unfold changes_counted. cbn. lia.
      + eexists _, _, _. split; [reflexivity|]. split; [reflexivity|]. cbn. lia. }
  destruct H1 as (m1 & t1 & w1 & -> & Hf1 & Hc1). cbn beta iota. rewrite bind_run.
  assert (H2 : exists m2 t2 w2,
    (if rp
     then
       parentheses_removed <- WordReplace.remove_parentheses_content fp backup;;
       (if 0 <? parentheses_removed
        then ret (true,
                  WordReplace.Totals (WordReplace.total_files t1)
                    (WordReplace.total_replacements t1)
                    (WordReplace.total_parentheses_removed t1 + parentheses_removed)
                    (WordReplace.total_hyphens_replaced t1)
                    (WordReplace.word_totals t1))
        else ret (m1, t1))
     else ret (m1, t1)) w1 = (Val (m2, t2), w2)
    /\ WordReplace.total_files t2 = WordReplace.total_files t
    /\ (Z.of_nat (if m2 : bool then 1 else 0)
        <= changes_counted t2 - changes_counted t)%Z).
  { destruct rp.
    - rewrite bind_run.
      destruct (parens_returns fp backup w1) as (n & w2 & ->).
      destruct (0 <? n) eqn:E.
      + apply Nat.ltb_lt in E. eexists _, _, _. split; [reflexivity|].
        split; [exact Hf1|]. unfold changes_counted in *. cbn.
        destruct m1; cbn in Hc1; lia.
      + eexists _, _, _. split; [reflexivity|]. auto.
    - eexists _, _, _. split; [reflexivity|]. auto. }
  destruct H2 as (m2 & t2 & w2 & -> & Hf2 & Hc2). cbn beta iota. rewrite bind_run.
  assert (H3 : exists m3 t3 w3,
    (if rh
     then
       hyphens_replaced <- WordReplace.replace_hyphens_underscores fp backup;;
       (if (0 <? hyphens_replaced)%Z
        then ret (true,
                  WordReplace.Totals (WordReplace.total_files t2)
                    (WordReplace.total_replacements t2)
                    (WordReplace.total_parentheses_removed t2)
                    (WordReplace.total_hyphens_replaced t2 + hyphens_replaced)%Z
                    (WordReplace.word_totals t2))
        else ret (m2, t2))
     else ret (m2, t2)) w2 = (Val (m3, t3), w3)
    /\ WordReplace.total_files t3 = WordReplace.total_files t
    /\ (Z.of_nat (if m3 : bool then 1 else 0)
        <= changes_counted t3 - changes_counted t)%Z).
  { destruct rh.
    - rewrite bind_run.
      destruct (hyphens_returns fp backup w2) as (n & w3 & ->).
      destruct (0 <? n)%Z eqn:E.
      + apply Z.ltb_lt in E. eexists _, _, _. split; [reflexivity|].
        split; [exact Hf2|]. unfold changes_counted in *. cbn.
        destruct m2; cbn in Hc2; lia.
      + eexists _, _, _. split; [reflexivity|]. auto.
    - eexists _, _, _. split; [reflexivity|]. auto. }
  destruct H3 as (m3 & t3 & w3 & -> & Hf3 & Hc3). cbn beta iota.
  destruct m3.
  - eexists _, _. split; [reflexivity|]. cbn [WordReplace.total_files].
    split; [lia|]. unfold changes_counted in *. cbn in *.
    replace (WordReplace.total_files t3 + 1 - WordReplace.total_files t) with 1 by lia.
    lia.
  - eexists _, _. split; [reflexivity|]. split; [lia|].
    replace (WordReplace.total_files t3 - WordReplace.total_files t) with 0 by lia.
    cbn in Hc3. lia.
Qed.

Lemma words_loop_totals fps word_map backup rp rh : forall t w,
  exists t' w',
    WordReplace.process_files fps word_map backup rp rh t w = (Val t', w')
    /\ WordReplace.total_files t <= WordReplace.total_files t'
       <= WordReplace.total_files t + length fps
    /\ (Z.of_nat (WordReplace.total_files t' - WordReplace.total_files t)
        <= changes_counted t' - changes_counted t)%Z.
Proof.
  induction fps as [|fp rest IH]; intros t w.
  - exists t, w. split; [reflexivity|]. cbn [length]. split; [lia|].
    rewrite Nat.sub_diag. lia.
  - cbn [WordReplace.process_files]. rewrite bind_run.
    destruct (process_file_totals fp word_map backup rp rh t w)
      as (t1 & w1 & -> & Hf1 & Hc1).
    destruct (IH t1 w1) as (t' & w' & -> & Hf & Hc).
    exists t', w'. split; [reflexivity|]. cbn [length]. split; [lia|]. lia.
Qed.

(** X15.  The summary of a directory run is consistent: in each tool the
    loop over the files ends (no exception leaves it), the number of
    modified files it reports is at most the number of files it went
    through, and at most the number of changes it counted, so no file
    counts as modified without a counted change. *)
Theorem summary_counts_are_bounded
    (str_lower str_upper : text -> text) (alnum_beyond : char -> bool)
    (textgrid_files : list string) (to_lowercase backup debug : bool)
    (word_map : WordReplace.dict text) (remove_parentheses replace_hyphens : bool)
    (w : world) :
  (exists total_files total_replacements w',
     CaseConverter.process_files str_lower str_upper textgrid_files
       to_lowercase backup 0 0 w
     = (Val (total_files, total_replacements), w')
     /\ total_files <= length textgrid_files /\ total_files <= total_replacements)
  /\ (exists total_files total_replacements w',
        SpaceFinalDot.process_files alnum_beyond textgrid_files backup debug 0 0 w
        = (Val (total_files, total_replacements), w')
        /\ total_files <= length textgrid_files /\ total_files <= total_replacements)
  /\ (exists t w',
        WordReplace.process_files textgrid_files word_map backup
          remove_parentheses replace_hyphens
          (WordReplace.Totals 0 0 0 0%Z (WordReplace.zero_stats word_map)) w
        = (Val t, w')
        /\ WordReplace.total_files t <= length textgrid_files
        /\ (Z.of_nat (WordReplace.total_files t) <= changes_counted t)%Z).
Proof.
  split; [|split].
  - destruct (case_loop_totals str_lower str_upper textgrid_files to_lowercase
                backup 0 0 w) as (tf & tr & w' & H & H1).
    exists tf, tr, w'. split; [exact H|]. lia.
  - destruct (space_loop_totals alnum_beyond textgrid_files backup debug 0 0 w)
      as (tf & tr & w' & H & H1).
    exists tf, tr, w'. split; [exact H|]. lia.
  - destruct (words_loop_totals textgrid_files word_map backup remove_parentheses
                replace_hyphens
                (WordReplace.Totals 0 0 0 0%Z (WordReplace.zero_stats word_map)) w)
      as (t & w' & H & H1 & H2).
    exists t, w'. split; [exact H|]. cbn in H1, H2.
    split; [lia|]. unfold changes_counted in *. cbn in H2.
    rewrite Nat.sub_0_r in H2. lia.
Qed.

(** ** The debugging output *)














Lemma agree_debug_fields content :
  agree (SpaceFinalDot.debug_text_field content;; ret tt) (ret tt).
Proof. intros w1 w2 H. split; [reflexivity|exact H]. Qed.







(** ** The word lists *)

Lemma lstrip_split t :
  exists sp, t = sp ++ lstrip t /\ forallb is_space sp = true.
Proof.
  induction t as [|c t (sp & IH & Hsp)]; [exists []; auto|].
  cbn [lstrip]. destruct (is_space c) eqn:E.
  - exists (c :: sp). cbn [app forallb]. rewrite E, Hsp. split; [congruence|reflexivity].
  - exists []. auto.
Qed.

Lemma lstrip_head t c r : lstrip t = c :: r -> is_space c = false.
Proof.
  induction t as [|x t IH]; cbn [lstrip]; [discriminate|].
  destruct (is_space x) eqn:E; [exact IH|]. intros [= <- _]. exact E.
Qed.

Lemma lstrip_incl t c : In c (lstrip t) -> In c t.
Proof.
  destruct (lstrip_split t) as (sp & E & _). intros H. rewrite E.
  apply in_or_app. now right.
Qed.

Lemma strip_incl t c : In c (strip t) -> In c t.
Proof.
  unfold strip. intros H. apply in_rev in H. apply lstrip_incl in H.
  apply in_rev in H. now apply lstrip_incl in H.
Qed.

Lemma strip_last t front c : strip t = front ++ [c] -> is_space c = false.
Proof.
  unfold strip. intros H. apply (f_equal (@rev char)) in H.
  rewrite rev_involutive, rev_app_distr in H. cbn [rev app] in H.
  now apply lstrip_head in H.
Qed.

Lemma strip_first t c rest : strip t = c :: rest -> is_space c = false.
Proof.
  unfold strip. intros H.
  destruct (lstrip_split (rev (lstrip t))) as (sp & E & _).
  apply (f_equal (@rev char)) in E. rewrite rev_involutive, rev_app_distr, H in E.
  cbn [app] in E. now apply lstrip_head in E.
Qed.

Lemma lines_from_no_newline t : forall cur,
  ~ In newline cur -> Forall (fun l => ~ In newline l) (lines_from cur t).
Proof.
  induction t as [|c t IH]; intros cur Hcur; cbn [lines_from].
  - destruct cur; constructor; [|constructor].
    intros H. apply in_rev in H. contradiction.
  - destruct (c =? newline)%N eqn:E.
    + constructor; [|apply IH; intros []].
      intros H. apply in_rev in H. contradiction.
    + apply IH. intros [H|H]; [|contradiction].
      apply N.eqb_neq in E. congruence.
Qed.

Lemma stripped_lines_clean content :
  Forall clean_word (WordReplace.stripped_lines content).
Proof.
  unfold WordReplace.stripped_lines, lines. apply List.Forall_forall. intros l Hl.
  apply filter_In in Hl as [Hl Hne]. apply in_map_iff in Hl as (raw & <- & Hraw).
  pose proof (lines_from_no_newline content [] (fun H => H)) as Hnl.
  rewrite List.Forall_forall in Hnl. specialize (Hnl raw Hraw).
  split; [|split; [|split]].
  - intros E. rewrite E in Hne. discriminate.
  - intros c rest E. eapply strip_first; eassumption.
  - intros front c E. eapply strip_last; eassumption.
  - intros H. apply strip_incl in H. contradiction.
Qed.

Lemma dict_set_new {V} (k : text) (v : V) d :
  ~ In k (List.map fst d) -> WordReplace.dict_set k v d = d ++ [(k, v)].
Proof.
  induction d as [|[k0 v0] d IH]; intros H; cbn [WordReplace.dict_set]; [reflexivity|].
  destruct (text_eqb k0 k) eqn:E.
  - apply text_eqb_eq in E. exfalso. apply H. now left.
  - cbn [app]. f_equal. apply IH. intros Hin. apply H. now right.
Qed.

Lemma dict_set_keys {V} (k : text) (v : V) d :
  In k (List.map fst d) ->
  List.map fst (WordReplace.dict_set k v d) = List.map fst d.
Proof.
  induction d as [|[k0 v0] d IH]; intros H; [destruct H|].
  cbn [WordReplace.dict_set]. destruct (text_eqb k0 k) eqn:E; [reflexivity|].
  cbn [List.map fst]. f_equal. apply IH. destruct H as [H|H]; [|exact H].
  cbn in H. subst k0. now rewrite text_eqb_refl in E.
Qed.

Lemma in_keys_dec (k : text) (ks : list text) : In k ks \/ ~ In k ks.
Proof.
  induction ks as [|x ks [IH|IH]]; [right; intros []|left; now right|].
  destruct (text_eqb x k) eqn:E.
  - apply text_eqb_eq in E. left. now left.
  - right. intros [H|H]; [|contradiction]. subst x. now rewrite text_eqb_refl in E.
Qed.

Lemma dict_set_nodup {V} (k : text) (v : V) d :
  NoDup (List.map fst d) -> NoDup (List.map fst (WordReplace.dict_set k v d)).
Proof.
  intros H. destruct (in_keys_dec k (List.map fst d)) as [Hin|Hin].
  - now rewrite dict_set_keys.
  - rewrite dict_set_new by exact Hin. rewrite List.map_app. cbn [List.map fst].
    apply NoDup_app. split; [exact H|]. split.
    + intros x Hx Hk. apply list_elem_of_In in Hx, Hk.
      destruct Hk as [<-|[]]. contradiction.
    + apply NoDup_singleton.
Qed.

Lemma dict_fold_nodup {V} (pairs : list (text * V)) : forall d,
  NoDup (List.map fst d) ->
  NoDup (List.map fst
           (fold_left (fun d kv => WordReplace.dict_set (fst kv) (snd kv) d) pairs d)).
Proof.
  induction pairs as [|[k v] pairs IH]; intros d H; cbn [fold_left]; [exact H|].
  apply IH. now apply dict_set_nodup.
Qed.

Lemma dict_fold_fresh {V} (pairs : list (text * V)) : forall d,
  NoDup (List.map fst pairs) ->
  (forall k, In k (List.map fst pairs) -> ~ In k (List.map fst d)) ->
  fold_left (fun d kv => WordReplace.dict_set (fst kv) (snd kv) d) pairs d
  = d ++ pairs.
Proof.
  induction pairs as [|[k v] pairs IH]; intros d Hnd Hfresh; cbn [fold_left].
  - now rewrite app_nil_r.
  - cbn [List.map fst] in Hnd. inversion Hnd as [|? ? Hk Hnd']; subst.
    cbn [fst snd]. rewrite dict_set_new by (apply Hfresh; now left).
    rewrite IH; [now rewrite <- app_assoc|exact Hnd'|].
    intros k' Hk' Hin. rewrite List.map_app in Hin. apply in_app_or in Hin as [Hin|Hin].
    + apply (Hfresh k'); [now right|exact Hin].
    + cbn in Hin. destruct Hin as [<-|[]]. apply Hk, list_elem_of_In, Hk'.
Qed.

Lemma dict_get_set {V} (k k' : text) (v : V) d :
  dict_get k (WordReplace.dict_set k' v d)
  = if text_eqb k' k then Some v else dict_get k d.
Proof.
  unfold dict_get. induction d as [|[k0 v0] d IH]; cbn [WordReplace.dict_set].
  - cbn [find fst]. destruct (text_eqb k' k); reflexivity.
  - destruct (text_eqb k0 k') eqn:E0.
    + apply text_eqb_eq in E0. subst k0. cbn [find fst].
      destruct (text_eqb k' k); reflexivity.
    + cbn [find fst]. destruct (text_eqb k0 k) eqn:E1.
      * apply text_eqb_eq in E1. subst k0.
        destruct (text_eqb k' k) eqn:E2; [|reflexivity].
        apply text_eqb_eq in E2. subst k'. now rewrite text_eqb_refl in E0.
      * exact IH.
Qed.

Lemma dict_get_app {V} (k : text) (a b : WordReplace.dict V) :
  dict_get k (a ++ b)
  = match dict_get k a with Some v => Some v | None => dict_get k b end.
Proof.
  unfold dict_get. induction a as [|[k0 v0] a IH]; [reflexivity|].
  cbn [app find fst]. destruct (text_eqb k0 k); [reflexivity|exact IH].
Qed.

(** The last pair with a key decides. *)
Lemma dict_fold_get {V} (k : text) (pairs : list (text * V)) : forall d,
  dict_get k (fold_left (fun d kv => WordReplace.dict_set (fst kv) (snd kv) d) pairs d)
  = match dict_get k (rev pairs) with Some v => Some v | None => dict_get k d end.
Proof.
  induction pairs as [|[k0 v0] pairs IH]; intros d; cbn [fold_left rev]; [reflexivity|].
  rewrite IH, dict_get_app, dict_get_set. cbn [fst snd].
  destruct (dict_get k (rev pairs)); [reflexivity|].
  assert (E1 : dict_get k [(k0, v0)] = if text_eqb k0 k then Some v0 else None).
  { unfold dict_get. cbn [find fst]. destruct (text_eqb k0 k); reflexivity. }
  rewrite E1. destruct (text_eqb k0 k); reflexivity.
Qed.

Lemma map_fst_combine {A B} (a : list A) : forall b : list B,
  length a <= length b -> List.map fst (combine a b) = a.
Proof.
  induction a as [|x a IH]; intros [|y b] H; cbn in *; try reflexivity; [lia|].
  f_equal. apply IH. lia.
Qed.

Lemma load_run ww cw w wc cc :
  files w !! ww = Some (Utf8 wc) -> files w !! cw = Some (Utf8 cc) ->
  length (WordReplace.stripped_lines wc) = length (WordReplace.stripped_lines cc) ->
  WordReplace.load_word_lists ww cw w
  = (Val (WordReplace.dict_of
            (combine (WordReplace.stripped_lines wc) (WordReplace.stripped_lines cc))),
     log (EvOpenRead cw) (log (EvOpenRead ww) w)).
Proof.
  intros Hw Hc Hlen. unfold WordReplace.load_word_lists.
  rewrite try_except_run, bind_run, (read_file_some _ _ _ Hw). cbn beta iota zeta.
  rewrite bind_run, (read_file_some cw cc) by exact Hc. cbn beta iota zeta.
  rewrite Hlen, Nat.eqb_refl. reflexivity.
Qed.

Lemma load_unreadable ww cw w :
  unreadable w ww ->
  exists e,
    WordReplace.load_word_lists ww cw w
    = (Val [], put_line (MsgWordListError e) (log (EvOpenRead ww) w)).
Proof.
  intros H. unfold WordReplace.load_word_lists.
  rewrite try_except_run, bind_run.
  destruct (read_file_unreadable w ww H) as (e & ->). exists e. reflexivity.
Qed.

Lemma load_unreadable_second ww cw w wc :
  files w !! ww = Some (Utf8 wc) -> unreadable w cw ->
  exists e,
    WordReplace.load_word_lists ww cw w
    = (Val [], put_line (MsgWordListError e)
                 (log (EvOpenRead cw) (log (EvOpenRead ww) w))).
Proof.
  intros Hw H. unfold WordReplace.load_word_lists.
  rewrite try_except_run, bind_run, (read_file_some _ _ _ Hw). cbn beta iota zeta.
  rewrite bind_run.
  destruct (read_file_unreadable (log (EvOpenRead ww) w) cw H) as (e & ->).
  exists e. reflexivity.
Qed.

(** X17.  [load_word_lists] never raises and writes nothing.  When the
    first list cannot be read (missing, not UTF-8) it prints the error
    and returns the empty map without opening the second list; when the
    second cannot be read it prints the error and returns the empty map
    too. *)
Theorem load_word_lists_never_raises (wrong_words_file correct_words_file : string) :
  returns (WordReplace.load_word_lists wrong_words_file correct_words_file)
  /\ (forall P, confined
        (WordReplace.load_word_lists wrong_words_file correct_words_file) P)
  /\ (forall w,
        unreadable w wrong_words_file ->
        exists e,
          WordReplace.load_word_lists wrong_words_file correct_words_file w
          = (Val [], put_line (MsgWordListError e)
                       (log (EvOpenRead wrong_words_file) w)))
  /\ (forall w wrong_content,
        files w !! wrong_words_file = Some (Utf8 wrong_content) ->
        unreadable w correct_words_file ->
        exists e,
          WordReplace.load_word_lists wrong_words_file correct_words_file w
          = (Val [], put_line (MsgWordListError e)
                       (log (EvOpenRead correct_words_file)
                          (log (EvOpenRead wrong_words_file) w)))).
Proof.
  split; [apply load_returns|]. split; [intros P; apply load_confined|].
  split; [intros w; apply load_unreadable|].
  intros w wc. apply load_unreadable_second.
Qed.

Lemma load_word_lists_witness :
  exists e,
    WordReplace.load_word_lists "w.txt" "c.txt"
      (one_file "a.TextGrid" (text_field (str "id")))
    = (Val [], put_line (MsgWordListError e)
                 (log (EvOpenRead "w.txt")
                    (one_file "a.TextGrid" (text_field (str "id"))))).
Proof.
  apply (proj1 (proj2 (proj2 (load_word_lists_never_raises "w.txt" "c.txt")))).
  intros content H. vm_compute in H. discriminate.
Defined.

(** X18.  What [load_word_lists] returns for two lists of equal length.
    The words are the lines without the white space around them, blank
    lines left out: none is empty, starts or ends with white space or
    holds a line break.  The map has every wrong word once and gives it
    the correction of its last line in the list; when no wrong word
    comes twice the map is the list of the pairs, line by line and in
    the order of the files.  Nothing is printed. *)
Theorem word_map_pairs_the_lines
    (wrong_words_file correct_words_file : string) (w : world)
    (wrong_content correct_content : text) :
  files w !! wrong_words_file = Some (Utf8 wrong_content) ->
  files w !! correct_words_file = Some (Utf8 correct_content) ->
  length (WordReplace.stripped_lines wrong_content)
  = length (WordReplace.stripped_lines correct_content) ->
  let wrong_words := WordReplace.stripped_lines wrong_content in
  let correct_words := WordReplace.stripped_lines correct_content in
  exists word_map,
    WordReplace.load_word_lists wrong_words_file correct_words_file w
    = (Val word_map,
       log (EvOpenRead correct_words_file) (log (EvOpenRead wrong_words_file) w))
    /\ Forall clean_word wrong_words /\ Forall clean_word correct_words
    /\ NoDup (List.map fst word_map)
    /\ (forall k, dict_get k word_map
                  = dict_get k (rev (combine wrong_words correct_words)))
    /\ (NoDup wrong_words -> word_map = combine wrong_words correct_words).
Proof.
  intros Hw Hc Hlen wrong_words correct_words.
  exists (WordReplace.dict_of (combine wrong_words correct_words)).
  split; [now apply load_run|].
  split; [apply stripped_lines_clean|]. split; [apply stripped_lines_clean|].
  unfold WordReplace.dict_of. split; [|split].
  - apply dict_fold_nodup. constructor.
  - intros k. rewrite dict_fold_get.
    destruct (dict_get k (rev (combine wrong_words correct_words))); reflexivity.
  - intros Hnd. rewrite dict_fold_fresh; [reflexivity| |intros k _ []].
    rewrite map_fst_combine by (unfold wrong_words, correct_words; lia). exact Hnd.
Qed.

Lemma word_map_witness :
  let w :=
    World {[ "w.txt" := Utf8 (str " le " ++ newline :: newline :: str "un");
             "c.txt" := Utf8 (str "la" ++ newline :: str "une" ++ [newline]) ]}
          ∅ ∅ (fun _ _ => []) [] [] in
  exists word_map,
    WordReplace.load_word_lists "w.txt" "c.txt" w
    = (Val word_map, log (EvOpenRead "c.txt") (log (EvOpenRead "w.txt") w))
    /\ Forall clean_word
         (WordReplace.stripped_lines (str " le " ++ newline :: newline :: str "un"))
    /\ Forall clean_word
         (WordReplace.stripped_lines (str "la" ++ newline :: str "une" ++ [newline]))
    /\ NoDup (List.map fst word_map)
    /\ (forall k,
          dict_get k word_map
          = dict_get k
              (rev (combine
                      (WordReplace.stripped_lines
                         (str " le " ++ newline :: newline :: str "un"))
                      (WordReplace.stripped_lines
                         (str "la" ++ newline :: str "une" ++ [newline])))))
    /\ (NoDup (WordReplace.stripped_lines
                 (str " le " ++ newline :: newline :: str "un")) ->
        word_map
        = combine
            (WordReplace.stripped_lines (str " le " ++ newline :: newline :: str "un"))
            (WordReplace.stripped_lines (str "la" ++ newline :: str "une" ++ [newline]))).
Proof.
  intros w.
  apply (word_map_pairs_the_lines "w.txt" "c.txt" w
           (str " le " ++ newline :: newline :: str "un")
           (str "la" ++ newline :: str "une" ++ [newline])).
  - reflexivity.
  - reflexivity.
  - reflexivity.
Defined.


(** ** What the spacing fix and the stripping leave alone *)

(** X19.  The spacing fix moves white space only: the text it makes has
    the same characters other than white space as the text it was given,
    in the same order.  It changes no letter, digit, quote or period of
    a file. *)
Theorem spacing_fix_moves_white_space_only
    (alnum_beyond : char -> bool) (content : text) :
  ink (SpaceFinalDot.fixed_content alnum_beyond content) = ink content.
Proof. apply fixed_content_keeps_ink. Qed.

Lemma sublist_app_mid (g1 mid g2 : text) : sublist (g1 ++ g2) (g1 ++ mid ++ g2).
Proof.
  apply sublist_app; [reflexivity|]. apply sublist_inserts_l. reflexivity.
Qed.

(** One pass of the stripping only takes characters away, two or more
    for every match. *)
Lemma paren_pass_deletes s ps :
  tiling WordReplace.paren_pattern s ps ->
  sublist (render paren_repl ps) s
  /\ length (render paren_repl ps) + 2 * length (hits ps) <= length s.
Proof.
  induction 1 as [|c s ps Hm Ht [IH1 IH2]|m s ps Hm Hne Ht [IH1 IH2]];
    cbn [render hits length].
  - split; [constructor|lia].
  - split; [now constructor|lia].
  - apply paren_hit_shape in Hm as (g1 & inner & g2 & Hw & Hr).
    rewrite Hw, Hr. split.
    + apply sublist_app; [|exact IH1].
      replace (lparen :: inner ++ rparen :: g2)
        with ((lparen :: inner ++ [rparen]) ++ g2)
        by (cbn [app]; now rewrite <- app_assoc).
      apply sublist_app_mid.
    + rewrite !length_app. cbn [length]. rewrite !length_app. cbn [length]. lia.
Qed.

(** X20.  Parenthesis stripping only takes characters away: the text it
    makes is the text it was given with some characters left out, in the
    same order, and it is shorter by at least two characters for every
    match it counts. *)
Theorem parenthesis_stripping_only_deletes (content : text) :
  exists stripped,
    sub WordReplace.paren_pattern 2 (str "\1\2") content = inr stripped
    /\ sublist stripped content
    /\ length stripped + 2 * findall_len WordReplace.paren_pattern content
       <= length content.
Proof.
  rewrite sub_paren. eexists. split; [reflexivity|].
  apply paren_pass_deletes, scan_tiling, paren_pattern_min_len.
Qed.

Lemma case_pass_values lower upper tl s ps :
  tiling CaseConverter.pattern s ps ->
  values_converted (CaseConverter.recase lower upper tl) s
    (render (CaseConverter.case_replace lower upper tl) ps).
Proof.
  induction 1 as [|c s ps Hm Ht IH|m s ps Hm Hne Ht IH]; cbn [render].
  - constructor.
  - now constructor.
  - destruct (case_replace_shape lower upper tl _ _ Hm)
      as (o & v & Hw & Hr & _ & Ho & Hv).
    rewrite Hw, Hr, <- !app_assoc. cbn [app]. now apply vc_field.
Qed.

(** X21.  Case conversion touches field values only: the text it makes
    is the text it was given with the values of some text fields (the
    runs between a field opening and the next double quote) replaced by
    their converted form; every character outside these values is kept,
    whatever [str.lower] and [str.upper] do. *)
Theorem case_conversion_touches_values_only
    (str_lower str_upper : text -> text) (to_lowercase : bool) (content : text) :
  values_converted (CaseConverter.recase str_lower str_upper to_lowercase) content
    (sub_fn CaseConverter.pattern
       (CaseConverter.case_replace str_lower str_upper to_lowercase) content).
Proof. apply case_pass_values, scan_tiling, case_pattern_min_len. Qed.

(** ** Word replacement at a field, and the three operations in a row *)

Lemma word_replace_field wrong correct pre o post :
  plain_word correct = true ->
  finditer field_open pre = [] -> is_field_open o ->
  exists post',
    sub (WordReplace.word_pattern wrong) 2 (WordReplace.replacement correct) post
    = inr post'
    /\ sub (WordReplace.word_pattern wrong) 2 (WordReplace.replacement correct)
         (pre ++ o ++ wrong ++ quote :: post)
       = inr (pre ++ o ++ correct ++ quote :: post')
    /\ findall_len (WordReplace.word_pattern wrong) (pre ++ o ++ wrong ++ quote :: post)
       = S (findall_len (WordReplace.word_pattern wrong) post).
Proof.
  intros Hp Hpre Ho. unfold sub. rewrite (parse_plain correct Hp).
  eexists. split; [reflexivity|].
  destruct (word_sub_field wrong
              (expand (TGroup 1 :: List.map TChar correct ++ [TGroup 2]))
              pre o post Hpre Ho) as (m & E & H1 & H2).
  split.
  - f_equal. rewrite E, expand_plain, H1, H2. now norm_app.
  - destruct (word_match_field wrong o post Ho) as (m' & Hm' & Hw' & _).
    unfold findall_len, finditer.
    rewrite (pre_gaps _ pre o _ (word_opens wrong) Hpre Ho).
    replace (o ++ wrong ++ quote :: post) with ((o ++ wrong ++ [quote]) ++ post)
      by now norm_app.
    rewrite (scan_hit _ _ post m' Hm' Hw') by now apply opening_nonempty.
    clear. induction pre as [|x pre IH]; [reflexivity|exact IH].
Qed.

(** X22.  Word replacement rewrites the field.  With a correction that
    [re.sub] takes literally (no backslash in it and no digit at its
    start), in a text made of a part in which no field opens, then a
    field whose whole value is the wrong word, then the rest: the field
    gets the correction as its value, opening and closing quote kept,
    the match counts once, and the rest is rewritten on its own. *)
Theorem word_replacement_rewrites_the_field
    (wrong_word correct_word pre o post : text) :
  plain_word correct_word = true ->
  finditer field_open pre = [] -> is_field_open o ->
  exists post',
    sub (WordReplace.word_pattern wrong_word) 2
      (WordReplace.replacement correct_word) post = inr post'
    /\ sub (WordReplace.word_pattern wrong_word) 2
         (WordReplace.replacement correct_word)
         (pre ++ o ++ wrong_word ++ quote :: post)
       = inr (pre ++ o ++ correct_word ++ quote :: post')
    /\ findall_len (WordReplace.word_pattern wrong_word)
         (pre ++ o ++ wrong_word ++ quote :: post)
       = S (findall_len (WordReplace.word_pattern wrong_word) post).
Proof. apply word_replace_field. Qed.

Lemma word_replacement_field_witness :
  exists post',
    sub (WordReplace.word_pattern (str "le")) 2 (WordReplace.replacement (str "la")) []
    = inr post'
    /\ sub (WordReplace.word_pattern (str "le")) 2 (WordReplace.replacement (str "la"))
         (str "xmax = 1 " ++ field_opening [space] [space] ++ str "le" ++ quote :: [])
       = inr (str "xmax = 1 " ++ field_opening [space] [space] ++ str "la"
                ++ quote :: post')
    /\ findall_len (WordReplace.word_pattern (str "le"))
         (str "xmax = 1 " ++ field_opening [space] [space] ++ str "le" ++ quote :: [])
       = S (findall_len (WordReplace.word_pattern (str "le")) []).
Proof.
  apply (word_replacement_rewrites_the_field (str "le") (str "la") (str "xmax = 1 ")
           (field_opening [space] [space]) []).
  - reflexivity.
  - reflexivity.
  - exists [space], [space]. split; [reflexivity|]. split; reflexivity.
Defined.





(** The value id(le) with the pair id, idee: stripping leaves id, which
    the word step of the same run has not seen. *)
Example stripped_value_is_not_corrected :
  files (snd (WordReplace.process_file "a.TextGrid" [(str "id", str "idee")]
                true true true
                (WordReplace.Totals 0 0 0 0%Z [(str "id", 0)])
                (one_file "a.TextGrid" (text_field (str "id(le)")))))
    !! "a.TextGrid"
  = Some (Utf8 (text_field (str "id"))).
Proof. vm_compute. reflexivity. Qed.



(* ===================================================================== *)
(** * Unchanged fields are not counted: the count, field by field *)
(* ===================================================================== *)











